(** * branjs: the template compiler and the View orchestrator

    A shallow embedding of [src/view/compiler/compiler.ts] (class [Compiler])
    and of the class [View] of [src/view], the singleton that bootstraps an
    application.

    JavaScript objects that the code mutates after creation ([ViewNode],
    [ViewRef], [Tree]) live in stores and are referred to by address, so
    that aliasing is visible: the [Tree<ViewRef>] built by the outermost
    [_compileViewRef] is the very object every recursive call adds to.
    Exceptions are the [Throw] outcome of the monad [M].  The recursion of
    [_compileViewRef] follows the component graph, which may be cyclic, so
    it carries fuel. *)

From Stdlib Require Import String.
From stdpp Require Import base option list sets strings.

Set Warnings "-clear-no-such-hyp".

(** ** Plain data *)

(** An object reference: an index into the store of its class. *)
Abbreviation addr := nat (only parsing).

(** [HTMLElement]: display elements are opaque to the compiler. *)
Definition Element := nat.
Definition Selector := string.
Definition Template := string.

(** [Type<T>]: a component constructor, opaque to the compiler. *)
Definition ComponentType := nat.

(** [TemplateASTBinding], [TemplateASTDirective]: raw declarations found by
    the parser. *)
Definition TemplateASTBinding := string.
Definition TemplateASTDirective := string.

Inductive Error :=
  | TypeError                         (* property access on undefined / null *)
  | StructuralError                   (* Tree.add: parent not in the tree *)
  | EntryComponentNotRegisteredError
  | UnknownComponentError
  | DependencyResolutionError
  | TemplateSyntaxError.

Module TemplateASTNode.
Record t := mk {
  element : Element;
  componentSelector : option Selector;
  bindings : list TemplateASTBinding;
  directive : option TemplateASTDirective
}.
End TemplateASTNode.

Module ComponentRef.
Record t := mk {
  instance : nat;
  selector : Selector;
  template : Template;
  hostElement : Element
}.
End ComponentRef.

(** Modelled from the spec: [Binding] (src/view/binding is absent), "a live
    link between a data expression and a display-element slot", owned by
    exactly one View Node. *)
Module Binding.
Record t := mk {
  expression : string;
  slot : string;
  owner : addr
}.
End Binding.

(** Modelled from the spec: [ViewNode] (src/view/view-node is absent):
    [{ element, componentSelector?, bindings, viewRef? }]; the constructor
    takes the element only. *)
Module ViewNode.
Record t := mk {
  element : Element;
  componentSelector : option Selector;
  bindings : list Binding.t;
  viewRef : option addr
}.
Definition new (e : Element) : t := mk e None [] None.
Definition with_componentSelector (c : option Selector) (n : t) : t :=
  mk (element n) c (bindings n) (viewRef n).
Definition with_bindings (b : list Binding.t) (n : t) : t :=
  mk (element n) (componentSelector n) b (viewRef n).
Definition with_viewRef (r : option addr) (n : t) : t :=
  mk (element n) (componentSelector n) (bindings n) r.
End ViewNode.

(** Modelled from the spec: [ViewRef] (src/view/view-ref is absent):
    [{ componentRef, nodesTree, renderHost, compiled }]; the constructor
    takes the component reference and the View Node tree, and a fresh
    View Reference is uncompiled and has no render host. *)
Module ViewRef.
Record t := mk {
  componentRef : ComponentRef.t;
  nodesTree : addr;
  renderHost : option Element;
  compiled : bool
}.
Definition new (c : ComponentRef.t) (n : addr) : t := mk c n None false.
Definition with_renderHost (h : option Element) (r : t) : t :=
  mk (componentRef r) (nodesTree r) h (compiled r).
Definition with_compiled (b : bool) (r : t) : t :=
  mk (componentRef r) (nodesTree r) (renderHost r) b.
End ViewRef.

(** ** Tree / TreeNode

    Modelled from the spec: [Tree] and [TreeNode] (src/structs is absent).
    "A node owns its children"; [new Tree(rootData)] creates a single-node
    tree; [add(data, parent)] appends a new node as the last child of the
    located parent and fails with a [StructuralError] when the parent is not
    in the tree; [traverseDF] is depth-first pre-order, [traverseBF]
    breadth-first, both in insertion order among siblings. *)

Unset Elimination Schemes.
Inductive TreeNode (A : Type) : Type :=
  | mkTreeNode (d : A) (cs : list (TreeNode A)).
Set Elimination Schemes.
Arguments mkTreeNode {A} d cs.

Definition data {A} (n : TreeNode A) : A :=
  match n with mkTreeNode d _ => d end.
Definition children {A} (n : TreeNode A) : list (TreeNode A) :=
  match n with mkTreeNode _ cs => cs end.

Record Tree (A : Type) := mkTree { root : TreeNode A }.
Arguments mkTree {A} root.
Arguments root {A} t.

(** A [TreeNode] as a traversal callback receives it: [isRoot] holds of the
    node without a parent, the tree's root, and of no other node. *)
Record Visited (A : Type) := mkVisited { isRoot : bool; node : TreeNode A }.
Arguments mkVisited {A} isRoot node.
Arguments isRoot {A} v.
Arguments node {A} v.

Section TreeOps.
Context {A : Type}.

(** The nodes below [n], depth-first pre-order. *)
Fixpoint preorder (n : TreeNode A) : list (TreeNode A) :=
  match n with
  | mkTreeNode _ cs => n :: flat_map preorder cs
  end.

Definition visitsDF (t : Tree A) : list (Visited A) :=
  mkVisited true (root t)
    :: map (mkVisited false) (flat_map preorder (children (root t))).

(** Level-wise concatenation. *)
Fixpoint zip_levels (l1 l2 : list (list (TreeNode A))) : list (list (TreeNode A)) :=
  match l1, l2 with
  | [], _ => l2
  | _, [] => l1
  | x :: l1', y :: l2' => (x ++ y) :: zip_levels l1' l2'
  end.

(** The nodes below [n] by depth, each level left to right. *)
Fixpoint levels (n : TreeNode A) : list (list (TreeNode A)) :=
  match n with
  | mkTreeNode _ cs =>
      [n] :: fold_right (fun c acc => zip_levels (levels c) acc) [] cs
  end.

Definition visitsBF (t : Tree A) : list (Visited A) :=
  match concat (levels (root t)) with
  | [] => []
  | r :: rest => mkVisited true r :: map (mkVisited false) rest
  end.

Context `{EqDecision A}.

(** [graft p sub n]: [sub] becomes the last child of the first node (in
    pre-order) below [n] whose data is [p]; [None] when there is none. *)
Fixpoint graft (p : A) (sub : TreeNode A) (n : TreeNode A) : option (TreeNode A) :=
  match n with
  | mkTreeNode d cs =>
      if decide (d = p) then Some (mkTreeNode d (cs ++ [sub]))
      else
        mkTreeNode d <$>
          (fix graft_first (l : list (TreeNode A)) : option (list (TreeNode A)) :=
             match l with
             | [] => None
             | c :: l' =>
                 match graft p sub c with
                 | Some c' => Some (c' :: l')
                 | None => (c ::.) <$> graft_first l'
                 end
             end) cs
  end.
End TreeOps.

(** ** Collaborators of the compiler

    Their classes are outside src/; the compiler sees them through the
    methods it calls. *)

Record Parser := {
  (** [parse(template, host)]: the Template AST, rooted at the host element. *)
  parse : Template -> Element -> Error + Tree TemplateASTNode.t
}.

Record ComponentFactory := {
  (** [create(component, host)]; [component] is [None] when the caller
      hands over [undefined]. *)
  create : option ComponentType -> Element -> Error + ComponentRef.t
}.

Record ComponentsRegistry := {
  getBySelector : Selector -> option ComponentType;
  getEntryComponent : option ComponentType
}.

Record BindingBuilder := {
  (** [build(astBinding, viewNode)]; the View Node is passed by reference. *)
  build : TemplateASTBinding -> addr -> Error + Binding.t
}.

Record Compiler := mkCompiler {
  compiler_oid : nat;                      (* object identity *)
  _parser : Parser;
  _componentFactory : ComponentFactory;
  _componentsRegistry : ComponentsRegistry;
  _bindingBuilder : option BindingBuilder  (* [None]: constructed with undefined *)
}.

Definition RootInjector := nat.

Record View := mkView {
  view_oid : nat;
  _rootInjector : RootInjector;
  view_componentsRegistry : ComponentsRegistry;
  view_componentFactory : ComponentFactory;
  view_parser : Parser;
  _compiler : Compiler
}.

(** ** The program state *)

(** Ghost trace: the creation of View Nodes and View References, the
    writes of [compiled], and the lifecycle calls of [bootstrap]. *)
Inductive Event :=
  | EvNewViewNode (a : addr)             (* new ViewNode(...) *)
  | EvNewViewRef (r : addr)              (* new ViewRef(...) *)
  | EvSetCompiled (r : addr) (b : bool)  (* viewRef.compiled = b *)
  | EvInit (r : addr)                    (* viewRef.init() *)
  | EvUpdate (r : addr).                 (* viewRef.update() *)

Record State := mkState {
  viewNodes : list ViewNode.t;           (* store of ViewNode objects *)
  viewRefs : list ViewRef.t;             (* store of ViewRef objects *)
  trees : list (Tree addr);              (* store of Tree<ViewNode> and Tree<ViewRef> objects *)
  trace : list Event;
  Compiler_instance : option Compiler;   (* static Compiler._instance *)
  View_instance : option View;           (* static View._instance *)
  View_viewRefTree : option addr;        (* field _viewRefTree of the View singleton *)
  next_oid : nat
}.

Definition initial : State := mkState [] [] [] [] None None None 0.

Definition set_viewNodes (f : list ViewNode.t -> list ViewNode.t) (s : State) : State :=
  mkState (f (viewNodes s)) (viewRefs s) (trees s) (trace s)
          (Compiler_instance s) (View_instance s) (View_viewRefTree s) (next_oid s).
Definition set_viewRefs (f : list ViewRef.t -> list ViewRef.t) (s : State) : State :=
  mkState (viewNodes s) (f (viewRefs s)) (trees s) (trace s)
          (Compiler_instance s) (View_instance s) (View_viewRefTree s) (next_oid s).
Definition set_trees (f : list (Tree addr) -> list (Tree addr)) (s : State) : State :=
  mkState (viewNodes s) (viewRefs s) (f (trees s)) (trace s)
          (Compiler_instance s) (View_instance s) (View_viewRefTree s) (next_oid s).
Definition log (e : Event) (s : State) : State :=
  mkState (viewNodes s) (viewRefs s) (trees s) (trace s ++ [e])
          (Compiler_instance s) (View_instance s) (View_viewRefTree s) (next_oid s).

(** ** The monad: state, exceptions, fuel *)

Inductive Outcome (A : Type) : Type :=
  | Ret (a : A) (s : State)
  | Throw (e : Error) (s : State)
  | OutOfFuel.
Arguments Ret {A} a s.
Arguments Throw {A} e s.
Arguments OutOfFuel {A}.

Definition M (A : Type) : Type := State -> Outcome A.

Definition ret {A} (a : A) : M A := fun s => Ret a s.
Definition throw {A} (e : Error) : M A := fun s => Throw e s.
Definition bind {A B} (m : M A) (k : A -> M B) : M B :=
  fun s =>
    match m s with
    | Ret a s' => k a s'
    | Throw e s' => Throw e s'
    | OutOfFuel => OutOfFuel
    end.

Declare Scope M_scope.
Delimit Scope M_scope with M.
Bind Scope M_scope with M.
Notation "'let*' x ':=' m 'in' k" := (bind m (fun x => k))
  (at level 10, x name, m at level 100, k at level 200) : M_scope.
Notation "m ';;' k" := (bind m (fun _ => k))
  (at level 100, k at level 200, right associativity) : M_scope.
Open Scope M_scope.

(** A call into a collaborator: its failure is thrown. *)
Definition call {A} (r : Error + A) : M A :=
  match r with
  | inl e => throw e
  | inr a => ret a
  end.

Definition modify (f : State -> State) : M unit := fun s => Ret tt (f s).

(** [Array.prototype.forEach]: the callback's result is dropped. *)
Definition forEach {A} (f : A -> M unit) : list A -> M unit :=
  fix go (l : list A) : M unit :=
    match l with
    | [] => ret tt
    | x :: l' => f x ;; go l'
    end.

(** [Array.prototype.map] with a callback that may throw. *)
Definition mapM {A B} (f : A -> M B) : list A -> M (list B) :=
  fix go (l : list A) : M (list B) :=
    match l with
    | [] => ret []
    | x :: l' => let* y := f x in let* ys := go l' in ret (y :: ys)
    end.

(** ** Object stores *)

(** Dereferencing: an address that is not in the store cannot arise from
    the code (references are created by [new] only); the model throws. *)
Definition deref {A} (store : State -> list A) (a : addr) : M A :=
  fun s =>
    match store s !! a with
    | Some x => Ret x s
    | None => Throw TypeError s
    end.

Definition new_ViewNode (e : Element) : M addr :=
  fun s =>
    let a := length (viewNodes s) in
    Ret a (log (EvNewViewNode a) (set_viewNodes (.++ [ViewNode.new e]) s)).

Definition update_ViewNode (a : addr) (f : ViewNode.t -> ViewNode.t) : M unit :=
  deref viewNodes a ;; modify (set_viewNodes (alter f a)).

Definition new_ViewRef (c : ComponentRef.t) (nodesTree : addr) : M addr :=
  fun s =>
    let r := length (viewRefs s) in
    Ret r (log (EvNewViewRef r) (set_viewRefs (.++ [ViewRef.new c nodesTree]) s)).

Definition update_ViewRef (r : addr) (f : ViewRef.t -> ViewRef.t) : M unit :=
  deref viewRefs r ;; modify (set_viewRefs (alter f r)).

(** [viewRef.updateRenderHost(host)]. *)
Definition updateRenderHost (r : addr) (host : Element) : M unit :=
  update_ViewRef r (ViewRef.with_renderHost (Some host)).

(** [viewRef.compiled = b]. *)
Definition set_compiled (r : addr) (b : bool) : M unit :=
  update_ViewRef r (ViewRef.with_compiled b) ;; modify (log (EvSetCompiled r b)).

(** [new Tree<T>(data)]. *)
Definition new_Tree (d : addr) : M addr :=
  fun s => Ret (length (trees s)) (set_trees (.++ [mkTree (mkTreeNode d [])]) s).

(** [tree.add(data, parent)]; [parent] is [None] for [null], which no node
    holds. *)
Definition Tree_add (t : addr) (d : addr) (parent : option addr) : M unit :=
  let* tree := deref trees t in
  match parent with
  | None => throw StructuralError
  | Some p =>
      match graft p (mkTreeNode d []) (root tree) with
      | Some n' => modify (set_trees (<[t := mkTree n']>))
      | None => throw StructuralError
      end
  end.

(** [tree.traverseDF(callback)].  The callbacks of this program never add
    to the tree they traverse, so the visits are fixed on entry. *)
Definition traverseDF (t : addr) (callback : Visited addr -> M unit) : M unit :=
  let* tree := deref trees t in
  forEach callback (visitsDF tree).

(** [tree.traverseBF(callback)]. *)
Definition traverseBF (t : addr) (callback : Visited addr -> M unit) : M unit :=
  let* tree := deref trees t in
  forEach callback (visitsBF tree).

(** ** class Compiler *)

(** JavaScript truthiness of [componentSelector]: [undefined] and the empty
    string are falsy. *)
Definition truthy (c : option Selector) : bool :=
  match c with
  | Some sel => bool_decide (sel ≠ ""%string)
  | None => false
  end.

Section Compiler.
Variable this : Compiler.

(** [_buildViewNode(astNode)]. *)
Definition _buildViewNode (astNode : TemplateASTNode.t) : M addr :=
  let* viewNode := new_ViewNode (TemplateASTNode.element astNode) in
  update_ViewNode viewNode
    (ViewNode.with_componentSelector (TemplateASTNode.componentSelector astNode)) ;;
  let* bindings :=
    mapM (fun astBinding =>
            match _bindingBuilder this with
            | Some bindingBuilder => call (build bindingBuilder astBinding viewNode)
            | None => throw TypeError
            end)
         (TemplateASTNode.bindings astNode) in
  update_ViewNode viewNode (ViewNode.with_bindings bindings) ;;
  ret viewNode.

(** [_getViewNodes(astNode, parent = null, viewNodesTree = null)]. *)
Fixpoint _getViewNodes (astNode : TreeNode TemplateASTNode.t)
    (parent : option addr) (viewNodesTree : option addr) : M addr :=
  match astNode with
  | mkTreeNode astData astChildren =>
      let* viewNode := _buildViewNode astData in
      let* viewNodesTree :=
        match viewNodesTree, parent with
        | None, None => new_Tree viewNode
        | Some t, _ => Tree_add t viewNode parent ;; ret t
        | None, Some _ => throw TypeError   (* null.add(...) *)
        end in
      forEach (fun childAstNode =>
                 _getViewNodes childAstNode (Some viewNode) (Some viewNodesTree) ;;
                 ret tt)
              astChildren ;;
      ret viewNodesTree
  end.

(** [_compileViewRef(component, host, viewRefTree = null,
    parentViewRef = null, hostViewNode = null)].  [console.log] is left
    out.  [fuel] bounds the depth of the recursion over components. *)
Fixpoint _compileViewRef (fuel : nat) (component : option ComponentType)
    (host : Element) (viewRefTree : option addr) (parentViewRef : option addr)
    (hostViewNode : option (Visited addr)) : M addr :=
  match fuel with
  | O => fun _ => OutOfFuel
  | S fuel' =>
      let* componentRef := call (create (_componentFactory this) component host) in
      let* ast := call (parse (_parser this) (ComponentRef.template componentRef) host) in
      let* nodesTree := _getViewNodes (root ast) None None in
      let* viewRef := new_ViewRef componentRef nodesTree in
      let* viewRefTree :=
        match viewRefTree, parentViewRef with
        | None, None =>
            let* t := new_Tree viewRef in
            updateRenderHost viewRef host ;;
            ret t
        | Some t, _ => Tree_add t viewRef parentViewRef ;; ret t
        | None, Some _ => throw TypeError   (* null.add(...) *)
        end in
      match hostViewNode with
      | Some hv =>
          update_ViewNode (data (node hv)) (ViewNode.with_viewRef (Some viewRef))
      | None => ret tt
      end ;;
      let* vr := deref viewRefs viewRef in
      traverseDF (ViewRef.nodesTree vr) (fun viewNode =>
        let* vn := deref viewNodes (data (node viewNode)) in
        if negb (isRoot viewNode) && truthy (ViewNode.componentSelector vn) then
          _compileViewRef fuel'
            (getBySelector (_componentsRegistry this)
               (default ""%string (ViewNode.componentSelector vn)))
            (ViewNode.element vn)
            (Some viewRefTree) (Some viewRef) (Some viewNode) ;;
          ret tt
        else ret tt) ;;
      set_compiled viewRef true ;;
      ret viewRefTree
  end.

(** [compile(component, host)]. *)
Definition compile (fuel : nat) (component : option ComponentType) (host : Element)
    : M addr :=
  _compileViewRef fuel component host None None None.
End Compiler.

(** ** class View *)

(** Modelled from the spec: [assertEntryComponentRegistered]
    (src/view/assertions is absent): bootstrap "fails fatally via an
    EntryComponentNotRegisteredError if [the entry component is] absent". *)
Definition assertEntryComponentRegistered (entryComponent : option ComponentType)
    : M unit :=
  match entryComponent with
  | Some _ => ret tt
  | None => throw EntryComponentNotRegisteredError
  end.

(** Modelled from the spec: [ViewRef.init] and [ViewRef.update]
    (src/view/view-ref is absent).  What they do to the component and to
    the display, and the propagation of [update] from a View Reference to
    its children, are inside that class; the model records the call that
    [bootstrap] makes and lets it return. *)
Definition ViewRef_init (r : addr) : M unit :=
  deref viewRefs r ;; modify (log (EvInit r)).
Definition ViewRef_update (r : addr) : M unit :=
  deref viewRefs r ;; modify (log (EvUpdate r)).

(** Fresh object identity for the singletons. *)
Definition new_oid : M nat :=
  fun s =>
    Ret (next_oid s)
        (mkState (viewNodes s) (viewRefs s) (trees s) (trace s)
           (Compiler_instance s) (View_instance s) (View_viewRefTree s)
           (S (next_oid s))).

Definition set_Compiler_instance (c : Compiler) : M unit :=
  modify (fun s =>
    mkState (viewNodes s) (viewRefs s) (trees s) (trace s)
      (Some c) (View_instance s) (View_viewRefTree s) (next_oid s)).

Definition set_View_instance (v : View) : M unit :=
  modify (fun s =>
    mkState (viewNodes s) (viewRefs s) (trees s) (trace s)
      (Compiler_instance s) (Some v) (View_viewRefTree s) (next_oid s)).

(** [new Compiler(...)], private. *)
Definition Compiler_new (parser : Parser) (componentFactory : ComponentFactory)
    (componentsRegistry : ComponentsRegistry) (bindingBuilder : option BindingBuilder)
    : M Compiler :=
  let* oid := new_oid in
  ret (mkCompiler oid parser componentFactory componentsRegistry bindingBuilder).

(** [Compiler.getInstance(parser, componentFactory, componentsRegistry,
    bindingBuilder)]; a caller that passes three arguments leaves
    [bindingBuilder] undefined, [None]. *)
Definition Compiler_getInstance (parser : Parser) (componentFactory : ComponentFactory)
    (componentsRegistry : ComponentsRegistry) (bindingBuilder : option BindingBuilder)
    : M Compiler :=
  fun s =>
    match Compiler_instance s with
    | Some instance => Ret instance s
    | None =>
        (let* instance :=
           Compiler_new parser componentFactory componentsRegistry bindingBuilder in
         set_Compiler_instance instance ;;
         ret instance) s
    end.

Definition Document := nat.

Section View.
(** [ComponentFactory.getInstance(rootInjector, view)] and
    [Parser.getInstance(document)]: classes outside src/.  The view is
    passed by identity. *)
Variable ComponentFactory_getInstance : RootInjector -> nat -> ComponentFactory.
Variable Parser_getInstance : Document -> Parser.
Variable document : Document.

(** [new View(rootInjector, componentsRegistry)], private. *)
Definition View_new (rootInjector : RootInjector)
    (componentsRegistry : ComponentsRegistry) : M View :=
  let* oid := new_oid in
  let componentFactory := ComponentFactory_getInstance rootInjector oid in
  let parser := Parser_getInstance document in
  let* compiler :=
    Compiler_getInstance parser componentFactory componentsRegistry None in
  ret (mkView oid rootInjector componentsRegistry componentFactory parser compiler).

(** [View.getInstance(rootInjector, componentsRegistry)]. *)
Definition View_getInstance (rootInjector : RootInjector)
    (componentsRegistry : ComponentsRegistry) : M View :=
  fun s =>
    match View_instance s with
    | Some instance => Ret instance s
    | None =>
        (let* instance := View_new rootInjector componentsRegistry in
         set_View_instance instance ;;
         ret instance) s
    end.
End View.

(** [this.viewRefTree = tree] (the setter) and [this._viewRefTree]. *)
Definition set_viewRefTree (t : addr) : M unit :=
  modify (fun s =>
    mkState (viewNodes s) (viewRefs s) (trees s) (trace s)
      (Compiler_instance s) (View_instance s) (Some t) (next_oid s)).

Definition get_viewRefTree : M addr :=
  fun s =>
    match View_viewRefTree s with
    | Some t => Ret t s
    | None => Throw TypeError s
    end.

(** [view.bootstrap(appHost)]; [fuel] is handed to the compiler. *)
Definition bootstrap (fuel : nat) (this : View) (appHost : Element) : M unit :=
  let entryComponent := getEntryComponent (view_componentsRegistry this) in
  assertEntryComponentRegistered entryComponent ;;
  let* tree := compile (_compiler this) fuel entryComponent appHost in
  set_viewRefTree tree ;;
  let* t := get_viewRefTree in
  traverseBF t (fun treeNode =>
    let viewRef := data (node treeNode) in
    ViewRef_init viewRef) ;;
  let* t := get_viewRefTree in
  let* tree := deref trees t in
  ViewRef_update (data (root tree)).

(** ** Notions used to state the properties *)

(** The data of the nodes below [n] and below a list of siblings, in
    pre-order. *)
Definition tdata {A} (n : TreeNode A) : list A := map data (preorder n).
Definition fdata {A} (l : list (TreeNode A)) : list A :=
  map data (flat_map preorder l).

(** The search of [graft] among siblings. *)
Fixpoint graft_first {A} `{EqDecision A} (p : A) (sub : TreeNode A)
    (l : list (TreeNode A)) : option (list (TreeNode A)) :=
  match l with
  | [] => None
  | c :: l' =>
      match graft p sub c with
      | Some c' => Some (c' :: l')
      | None => (c ::.) <$> graft_first p sub l'
      end
  end.

(** Successive [add]s under one parent. *)
Fixpoint graft_many {A} `{EqDecision A} (p : A) (subs : list (TreeNode A))
    (n : TreeNode A) : option (TreeNode A) :=
  match subs with
  | [] => Some n
  | sub :: subs' =>
      match graft p sub n with
      | Some n' => graft_many p subs' n'
      | None => None
      end
  end.

(** [relabel k n]: the shape of [n], its nodes numbered from [k] in
    pre-order; the addresses a run of [_getViewNodes] hands out. *)
Fixpoint relabel {A} (k : nat) (n : TreeNode A) : TreeNode addr :=
  match n with
  | mkTreeNode _ cs =>
      mkTreeNode k
        ((fix relabel_from (k : nat) (l : list (TreeNode A)) : list (TreeNode addr) :=
            match l with
            | [] => []
            | c :: l' => relabel k c :: relabel_from (k + length (preorder c)) l'
            end) (S k) cs)
  end.

Fixpoint relabel_from {A} (k : nat) (l : list (TreeNode A)) : list (TreeNode addr) :=
  match l with
  | [] => []
  | c :: l' => relabel k c :: relabel_from (k + length (preorder c)) l'
  end.

Arguments relabel : simpl never.

(** The state after more View Nodes were allocated and the tree store was
    replaced. *)
Definition with_nodes (nodes : list ViewNode.t) (ts : list (Tree addr)) (s : State)
    : State :=
  mkState (viewNodes s ++ nodes) (viewRefs s) ts
          (trace s ++ map EvNewViewNode (seq (length (viewNodes s)) (length nodes)))
          (Compiler_instance s) (View_instance s) (View_viewRefTree s) (next_oid s).

Section Expected.
Variable this : Compiler.

(** What the [map] over [astNode.bindings] yields for the View Node at
    [a], or the first failure. *)
Fixpoint build_all (a : addr) (raws : list TemplateASTBinding)
    : Error + list Binding.t :=
  match raws with
  | [] => inr []
  | raw :: raws' =>
      match _bindingBuilder this with
      | None => inl TypeError
      | Some bindingBuilder =>
          match build bindingBuilder raw a with
          | inl e => inl e
          | inr b =>
              match build_all a raws' with
              | inl e => inl e
              | inr bs => inr (b :: bs)
              end
          end
      end
  end.

(** The View Nodes built for the AST nodes [ds], allocated from address
    [a] on, or the first failure. *)
Fixpoint expected_nodes (a : addr) (ds : list TemplateASTNode.t)
    : Error + list ViewNode.t :=
  match ds with
  | [] => inr []
  | d :: ds' =>
      match build_all a (TemplateASTNode.bindings d) with
      | inl e => inl e
      | inr bs =>
          match expected_nodes (S a) ds' with
          | inl e => inl e
          | inr ns =>
              inr (ViewNode.mk (TemplateASTNode.element d)
                     (TemplateASTNode.componentSelector d) bs None :: ns)
          end
      end
  end.

(** A View Node tree mirrors a Template AST: node for node, children in
    the same order, each View Node with the element and the selector of
    its AST node and one Binding, built by the Binding Builder for this
    very View Node, per raw binding. *)
Fixpoint mirrors (s : State) (ast : TreeNode TemplateASTNode.t)
    (n : TreeNode addr) : Prop :=
  match ast, n with
  | mkTreeNode d cs, mkTreeNode a ns =>
      (∃ vn, viewNodes s !! a = Some vn
             ∧ ViewNode.element vn = TemplateASTNode.element d
             ∧ ViewNode.componentSelector vn = TemplateASTNode.componentSelector d
             ∧ Forall2 (λ raw b, ∃ bindingBuilder,
                          _bindingBuilder this = Some bindingBuilder
                          ∧ build bindingBuilder raw a = inr b)
                       (TemplateASTNode.bindings d) (ViewNode.bindings vn))
      ∧ (fix mirrors_all (cs : list (TreeNode TemplateASTNode.t))
             (ns : list (TreeNode addr)) : Prop :=
           match cs, ns with
           | [], [] => True
           | c :: cs', n' :: ns' => mirrors s c n' ∧ mirrors_all cs' ns'
           | _, _ => False
           end) cs ns
  end.

(** What a call of [_getViewNodes] below an existing parent does: it
    allocates the expected View Nodes and grafts the relabelled AST under
    the parent, or fails as the first binding that cannot be built. *)
Definition getViewNodes_under_spec (ast : TreeNode TemplateASTNode.t) : Prop :=
  ∀ s vt p T,
    trees s !! vt = Some (mkTree T) →
    p ∈ tdata T →
    (∀ x, x ∈ tdata T → x < length (viewNodes s)) →
    match expected_nodes (length (viewNodes s)) (tdata ast) with
    | inr nodes =>
        ∃ T', graft p (relabel (length (viewNodes s)) ast) T = Some T'
              ∧ _getViewNodes this ast (Some p) (Some vt) s
                = Ret vt (with_nodes nodes (<[vt := mkTree T']> (trees s)) s)
    | inl e => ∃ s', _getViewNodes this ast (Some p) (Some vt) s = Throw e s'
    end.
End Expected.


(** The View Nodes of the View Reference [r], in pre-order. *)
Definition nodes_of (s : State) (r : addr) : list addr :=
  match viewRefs s !! r with
  | Some vr =>
      match trees s !! ViewRef.nodesTree vr with
      | Some tree => tdata (root tree)
      | None => []
      end
  | None => []
  end.

(** The trace of compiling the View References below [n]: for each one its
    View Nodes are created, then the View Reference itself, then its
    children one after the other, and last it is marked compiled. *)
Fixpoint pass_trace (nodes : addr → list addr) (n : TreeNode addr) : list Event :=
  match n with
  | mkTreeNode r cs =>
      map EvNewViewNode (nodes r)
      ++ EvNewViewRef r :: flat_map (pass_trace nodes) cs ++ [EvSetCompiled r true]
  end.

(** [frame P Q vt s s']: from [s] to [s'] the stores only grew, except
    for the View Nodes in [P], the View References in [Q] and the tree
    [vt]. *)
Record frame (P Q : addr → Prop) (vt : option addr) (s s' : State) : Prop := mkFrame {
  frame_nodes_len : length (viewNodes s) ≤ length (viewNodes s');
  frame_nodes : ∀ a, a < length (viewNodes s) → ¬ P a →
                     viewNodes s' !! a = viewNodes s !! a;
  frame_refs_len : length (viewRefs s) ≤ length (viewRefs s');
  frame_refs : ∀ r, r < length (viewRefs s) → ¬ Q r →
                    viewRefs s' !! r = viewRefs s !! r;
  frame_trees_len : length (trees s) ≤ length (trees s');
  frame_trees : ∀ t, t < length (trees s) → vt ≠ Some t →
                     trees s' !! t = trees s !! t;
  frame_Compiler_instance : Compiler_instance s' = Compiler_instance s;
  frame_View_instance : View_instance s' = View_instance s;
  frame_View_viewRefTree : View_viewRefTree s' = View_viewRefTree s;
  frame_next_oid : next_oid s' = next_oid s
}.

Section CompiledSpec.
Variable this : Compiler.

(** The guard of the child-discovery traversal. *)
Definition is_placeholder (v : Visited addr) (vn : ViewNode.t) : bool :=
  negb (isRoot v) && truthy (ViewNode.componentSelector vn).

(** A visited View Node of the compiled View Reference [r]: a placeholder
    holds the View Reference of a later-created child, made by the factory
    from what the registry returned for the selector; any other node
    holds none. *)
Definition visit_ok (s : State) (r : addr) (v : Visited addr) : Prop :=
  ∃ vn, viewNodes s !! data (node v) = Some vn
        ∧ if is_placeholder v vn
          then ∃ c vc, ViewNode.viewRef vn = Some c
                       ∧ r < c
                       ∧ viewRefs s !! c = Some vc
                       ∧ create (_componentFactory this)
                           (getBySelector (_componentsRegistry this)
                              (default ""%string (ViewNode.componentSelector vn)))
                           (ViewNode.element vn)
                         = inr (ViewRef.componentRef vc)
          else ViewNode.viewRef vn = None.

(** A compiled View Reference; its View Nodes are at [lo_n] or above,
    its View Node tree at [lo_t] or above. *)
Definition compiled_ok (s : State) (lo_n lo_t : nat) (r : addr) : Prop :=
  ∃ vr T, viewRefs s !! r = Some vr
          ∧ ViewRef.compiled vr = true
          ∧ lo_t ≤ ViewRef.nodesTree vr
          ∧ trees s !! ViewRef.nodesTree vr = Some (mkTree T)
          ∧ NoDup (tdata T)
          ∧ (∀ a, a ∈ tdata T → lo_n ≤ a)
          ∧ Forall (visit_ok s r) (visitsDF (mkTree T)).

(** What a call of [_compileViewRef] that returns has done; [sub] is the
    subtree of View References it created. *)
Record compile_post (component : option ComponentType) (host : Element)
    (viewRefTree parentViewRef : option addr) (hostViewNode : option (Visited addr))
    (s : State) (t : addr) (s' : State) (sub : TreeNode addr) : Prop := mkPost {
  post_root : data sub = length (viewRefs s);
  post_refs :
    tdata sub = seq (length (viewRefs s)) (length (viewRefs s') - length (viewRefs s));
  post_trace : trace s' = trace s ++ pass_trace (nodes_of s') sub;
  post_frame :
    frame (λ a, (data ∘ node) <$> hostViewNode = Some a) (λ _, False) (Some t) s s';
  post_compiled :
    ∀ r, length (viewRefs s) ≤ r < length (viewRefs s') →
         compiled_ok s' (length (viewNodes s)) (length (trees s)) r;
  post_host :
    ∀ hv, hostViewNode = Some hv →
          ∃ vn, viewNodes s !! data (node hv) = Some vn
                ∧ viewNodes s' !! data (node hv)
                  = Some (ViewNode.with_viewRef (Some (length (viewRefs s))) vn);
  post_ref :
    ∃ vr, viewRefs s' !! length (viewRefs s) = Some vr
          ∧ create (_componentFactory this) component host
            = inr (ViewRef.componentRef vr)
          ∧ ViewRef.renderHost vr
            = match viewRefTree with None => Some host | Some _ => None end;
  post_tree :
    match viewRefTree with
    | None =>
        parentViewRef = None ∧ t = S (length (trees s))
        ∧ trees s' !! t = Some (mkTree sub)
    | Some vt =>
        t = vt
        ∧ ∃ p T T', parentViewRef = Some p
                    ∧ trees s !! vt = Some (mkTree T)
                    ∧ graft p sub T = Some T'
                    ∧ trees s' !! vt = Some (mkTree T')
    end
}.

(** The state [s4] in which a call of [_compileViewRef] from [s] starts
    its traversal: the View Nodes [nodes] of the AST were allocated, the
    View Reference [vr] was created and has entered the tree [vt], and the
    hosting View Node holds it. *)
Record start_facts (component : option ComponentType) (host : Element)
    (viewRefTree parentViewRef : option addr) (hostViewNode : option (Visited addr))
    (ast : Tree TemplateASTNode.t) (nodes : list ViewNode.t)
    (s s4 : State) (vr : ViewRef.t) (vt : addr) (T0 : TreeNode addr)
    : Prop := mkStart {
  sf_create :
    create (_componentFactory this) component host = inr (ViewRef.componentRef vr);
  sf_nodes_ast :
    expected_nodes this (length (viewNodes s)) (tdata (root ast)) = inr nodes;
  sf_frame :
    frame (λ a, (data ∘ node) <$> hostViewNode = Some a) (λ _, False) (Some vt) s s4;
  sf_refs : viewRefs s4 = viewRefs s ++ [vr];
  sf_nodesTree : ViewRef.nodesTree vr = length (trees s);
  sf_renderHost :
    ViewRef.renderHost vr
    = match viewRefTree with None => Some host | Some _ => None end;
  sf_vt : vt ≠ length (trees s);
  sf_NT :
    trees s4 !! length (trees s)
    = Some (mkTree (relabel (length (viewNodes s)) (root ast)));
  sf_len : length (viewNodes s4) = length (viewNodes s) + length nodes;
  sf_nodes :
    ∀ i vn, nodes !! i = Some vn →
            viewNodes s4 !! (length (viewNodes s) + i) = Some vn;
  sf_host :
    ∀ hv, hostViewNode = Some hv →
          ∃ vn, viewNodes s !! data (node hv) = Some vn
                ∧ viewNodes s4 !! data (node hv)
                  = Some (ViewNode.with_viewRef (Some (length (viewRefs s))) vn);
  sf_T0 : trees s4 !! vt = Some (mkTree T0);
  sf_tree :
    match viewRefTree with
    | None =>
        parentViewRef = None ∧ vt = S (length (trees s))
        ∧ T0 = mkTreeNode (length (viewRefs s)) []
    | Some t =>
        vt = t
        ∧ ∃ p T, parentViewRef = Some p
                 ∧ trees s !! vt = Some (mkTree T)
                 ∧ graft p (mkTreeNode (length (viewRefs s)) []) T = Some T0
                 ∧ ∀ x, x ∈ tdata T → x < length (viewRefs s)
    end;
  sf_trace :
    trace s4
    = trace s ++ map EvNewViewNode (seq (length (viewNodes s)) (length nodes))
      ++ [EvNewViewRef (length (viewRefs s))]
}.

(** The specification of [_compileViewRef] at a given fuel: a call whose
    target tree, if any, holds existing View References only. *)
Definition compileViewRef_spec (fuel : nat) : Prop :=
  ∀ component host viewRefTree parentViewRef hostViewNode s t s',
    _compileViewRef this fuel component host viewRefTree parentViewRef hostViewNode s
    = Ret t s' →
    (∀ vt, viewRefTree = Some vt →
           ∃ T, trees s !! vt = Some (mkTree T)
                ∧ ∀ x, x ∈ tdata T → x < length (viewRefs s)) →
    (∀ hv, hostViewNode = Some hv → data (node hv) < length (viewNodes s)) →
    ∃ sub, compile_post component host viewRefTree parentViewRef hostViewNode
             s t s' sub.
End CompiledSpec.

Section Discovery.
Variable this : Compiler.

(** The callback of the child-discovery traversal in [_compileViewRef],
    for the View Reference [viewRef] being compiled into [viewRefTree]. *)
Definition discover (fuel : nat) (viewRefTree viewRef : addr)
    (viewNode : Visited addr) : M unit :=
  let* vn := deref viewNodes (data (node viewNode)) in
  if negb (isRoot viewNode) && truthy (ViewNode.componentSelector vn) then
    _compileViewRef this fuel
      (getBySelector (_componentsRegistry this)
         (default ""%string (ViewNode.componentSelector vn)))
      (ViewNode.element vn)
      (Some viewRefTree) (Some viewRef) (Some viewNode) ;;
    ret tt
  else ret tt.

(** The state of the traversal of the View Reference [r] after the
    children [cs] were compiled, from the state [s0] and the tree [T0] at
    its start. *)
Record loop_inv (r vt : addr) (m1 t1 : nat) (T0 : TreeNode addr) (s0 : State)
    (s : State) (cs : list (TreeNode addr)) : Prop := mkLoopInv {
  inv_tree :
    ∃ T, trees s !! vt = Some (mkTree T)
         ∧ graft_many r cs T0 = Some T
         ∧ r ∈ tdata T
         ∧ ∀ x, x ∈ tdata T → x < length (viewRefs s);
  inv_refs : fdata cs = seq (S r) (length (viewRefs s) - S r);
  inv_refs_len : S r ≤ length (viewRefs s);
  inv_trace : trace s = trace s0 ++ flat_map (pass_trace (nodes_of s)) cs;
  inv_compiled :
    ∀ r', r < r' < length (viewRefs s) → compiled_ok this s m1 t1 r';
  inv_nodes_len : m1 ≤ length (viewNodes s);
  inv_trees_len : t1 ≤ length (trees s)
}.
End Discovery.

(** ** Termination *)

(** [depth] bounds the nesting of components: it decreases from a component
    to every component that a placeholder of its template selects.  The
    component graph then has no cycle (invariant I3 of the design). *)
Definition nesting_bounded (this : Compiler) (depth : option ComponentType → nat)
    : Prop :=
  ∀ c host cref ast d,
    create (_componentFactory this) c host = inr cref →
    parse (_parser this) (ComponentRef.template cref) host = inr ast →
    d ∈ fdata (children (root ast)) →
    truthy (TemplateASTNode.componentSelector d) = true →
    depth (getBySelector (_componentsRegistry this)
             (default ""%string (TemplateASTNode.componentSelector d)))
    < depth c.

(** The calls of [_compileViewRef] at [fuel] on components nested less deep
    than [fuel] do not run out of it. *)
Definition terminates_at (this : Compiler) (depth : option ComponentType → nat)
    (fuel : nat) : Prop :=
  ∀ component host viewRefTree parentViewRef hostViewNode s,
    depth component < fuel →
    (∀ vt, viewRefTree = Some vt →
           ∃ T, trees s !! vt = Some (mkTree T)
                ∧ ∀ x, x ∈ tdata T → x < length (viewRefs s)) →
    (∀ hv, hostViewNode = Some hv → data (node hv) < length (viewNodes s)) →
    _compileViewRef this fuel component host viewRefTree parentViewRef hostViewNode s
    ≠ OutOfFuel.

(** [m] does not run out of fuel. *)
Definition total {A} (m : M A) : Prop := ∀ s, m s ≠ OutOfFuel.

(** [m'] does what [m] does, wherever [m] has fuel enough. *)
Definition refines {A} (m m' : M A) : Prop := ∀ s, m s ≠ OutOfFuel → m' s = m s.

(** ** A small application, for the examples

    Component [0], selector [app]: its template has a bound element that
    holds a placeholder for [child], and a plain element.  Component [1],
    selector [child]: one bound element.  Component [2], selector
    [broken]: a placeholder for [missing], which is not registered.  The
    root of every AST is the host element and carries the selector of its
    own component. *)
Module Demo.
Definition leaf (e : Element) (c : option Selector)
    (b : list TemplateASTBinding) : TreeNode TemplateASTNode.t :=
  mkTreeNode (TemplateASTNode.mk e c b None) [].

Definition app_ast (host : Element) : TreeNode TemplateASTNode.t :=
  mkTreeNode (TemplateASTNode.mk host (Some "app"%string) [] None)
    [ mkTreeNode (TemplateASTNode.mk 10 None ["title"%string] None)
        [ leaf 11 (Some "child"%string) [] ];
      leaf 12 None [] ].

Definition child_ast (host : Element) : TreeNode TemplateASTNode.t :=
  mkTreeNode (TemplateASTNode.mk host (Some "child"%string) [] None)
    [ leaf 20 None ["text"%string] ].

Definition broken_ast (host : Element) : TreeNode TemplateASTNode.t :=
  mkTreeNode (TemplateASTNode.mk host (Some "broken"%string) [] None)
    [ leaf 30 (Some "missing"%string) [] ].

Definition parser : Parser := {|
  parse tpl host :=
    if decide (tpl = "app-tpl"%string) then inr (mkTree (app_ast host))
    else if decide (tpl = "child-tpl"%string) then inr (mkTree (child_ast host))
    else if decide (tpl = "broken-tpl"%string) then inr (mkTree (broken_ast host))
    else inl TemplateSyntaxError
|}.

Definition registry : ComponentsRegistry := {|
  getBySelector sel :=
    if decide (sel = "app"%string) then Some 0
    else if decide (sel = "child"%string) then Some 1
    else if decide (sel = "broken"%string) then Some 2
    else None;
  getEntryComponent := Some 0
|}.

(** A registry without an entry component. *)
Definition empty_registry : ComponentsRegistry := {|
  getBySelector _ := None;
  getEntryComponent := None
|}.

(** Handed [undefined], this factory fails reading the metadata. *)
Definition factory : ComponentFactory := {|
  create c host :=
    match c with
    | Some 0 => inr (ComponentRef.mk 100 "app" "app-tpl" host)
    | Some 1 => inr (ComponentRef.mk 101 "child" "child-tpl" host)
    | Some 2 => inr (ComponentRef.mk 102 "broken" "broken-tpl" host)
    | _ => inl TypeError
    end
|}.

Definition builder : BindingBuilder := {|
  build raw a := inr (Binding.mk raw "textContent" a)
|}.

Definition compiler : Compiler :=
  mkCompiler 0 parser factory registry (Some builder).

(** The nesting depth of the components. *)
Definition depth (c : option ComponentType) : nat :=
  match c with
  | Some 0 | Some 2 => 1
  | _ => 0
  end.

Definition view : View := mkView 1 0 registry factory parser compiler.
End Demo.

(** ** Sequences of [getInstance] calls *)

Definition CompilerArgs : Type :=
  Parser * ComponentFactory * ComponentsRegistry * option BindingBuilder.

Definition Compiler_getInstance_with (args : CompilerArgs) : M Compiler :=
  let '(parser, componentFactory, componentsRegistry, bindingBuilder) := args in
  Compiler_getInstance parser componentFactory componentsRegistry bindingBuilder.

Definition ViewArgs : Type := RootInjector * ComponentsRegistry.

Definition View_getInstance_with
    (ComponentFactory_getInstance : RootInjector → nat → ComponentFactory)
    (Parser_getInstance : Document → Parser) (document : Document)
    (args : ViewArgs) : M View :=
  let '(rootInjector, componentsRegistry) := args in
  View_getInstance ComponentFactory_getInstance Parser_getInstance document
    rootInjector componentsRegistry.

(** The outcome of compiling and of bootstrapping the small application. *)
Definition outcome_state {A} (o : Outcome A) : State :=
  match o with
  | Ret _ s => s
  | Throw _ s => s
  | OutOfFuel => initial
  end.

Module DemoRun.
Definition compiled : State :=
  Eval vm_compute in outcome_state (compile Demo.compiler 3 (Some 0) 1 initial).

Definition bootstrapped : State :=
  Eval vm_compute in outcome_state (bootstrap 3 Demo.view 1 initial).

(** Compiling [broken], whose template refers to an unregistered
    selector. *)
Definition broken : State :=
  Eval vm_compute in outcome_state (compile Demo.compiler 3 (Some 2) 1 initial).

(** The outermost call of that compilation at the start of its traversal,
    and after the recursive call for the placeholder of [child]. *)
Definition entered : State :=
  Eval vm_compute in
    outcome_state
      ((let* nodesTree := _getViewNodes Demo.compiler (Demo.app_ast 1) None None in
        let* viewRef :=
          new_ViewRef (ComponentRef.mk 100 "app" "app-tpl" 1) nodesTree in
        let* viewRefTree := new_Tree viewRef in
        updateRenderHost viewRef 1) initial).

Definition child_compiled : State :=
  Eval vm_compute in
    outcome_state
      (_compileViewRef Demo.compiler 2 (Some 1) 11 (Some 1) (Some 0)
         (Some (mkVisited false (mkTreeNode 2 []))) entered).
End DemoRun.

(** ** Two properties of the design, as the design states them *)

(** C5 as stated: every View Node with a componentSelector, in the node
    tree of every View Reference of the compiled tree [t], has a viewRef. *)
Definition structural_completeness_as_claimed (s : State) (t : addr) : Prop :=
  ∀ T r vr NT a vn,
    trees s !! t = Some (mkTree T) → r ∈ tdata T →
    viewRefs s !! r = Some vr →
    trees s !! ViewRef.nodesTree vr = Some (mkTree NT) → a ∈ tdata NT →
    viewNodes s !! a = Some vn →
    is_Some (ViewNode.componentSelector vn) →
    is_Some (ViewNode.viewRef vn).

(** C1 as stated: when a View Node of the component's template carries a
    selector that the registry does not resolve, [compile] fails with an
    UnknownComponentError. *)
Definition unknown_component_as_claimed (this : Compiler) (fuel : nat)
    (component : option ComponentType) (host : Element) (s : State) : Prop :=
  ∀ cref ast d sel,
    create (_componentFactory this) component host = inr cref →
    parse (_parser this) (ComponentRef.template cref) host = inr ast →
    d ∈ fdata (children (root ast)) →
    TemplateASTNode.componentSelector d = Some sel →
    getBySelector (_componentsRegistry this) sel = None →
    ∃ s', compile this fuel component host s = Throw UnknownComponentError s'.

(** The errors [compile] can end with: those of the language runtime and
    of the tree, and whatever a collaborator fails with. *)
Definition compile_error (this : Compiler) (e : Error) : Prop :=
  e = TypeError ∨ e = StructuralError
  ∨ (∃ c h, create (_componentFactory this) c h = inl e)
  ∨ (∃ tpl h, parse (_parser this) tpl h = inl e)
  ∨ (∃ bindingBuilder raw a,
       _bindingBuilder this = Some bindingBuilder
       ∧ build bindingBuilder raw a = inl e).

(** [m] throws errors in [E] only. *)
Definition throws {A} (E : Error → Prop) (m : M A) : Prop :=
  ∀ s e s', m s = Throw e s' → E e.

(** ** Traces *)

(** The lifecycle calls of [bootstrap], as opposed to the steps of the
    compiler. *)
Definition is_lifecycle (e : Event) : bool :=
  match e with
  | EvInit _ | EvUpdate _ => true
  | _ => false
  end.

(** The events about the View References [rs]: their creation, that of
    their View Nodes, and the marking as compiled. *)
Definition event_of (nodes : addr → list addr) (rs : list addr) (e : Event) : Prop :=
  ∃ r, r ∈ rs
       ∧ (e = EvNewViewRef r ∨ e = EvSetCompiled r true
          ∨ ∃ a, a ∈ nodes r ∧ e = EvNewViewNode a).

(** The Binding Builder of [this] is there, and builds, for every raw
    binding of the Template AST [ast]. *)
Definition builds_all (this : Compiler) (ast : TreeNode TemplateASTNode.t) : Prop :=
  ∀ d raw, d ∈ tdata ast → raw ∈ TemplateASTNode.bindings d →
    ∃ bindingBuilder, _bindingBuilder this = Some bindingBuilder
      ∧ ∀ a, ∃ b, build bindingBuilder raw a = inr b.

(** [m] only appends to the trace, and only events in [P]. *)
Definition emits {A} (P : Event → Prop) (m : M A) : Prop :=
  ∀ s,
    match m s with
    | Ret _ s' | Throw _ s' => ∃ L, trace s' = trace s ++ L ∧ Forall P L
    | OutOfFuel => True
    end.

Definition log_all (l : list Event) (s : State) : State :=
  mkState (viewNodes s) (viewRefs s) (trees s) (trace s ++ l)
          (Compiler_instance s) (View_instance s) (View_viewRefTree s) (next_oid s).
(** ** Failures and their causes *)

(** The arguments of a call of [_compileViewRef] as the compiler itself
    makes them: a target tree comes with a parent that is in it, and holds
    existing View References only; the hosting View Node exists. *)
Definition call_ok (s : State) (viewRefTree parentViewRef : option addr)
    (hostViewNode : option (Visited addr)) : Prop :=
  match viewRefTree with
  | Some vt =>
      ∃ T p, trees s !! vt = Some (mkTree T)
             ∧ parentViewRef = Some p
             ∧ p ∈ tdata T
             ∧ ∀ x, x ∈ tdata T → x < length (viewRefs s)
  | None => parentViewRef = None
  end
  ∧ ∀ hv, hostViewNode = Some hv → data (node hv) < length (viewNodes s).

(** [fails this c host e]: compiling the component [c] on [host] meets a
    collaborator that fails with [e]: the factory, the parser, the Binding
    Builder (a missing one is a [TypeError]) on a binding of the template,
    or one of them while a component nested in the template is compiled. *)
Inductive fails (this : Compiler)
    : option ComponentType → Element → Error → Prop :=
  | fails_create c host e :
      create (_componentFactory this) c host = inl e →
      fails this c host e
  | fails_parse c host cref e :
      create (_componentFactory this) c host = inr cref →
      parse (_parser this) (ComponentRef.template cref) host = inl e →
      fails this c host e
  | fails_build c host cref ast d raw a e :
      create (_componentFactory this) c host = inr cref →
      parse (_parser this) (ComponentRef.template cref) host = inr ast →
      d ∈ tdata (root ast) →
      raw ∈ TemplateASTNode.bindings d →
      match _bindingBuilder this with
      | Some bindingBuilder => build bindingBuilder raw a = inl e
      | None => e = TypeError
      end →
      fails this c host e
  | fails_child c host cref ast d e :
      create (_componentFactory this) c host = inr cref →
      parse (_parser this) (ComponentRef.template cref) host = inr ast →
      d ∈ fdata (children (root ast)) →
      truthy (TemplateASTNode.componentSelector d) = true →
      fails this
        (getBySelector (_componentsRegistry this)
           (default ""%string (TemplateASTNode.componentSelector d)))
        (TemplateASTNode.element d) e →
      fails this c host e.

(** The View References that the placeholders of the View Reference [r]
    hold are marked compiled. *)
Definition children_compiled (s : State) (r : addr) : Prop :=
  ∀ vr NT v vn c,
    viewRefs s !! r = Some vr →
    trees s !! ViewRef.nodesTree vr = Some (mkTree NT) →
    v ∈ visitsDF (mkTree NT) →
    viewNodes s !! data (node v) = Some vn →
    ViewNode.viewRef vn = Some c →
    ∃ vc, viewRefs s !! c = Some vc ∧ ViewRef.compiled vc = true.

(** What a call of [_compileViewRef] that throws has done: it was failed
    by a collaborator; the objects that existed before it are as they
    were; the View Reference it created, if any, is not marked compiled;
    and the View References that are have been compiled to the end. *)
Definition compileViewRef_throw_spec (this : Compiler) (fuel : nat) : Prop :=
  ∀ component host viewRefTree parentViewRef hostViewNode s e s',
    _compileViewRef this fuel component host viewRefTree parentViewRef hostViewNode s
    = Throw e s' →
    call_ok s viewRefTree parentViewRef hostViewNode →
    fails this component host e
    ∧ frame (λ a, (data ∘ node) <$> hostViewNode = Some a) (λ _, False)
        viewRefTree s s'
    ∧ (∀ vr, viewRefs s' !! length (viewRefs s) = Some vr →
             ViewRef.compiled vr = false)
    ∧ (∀ r vr, length (viewRefs s) ≤ r →
               viewRefs s' !! r = Some vr →
               ViewRef.compiled vr = true →
               compiled_ok this s' (length (viewNodes s)) (length (trees s)) r
               ∧ children_compiled s' r).

(** From [s0] to [s] the View Nodes and the trees of [s0] were kept, and
    the View References are the same. *)
Definition nodes_only (s0 s : State) : Prop :=
  frame (λ _, False) (λ _, False) None s0 s ∧ viewRefs s = viewRefs s0.

(** From [s] to [s'] nothing that existed was changed: the stores only
    grew, and the singletons and the View's tree are the same. *)
Definition untouched (s s' : State) : Prop :=
  viewNodes s `prefix_of` viewNodes s'
  ∧ viewRefs s `prefix_of` viewRefs s'
  ∧ trees s `prefix_of` trees s'
  ∧ Compiler_instance s' = Compiler_instance s
  ∧ View_instance s' = View_instance s
  ∧ View_viewRefTree s' = View_viewRefTree s.

(** The View Nodes whose creation a trace records, in order. *)
Definition created_nodes (L : list Event) : list addr :=
  omap (λ ev, match ev with EvNewViewNode a => Some a | _ => None end) L.

(** From [s] to [s'] the trace grew by the creation of exactly the View
    Nodes that were added to the store, in the order of their addresses. *)
Definition records_nodes (s s' : State) : Prop :=
  length (viewNodes s) ≤ length (viewNodes s')
  ∧ ∃ L, trace s' = trace s ++ L
         ∧ created_nodes L
           = seq (length (viewNodes s)) (length (viewNodes s') - length (viewNodes s)).

(** [m] records the View Nodes it creates. *)
Definition recording {A} (m : M A) : Prop :=
  ∀ s,
    match m s with
    | Ret _ s' | Throw _ s' => records_nodes s s'
    | OutOfFuel => True
    end.

(** A Binding Builder that fails on some expressions, and a template with
    several bindings. *)
Module DemoBindings.
Definition builder : BindingBuilder := {|
  build raw a :=
    if decide (raw = "bad"%string) then inl DependencyResolutionError
    else if decide (raw = "worse"%string) then inl TemplateSyntaxError
    else inr (Binding.mk raw "textContent" a)
|}.

Definition compiler : Compiler :=
  mkCompiler 0 Demo.parser Demo.factory Demo.registry (Some builder).

Definition ast : TreeNode TemplateASTNode.t :=
  mkTreeNode (TemplateASTNode.mk 1 None ["a"%string] None)
    [ Demo.leaf 2 None ["b"%string; "bad"%string; "worse"%string];
      Demo.leaf 3 None ["worse"%string] ].
End DemoBindings.

(** The components in [C] nest for ever: the template of each of them is
    created, parsed and built without failure, and has placeholders, all
    of which select components in [C] again. *)
Definition nests_forever (this : Compiler) (C : option ComponentType → Prop)
    : Prop :=
  ∀ c host,
    C c →
    ∃ cref ast,
      create (_componentFactory this) c host = inr cref
      ∧ parse (_parser this) (ComponentRef.template cref) host = inr ast
      ∧ builds_all this (root ast)
      ∧ (∃ d, d ∈ fdata (children (root ast))
              ∧ truthy (TemplateASTNode.componentSelector d) = true)
      ∧ ∀ d, d ∈ fdata (children (root ast)) →
             truthy (TemplateASTNode.componentSelector d) = true →
             C (getBySelector (_componentsRegistry this)
                  (default ""%string (TemplateASTNode.componentSelector d))).

(** A component whose template holds a placeholder for itself, and a
    View whose entry component does not compile. *)
Module DemoLoop.
Definition ast (host : Element) : TreeNode TemplateASTNode.t :=
  mkTreeNode (TemplateASTNode.mk host (Some "loop"%string) [] None)
    [ Demo.leaf 40 None []; Demo.leaf 41 (Some "loop"%string) [] ].

Definition parser : Parser := {| parse tpl host := inr (mkTree (ast host)) |}.

Definition registry : ComponentsRegistry := {|
  getBySelector sel := if decide (sel = "loop"%string) then Some 7 else None;
  getEntryComponent := Some 7
|}.

Definition factory : ComponentFactory := {|
  create c host :=
    match c with
    | Some 7 => inr (ComponentRef.mk 107 "loop" "loop-tpl" host)
    | _ => inl TypeError
    end
|}.

Definition compiler : Compiler := mkCompiler 0 parser factory registry None.
End DemoLoop.

Module DemoBroken.
Definition registry : ComponentsRegistry := {|
  getBySelector := getBySelector Demo.registry;
  getEntryComponent := Some 2
|}.

Definition view : View :=
  mkView 1 0 registry Demo.factory Demo.parser Demo.compiler.
End DemoBroken.

(** A component with a placeholder for [child] and, after it, one for a
    selector that is not registered. *)
Module DemoPartial.
Definition ast (host : Element) : TreeNode TemplateASTNode.t :=
  mkTreeNode (TemplateASTNode.mk host (Some "partial"%string) [] None)
    [ Demo.leaf 50 (Some "child"%string) [];
      Demo.leaf 51 (Some "missing"%string) [] ].

Definition parser : Parser := {|
  parse tpl host :=
    if decide (tpl = "partial-tpl"%string) then inr (mkTree (ast host))
    else parse Demo.parser tpl host
|}.

Definition factory : ComponentFactory := {|
  create c host :=
    match c with
    | Some 3 => inr (ComponentRef.mk 103 "partial" "partial-tpl" host)
    | _ => create Demo.factory c host
    end
|}.

Definition compiler : Compiler :=
  mkCompiler 0 parser factory Demo.registry (Some Demo.builder).

Definition failed : State :=
  Eval vm_compute in outcome_state (compile compiler 3 (Some 3) 1 initial).
End DemoPartial.

(** ** The tree of View References and the nesting of components *)

(** Two View Nodes that differ in [viewRef] at most. *)
Definition same_but_viewRef (vn vn' : ViewNode.t) : Prop :=
  ViewNode.element vn' = ViewNode.element vn
  ∧ ViewNode.componentSelector vn' = ViewNode.componentSelector vn
  ∧ ViewNode.bindings vn' = ViewNode.bindings vn.

(** The placeholders among the visited View Nodes, in the order of the
    visits. *)
Definition placeholders_of (s : State) (vs : list (Visited addr))
    : list ViewNode.t :=
  omap (λ v, viewNodes s !! data (node v)
               ≫= λ vn, if is_placeholder v vn then Some vn else None) vs.

(** [compiled_as this s c host rh n]: the tree [n] of View References is
    the compilation of the component [c] on [host].  Its root was created
    by the factory from [c] and [host], is marked compiled and has the
    render host [rh]; the View Node tree of the root mirrors the AST that
    the parser made of the component's template; and the children of the
    root are, one for one and in document order, the View References that
    the placeholders of that View Node tree hold, each the compilation of
    the component that the registry returns for the selector of its
    placeholder, on the element of the placeholder, and without a render
    host. *)
Fixpoint compiled_as (this : Compiler) (s : State) (c : option ComponentType)
    (host : Element) (rh : option Element) (n : TreeNode addr) : Prop :=
  match n with
  | mkTreeNode r cs =>
      ∃ vr ast NT,
        viewRefs s !! r = Some vr
        ∧ ViewRef.compiled vr = true
        ∧ ViewRef.renderHost vr = rh
        ∧ create (_componentFactory this) c host = inr (ViewRef.componentRef vr)
        ∧ parse (_parser this) (ComponentRef.template (ViewRef.componentRef vr)) host
          = inr ast
        ∧ trees s !! ViewRef.nodesTree vr = Some (mkTree NT)
        ∧ mirrors this s (root ast) NT
        ∧ (fix children_as (cs : list (TreeNode addr)) (ps : list ViewNode.t)
               : Prop :=
             match cs, ps with
             | [], [] => True
             | sub :: cs', vn :: ps' =>
                 (ViewNode.viewRef vn = Some (data sub)
                  ∧ compiled_as this s
                      (getBySelector (_componentsRegistry this)
                         (default ""%string (ViewNode.componentSelector vn)))
                      (ViewNode.element vn) None sub)
                 ∧ children_as cs' ps'
             | _, _ => False
             end) cs (placeholders_of s (visitsDF (mkTree NT)))
  end.

(** A child of a View Reference and the placeholder that holds it. *)
Definition child_as (this : Compiler) (s : State) (sub : TreeNode addr)
    (vn : ViewNode.t) : Prop :=
  ViewNode.viewRef vn = Some (data sub)
  ∧ compiled_as this s
      (getBySelector (_componentsRegistry this)
         (default ""%string (ViewNode.componentSelector vn)))
      (ViewNode.element vn) None sub.

(** The subtree that a call of [_compileViewRef] adds is the compilation
    of its component. *)
Definition compileViewRef_nesting_spec (this : Compiler) (fuel : nat) : Prop :=
  ∀ component host viewRefTree parentViewRef hostViewNode s t s' sub,
    _compileViewRef this fuel component host viewRefTree parentViewRef hostViewNode s
    = Ret t s' →
    (∀ vt, viewRefTree = Some vt →
           ∃ T, trees s !! vt = Some (mkTree T)
                ∧ ∀ x, x ∈ tdata T → x < length (viewRefs s)) →
    (∀ hv, hostViewNode = Some hv → data (node hv) < length (viewNodes s)) →
    compile_post this component host viewRefTree parentViewRef hostViewNode
      s t s' sub →
    compiled_as this s' component host
      (match viewRefTree with None => Some host | Some _ => None end) sub.

(** ** The [compiled] flag, whatever the outcome of the compilation *)

(** A View Node of the View Reference [r] holds the View Reference [c]:
    [c] is a child that the compilation of [r] discovered. *)
Definition holds (s : State) (r c : addr) : Prop :=
  ∃ vr NT a vn,
    viewRefs s !! r = Some vr
    ∧ trees s !! ViewRef.nodesTree vr = Some (mkTree NT)
    ∧ a ∈ tdata NT
    ∧ viewNodes s !! a = Some vn
    ∧ ViewNode.viewRef vn = Some c.

(** [c] is a transitively discovered child of [r]. *)
Inductive below (s : State) : addr → addr → Prop :=
  | below_child r c : holds s r c → below s r c
  | below_trans r c d : holds s r c → below s c d → below s r d.

(** In the trace [L] the flag of the View Reference [r] is set exactly
    once, after the creation of [r] and of its View Nodes [ns], and after
    the creation and the marking of every View Reference in [C]. *)
Definition marked_once (L : list Event) (r : addr) (ns : list addr)
    (C : addr → Prop) : Prop :=
  ∃ L1 L2,
    L = L1 ++ EvSetCompiled r true :: L2
    ∧ (EvSetCompiled r true ∉ L1)
    ∧ (EvSetCompiled r true ∉ L2)
    ∧ EvNewViewRef r ∈ L1
    ∧ (∀ a, a ∈ ns → EvNewViewNode a ∈ L1)
    ∧ ∀ c, C c → EvNewViewRef c ∈ L1 ∧ EvSetCompiled c true ∈ L1.

(** C4 as stated, of a compilation pass from [s] to [s']: the flag is
    never written [false], and every View Reference created by the pass
    has its flag set exactly once, after its View Nodes and its
    transitively discovered children were created and these marked. *)
Definition every_flag_set_once (s s' : State) : Prop :=
  ∃ L, trace s' = trace s ++ L
       ∧ (∀ r, EvSetCompiled r false ∉ L)
       ∧ ∀ r, length (viewRefs s) ≤ r < length (viewRefs s') →
              marked_once L r (nodes_of s' r) (below s' r).

(** What a call of [_compileViewRef] that throws has written to the trace
    [L], from [s] to [s']: the only writes to a flag are of [true], to
    View References created after the one of the call; each such write
    belongs to the compilation of a component that was completed, whose
    trace is a segment of [L] and holds the only write to the flag of each
    of its View References; and every created View Reference that is
    marked compiled in [s'] has such a write. *)
Definition aborted (this : Compiler) (s s' : State) (L : list Event) : Prop :=
  (∀ r b, EvSetCompiled r b ∈ L →
          b = true ∧ length (viewRefs s) < r < length (viewRefs s'))
  ∧ (∀ r, EvSetCompiled r true ∈ L →
          ∃ m c h L1 L2,
            data m = r
            ∧ compiled_as this s' c h None m
            ∧ NoDup (tdata m)
            ∧ L = L1 ++ pass_trace (nodes_of s') m ++ L2
            ∧ ∀ x, x ∈ tdata m →
                length (viewRefs s) < x
                ∧ (EvSetCompiled x true ∉ L1) ∧ (EvSetCompiled x true ∉ L2))
  ∧ (∀ r vr, length (viewRefs s) ≤ r →
             viewRefs s' !! r = Some vr →
             ViewRef.compiled vr = true →
             EvSetCompiled r true ∈ L).

Definition compileViewRef_abort_spec (this : Compiler) (fuel : nat) : Prop :=
  ∀ component host viewRefTree parentViewRef hostViewNode s e s',
    _compileViewRef this fuel component host viewRefTree parentViewRef hostViewNode s
    = Throw e s' →
    call_ok s viewRefTree parentViewRef hostViewNode →
    ∃ L, trace s' = trace s ++ L ∧ aborted this s s' L.

(** * Properties *)

(** ** The monad *)

Lemma bind_Ret {A B} (m : M A) (k : A → M B) s a s' :
  m s = Ret a s' → bind m k s = k a s'.
Proof. unfold bind. by intros ->. Qed.

Lemma bind_Throw {A B} (m : M A) (k : A → M B) s e s' :
  m s = Throw e s' → bind m k s = Throw e s'.
Proof. unfold bind. by intros ->. Qed.

Lemma bind_Ret_inv {A B} (m : M A) (k : A → M B) s b s2 :
  bind m k s = Ret b s2 → ∃ a s1, m s = Ret a s1 ∧ k a s1 = Ret b s2.
Proof. unfold bind. destruct (m s) as [a s1| |]; [eauto|done..]. Qed.

Lemma deref_Some {A} (store : State → list A) a x s :
  store s !! a = Some x → deref store a s = Ret x s.
Proof. unfold deref. by intros ->. Qed.

Lemma deref_Ret_inv {A} (store : State → list A) a x s s' :
  deref store a s = Ret x s' → s' = s ∧ store s !! a = Some x.
Proof. unfold deref. destruct (store s !! a); naive_solver. Qed.

(** ** Trees *)

Lemma graft_node {A} `{EqDecision A} p sub (d : A) cs :
  graft p sub (mkTreeNode d cs)
  = if decide (d = p) then Some (mkTreeNode d (cs ++ [sub]))
    else mkTreeNode d <$> graft_first p sub cs.
Proof.
  simpl. case_decide; [done|]. f_equal.
  induction cs as [|c cs IH]; simpl; [done|]. by rewrite IH.
Qed.

Arguments graft : simpl never.

Section TreeFacts.
Context {A : Type}.

Lemma TreeNode_ind (P : TreeNode A → Prop) :
  (∀ d cs, Forall P cs → P (mkTreeNode d cs)) → ∀ n, P n.
Proof.
  intros step. fix IH 1. intros [d cs]. apply step.
  induction cs as [|c cs IHcs]; constructor; [apply IH|apply IHcs].
Qed.

Lemma tdata_node (d : A) cs : tdata (mkTreeNode d cs) = d :: fdata cs.
Proof. reflexivity. Qed.

Lemma fdata_cons (c : TreeNode A) cs : fdata (c :: cs) = tdata c ++ fdata cs.
Proof. unfold fdata, tdata. simpl. by rewrite map_app. Qed.

Lemma fdata_app (l1 l2 : list (TreeNode A)) : fdata (l1 ++ l2) = fdata l1 ++ fdata l2.
Proof. unfold fdata. by rewrite flat_map_app, map_app. Qed.

Lemma fdata_nil : fdata (@nil (TreeNode A)) = [].
Proof. reflexivity. Qed.

Lemma length_tdata (n : TreeNode A) : length (tdata n) = length (preorder n).
Proof. unfold tdata. by rewrite length_map. Qed.

Context `{EqDecision A}.

(** [graft] fails exactly when the parent is not in the tree. *)
Lemma graft_None p sub (n : TreeNode A) : p ∉ tdata n → graft p sub n = None.
Proof.
  induction n as [d cs IH] using TreeNode_ind. rewrite graft_node, tdata_node.
  intros Hp. case_decide as Hd; [subst; set_solver|].
  assert (p ∉ fdata cs) as Hcs by set_solver. clear Hp.
  enough (graft_first p sub cs = None) as -> by done.
  induction IH as [|c cs Hc _ IHcs]; [done|]. rewrite fdata_cons in Hcs. simpl.
  rewrite Hc by set_solver. rewrite IHcs by set_solver. done.
Qed.

Lemma graft_first_None p sub (l : list (TreeNode A)) :
  p ∉ fdata l → graft_first p sub l = None.
Proof.
  induction l as [|c l IH]; [done|]. rewrite fdata_cons. intros Hp. simpl.
  rewrite graft_None by set_solver. rewrite IH by set_solver. done.
Qed.

Lemma graft_is_Some p sub (n : TreeNode A) : p ∈ tdata n → is_Some (graft p sub n).
Proof.
  induction n as [d cs IH] using TreeNode_ind. rewrite graft_node, tdata_node.
  intros Hp. case_decide as Hd; [eauto|].
  assert (p ∈ fdata cs) as Hcs by set_solver. clear Hp.
  enough (is_Some (graft_first p sub cs)) as [l ->] by (simpl; eauto).
  induction IH as [|c cs Hc _ IHcs]; [by rewrite fdata_nil in Hcs; set_solver|].
  rewrite fdata_cons in Hcs. simpl.
  destruct (graft p sub c) as [c'|] eqn:Hg; [eauto|].
  destruct (decide (p ∈ tdata c)) as [Hin|Hin].
  { apply Hc in Hin as [? ?]. congruence. }
  destruct IHcs as [l ->]; [set_solver|]. simpl. eauto.
Qed.

(** The nodes of the result: those of the tree and those of the graft. *)
Lemma graft_elem_of p sub (n n' : TreeNode A) x :
  graft p sub n = Some n' → x ∈ tdata n' ↔ x ∈ tdata n ∨ x ∈ tdata sub.
Proof.
  revert n'. induction n as [d cs IH] using TreeNode_ind. intros n'.
  rewrite graft_node. case_decide as Hd.
  { intros [= <-]. rewrite !tdata_node, fdata_app.
    replace (fdata [sub]) with (tdata sub)
      by (unfold fdata, tdata; simpl; by rewrite app_nil_r).
    set_solver. }
  destruct (graft_first p sub cs) as [l|] eqn:Hl; [|done]. intros [= <-].
  rewrite !tdata_node.
  enough (x ∈ fdata l ↔ x ∈ fdata cs ∨ x ∈ tdata sub) by set_solver.
  clear Hd. revert l Hl. induction IH as [|c cs Hc _ IHcs]; intros l; [done|]. simpl.
  destruct (graft p sub c) as [c'|] eqn:Hg.
  - intros [= <-]. rewrite !fdata_cons. specialize (Hc _ eq_refl). set_solver.
  - destruct (graft_first p sub cs) as [l'|]; [|done]. intros [= <-].
    rewrite !fdata_cons. specialize (IHcs _ eq_refl). set_solver.
Qed.

(** A later [add] under a node that was itself added, and is found
    nowhere else, extends that node. *)
Lemma graft_graft (p a : A) cs sub (n n1 : TreeNode A) :
  a ∉ tdata n →
  graft p (mkTreeNode a cs) n = Some n1 →
  graft a sub n1 = graft p (mkTreeNode a (cs ++ [sub])) n.
Proof.
  revert n1. induction n as [d ds IH] using TreeNode_ind. intros n1.
  rewrite tdata_node, !graft_node. intros Ha. case_decide as Hd.
  - intros [= <-]. rewrite graft_node. case_decide; [set_solver|].
    assert (a ∉ fdata ds) as Hds by set_solver.
    enough (graft_first a sub (ds ++ [mkTreeNode a cs])
            = Some (ds ++ [mkTreeNode a (cs ++ [sub])])) as -> by done.
    clear -Hds. induction ds as [|c ds IHds]; simpl.
    + rewrite graft_node. by case_decide.
    + rewrite fdata_cons in Hds. rewrite graft_None by set_solver.
      rewrite IHds by set_solver. done.
  - destruct (graft_first p (mkTreeNode a cs) ds) as [l|] eqn:Hl; [|done].
    intros [= <-]. rewrite graft_node. case_decide; [set_solver|].
    assert (a ∉ fdata ds) as Hds by set_solver.
    enough (graft_first a sub l = graft_first p (mkTreeNode a (cs ++ [sub])) ds)
      as -> by done.
    clear Ha Hd. revert l Hl.
    induction IH as [|c ds Hc _ IHds]; intros l; [done|]. simpl.
    rewrite fdata_cons in Hds.
    destruct (graft p (mkTreeNode a cs) c) as [c'|] eqn:Hg.
    + intros [= <-]. simpl. rewrite (Hc c') by (done || set_solver).
      destruct (graft p (mkTreeNode a (cs ++ [sub])) c) as [c''|] eqn:Hg'; [done|].
      exfalso. destruct (decide (p ∈ tdata c)) as [Hin|Hin].
      * eapply graft_is_Some in Hin as [? Hin]. by rewrite Hg' in Hin.
      * by rewrite graft_None in Hg.
    + destruct (graft_first p (mkTreeNode a cs) ds) as [l'|] eqn:Hl'; [|done].
      intros [= <-]. simpl. rewrite (graft_None a) by set_solver.
      rewrite (IHds ltac:(set_solver) l' eq_refl).
      destruct (graft p (mkTreeNode a (cs ++ [sub])) c) as [c''|] eqn:Hg'; [|done].
      exfalso. destruct (decide (p ∈ tdata c)) as [Hin|Hin].
      * eapply graft_is_Some in Hin as [? Hin]. by rewrite Hg in Hin.
      * by rewrite graft_None in Hg'.
Qed.

Lemma graft_many_root (a : A) subs cs :
  graft_many a subs (mkTreeNode a cs) = Some (mkTreeNode a (cs ++ subs)).
Proof.
  revert cs. induction subs as [|sub subs IH]; intros cs; simpl.
  - by rewrite app_nil_r.
  - rewrite graft_node. case_decide; [|done]. rewrite IH.
    by rewrite <- app_assoc.
Qed.

Lemma graft_many_graft (p a : A) cs subs (n n1 : TreeNode A) :
  a ∉ tdata n →
  graft p (mkTreeNode a cs) n = Some n1 →
  graft_many a subs n1 = graft p (mkTreeNode a (cs ++ subs)) n.
Proof.
  revert cs n1. induction subs as [|sub subs IH]; intros cs n1 Ha Hg; simpl.
  - by rewrite app_nil_r.
  - erewrite graft_graft by done.
    destruct (graft p (mkTreeNode a (cs ++ [sub])) n) as [n2|] eqn:Hg2.
    + erewrite IH by done. by rewrite <- app_assoc.
    + exfalso. destruct (decide (p ∈ tdata n)) as [Hin|Hin].
      * eapply graft_is_Some in Hin as [? Hin]. by rewrite Hg2 in Hin.
      * by rewrite graft_None in Hg.
Qed.

Lemma graft_many_snoc p subs sub (n : TreeNode A) :
  graft_many p (subs ++ [sub]) n = graft_many p subs n ≫= graft p sub.
Proof.
  revert n. induction subs as [|x subs IH]; intros n; simpl.
  - by destruct (graft p sub n).
  - destruct (graft p x n); [apply IH|done].
Qed.
End TreeFacts.

(** ** Object stores *)

Lemma with_nodes_nil s : with_nodes [] (trees s) s = s.
Proof. destruct s. unfold with_nodes. simpl. by rewrite !app_nil_r. Qed.

Lemma with_nodes_with_nodes n1 t1 n2 t2 s :
  with_nodes n2 t2 (with_nodes n1 t1 s) = with_nodes (n1 ++ n2) t2 s.
Proof.
  unfold with_nodes. simpl. f_equal.
  - by rewrite app_assoc.
  - rewrite !length_app, seq_app, map_app. by rewrite app_assoc.
Qed.

Lemma set_trees_with_nodes f nodes ts s :
  set_trees f (with_nodes nodes ts s) = with_nodes nodes (f ts) s.
Proof. reflexivity. Qed.

Lemma Tree_add_Some t d p T T' s :
  trees s !! t = Some (mkTree T) →
  graft p (mkTreeNode d []) T = Some T' →
  Tree_add t d (Some p) s = Ret tt (set_trees (<[t := mkTree T']>) s).
Proof.
  intros Ht Hg. unfold Tree_add. erewrite bind_Ret by by apply deref_Some.
  simpl. by rewrite Hg.
Qed.

Lemma Tree_add_Ret_inv t d parent u s s' :
  Tree_add t d parent s = Ret u s' →
  ∃ p T T', parent = Some p ∧ trees s !! t = Some (mkTree T)
            ∧ graft p (mkTreeNode d []) T = Some T'
            ∧ s' = set_trees (<[t := mkTree T']>) s.
Proof.
  unfold Tree_add. intros (tree & s1 & [-> Ht]%deref_Ret_inv & H)%bind_Ret_inv.
  destruct parent as [p|]; [|done]. destruct tree as [T]. simpl in H.
  destruct (graft p (mkTreeNode d []) T) as [T'|] eqn:Hg; [|done].
  injection H as _ <-. by exists p, T, T'.
Qed.

Lemma update_ViewNode_Some a f vn s :
  viewNodes s !! a = Some vn →
  update_ViewNode a f s = Ret tt (set_viewNodes (alter f a) s).
Proof.
  intros Ha. unfold update_ViewNode. by erewrite bind_Ret by by apply deref_Some.
Qed.

Lemma update_ViewNode_Ret_inv a f u s s' :
  update_ViewNode a f s = Ret u s' →
  (∃ vn, viewNodes s !! a = Some vn) ∧ s' = set_viewNodes (alter f a) s.
Proof.
  unfold update_ViewNode. intros (? & s1 & [-> Ht]%deref_Ret_inv & H)%bind_Ret_inv.
  injection H as _ <-. eauto.
Qed.

Lemma alter_snoc {A} (f : A → A) (l : list A) x :
  alter f (length l) (l ++ [x]) = l ++ [f x].
Proof.
  replace (length l) with (length l + 0) by lia. by rewrite alter_app_r.
Qed.

(** ** [_buildViewNode] and [_getViewNodes] *)

Section GetViewNodes.
Variable this : Compiler.

Lemma build_all_mapM a raws s :
  mapM (λ astBinding,
          match _bindingBuilder this with
          | Some bindingBuilder => call (build bindingBuilder astBinding a)
          | None => throw TypeError
          end) raws s
  = match build_all this a raws with
    | inr bs => Ret bs s
    | inl e => Throw e s
    end.
Proof.
  induction raws as [|raw raws IH]; simpl; [done|].
  unfold bind at 1. destruct (_bindingBuilder this) as [bb|]; [|done].
  destruct (build bb raw a) as [e|b]; simpl; [done|].
  unfold bind. rewrite IH. by destruct (build_all this a raws).
Qed.

(** [_buildViewNode] allocates one View Node; it fails when, and as, the
    first binding that cannot be built. *)
Lemma buildViewNode_eq d s :
  _buildViewNode this d s
  = let a := length (viewNodes s) in
    match build_all this a (TemplateASTNode.bindings d) with
    | inr bs =>
        Ret a (with_nodes
                 [ViewNode.mk (TemplateASTNode.element d)
                    (TemplateASTNode.componentSelector d) bs None]
                 (trees s) s)
    | inl e =>
        Throw e (with_nodes
                   [ViewNode.mk (TemplateASTNode.element d)
                      (TemplateASTNode.componentSelector d) [] None]
                   (trees s) s)
    end.
Proof.
  unfold _buildViewNode. unfold bind at 1. unfold new_ViewNode.
  erewrite bind_Ret; last first.
  { eapply update_ViewNode_Some. simpl. apply list_lookup_middle. done. }
  unfold bind at 1. rewrite build_all_mapM. simpl.
  destruct (build_all this _ _) as [e|bs].
  - unfold with_nodes, set_viewNodes, log. simpl. by rewrite alter_snoc.
  - erewrite bind_Ret; last first.
    { eapply update_ViewNode_Some. simpl. rewrite alter_snoc.
      apply list_lookup_middle. done. }
    unfold ret, with_nodes, set_viewNodes, log. simpl. by rewrite !alter_snoc.
Qed.

Lemma expected_nodes_app a ds1 ds2 :
  expected_nodes this a (ds1 ++ ds2)
  = match expected_nodes this a ds1 with
    | inl e => inl e
    | inr n1 =>
        match expected_nodes this (a + length ds1) ds2 with
        | inl e => inl e
        | inr n2 => inr (n1 ++ n2)
        end
    end.
Proof.
  revert a. induction ds1 as [|d ds1 IH]; intros a; simpl.
  - rewrite Nat.add_0_r. by destruct (expected_nodes this a ds2).
  - destruct (build_all this a _); [done|]. rewrite IH.
    destruct (expected_nodes this (S a) ds1); [done|].
    replace (S a + length ds1) with (a + S (length ds1)) by lia.
    by destruct (expected_nodes this _ ds2).
Qed.

Lemma expected_nodes_length a ds nodes :
  expected_nodes this a ds = inr nodes → length nodes = length ds.
Proof.
  revert a nodes. induction ds as [|d ds IH]; intros a nodes; simpl.
  - by intros [= <-].
  - destruct (build_all this a _); [done|].
    destruct (expected_nodes this (S a) ds) eqn:He; [done|].
    intros [= <-]. simpl. f_equal. eauto.
Qed.
End GetViewNodes.

Lemma relabel_node {A} k (d : A) cs :
  relabel k (mkTreeNode d cs) = mkTreeNode k (relabel_from (S k) cs).
Proof.
  unfold relabel at 1. f_equal. fold (@relabel A). generalize (S k).
  induction cs as [|c cs IH]; intros n; simpl; [done|]. by rewrite IH.
Qed.

Lemma tdata_relabel {A} k (n : TreeNode A) :
  tdata (relabel k n) = seq k (length (preorder n)).
Proof.
  revert k. induction n as [d cs IH] using TreeNode_ind. intros k.
  rewrite relabel_node, tdata_node. simpl. f_equal.
  generalize (S k). clear k. induction IH as [|c cs Hc _ IHcs]; intros k; [done|].
  simpl. rewrite fdata_cons, length_app, seq_app. by rewrite Hc, IHcs.
Qed.

Lemma fdata_relabel_from {A} k (cs : list (TreeNode A)) :
  fdata (relabel_from k cs) = seq k (length (flat_map preorder cs)).
Proof.
  revert k. induction cs as [|c cs IH]; intros k; [done|].
  simpl. rewrite fdata_cons, length_app, seq_app. by rewrite tdata_relabel, IH.
Qed.

Section GetViewNodesSpec.
Variable this : Compiler.

Lemma getViewNodes_children cs :
  Forall (getViewNodes_under_spec this) cs →
  ∀ s vt a T,
    trees s !! vt = Some (mkTree T) →
    a ∈ tdata T →
    (∀ x, x ∈ tdata T → x < length (viewNodes s)) →
    match expected_nodes this (length (viewNodes s)) (fdata cs) with
    | inr nodes =>
        ∃ T', graft_many a (relabel_from (length (viewNodes s)) cs) T = Some T'
              ∧ forEach (λ c, _getViewNodes this c (Some a) (Some vt) ;; ret tt) cs s
                = Ret tt (with_nodes nodes (<[vt := mkTree T']> (trees s)) s)
    | inl e =>
        ∃ s', forEach (λ c, _getViewNodes this c (Some a) (Some vt) ;; ret tt) cs s
              = Throw e s'
    end.
Proof.
  induction 1 as [|c cs Hc _ IH]; intros s vt a T Ht Ha Hlt.
  - simpl. exists T. split; [done|]. unfold ret.
    rewrite list_insert_id by done. by rewrite with_nodes_nil.
  - rewrite fdata_cons, expected_nodes_app.
    specialize (Hc s vt a T Ht Ha Hlt). simpl.
    destruct (expected_nodes this (length (viewNodes s)) (tdata c))
      as [e|n1] eqn:He1.
    { destruct Hc as [s' Hc]. exists s'.
      erewrite bind_Throw; [done|]. by erewrite bind_Throw. }
    destruct Hc as (T1 & Hg1 & Hc).
    apply expected_nodes_length in He1 as Hlen1. rewrite length_tdata in Hlen1.
    set (s1 := with_nodes n1 (<[vt:=mkTree T1]> (trees s)) s) in *.
    assert (vt < length (trees s)) as Hvt by by eapply lookup_lt_Some.
    specialize (IH s1 vt a T1).
    assert (length (viewNodes s1) = length (viewNodes s) + length (preorder c))
      as Hlen by (simpl; rewrite length_app; lia).
    rewrite Hlen in IH. rewrite length_tdata. simpl. rewrite Hg1.
    assert (trees s1 !! vt = Some (mkTree T1)) as H1
      by (simpl; by apply list_lookup_insert_eq).
    assert (a ∈ tdata T1) as H2 by (eapply graft_elem_of; eauto).
    assert (∀ x, x ∈ tdata T1 → x < length (viewNodes s) + length (preorder c))
      as H3.
    { intros x [Hx|Hx]%(graft_elem_of _ _ _ _ _ Hg1).
      - apply Hlt in Hx. lia.
      - rewrite tdata_relabel in Hx. apply elem_of_seq in Hx. lia. }
    specialize (IH H1 H2 H3).
    destruct (expected_nodes this _ (fdata cs)) as [e|n2].
    + destruct IH as [s' IH]. exists s'.
      erewrite bind_Ret; [exact IH|]. by erewrite bind_Ret.
    + destruct IH as (T2 & Hg2 & IH). exists T2. split; [done|].
      erewrite bind_Ret; last by erewrite bind_Ret.
      rewrite IH. unfold s1. rewrite with_nodes_with_nodes. simpl.
      by rewrite list_insert_insert_eq.
Qed.

Lemma getViewNodes_under ast : getViewNodes_under_spec this ast.
Proof.
  induction ast as [d cs IH] using TreeNode_ind. intros s vt p T Ht Hp Hlt.
  rewrite tdata_node. cbn [expected_nodes _getViewNodes].
  pose proof (buildViewNode_eq this d s) as Hb. cbv zeta in Hb.
  destruct (build_all this _ _) as [e|bs].
  { eexists. by erewrite bind_Throw. }
  erewrite bind_Ret by exact Hb. clear Hb.
  set (vn := ViewNode.mk _ _ bs None).
  set (a := length (viewNodes s)) in *.
  set (s1 := with_nodes [vn] (trees s) s).
  destruct (graft_is_Some p (mkTreeNode a []) T Hp) as [T1 Hg1].
  assert (a ∉ tdata T) as Ha by (intros ?%Hlt; lia).
  assert (vt < length (trees s)) as Hvt by by eapply lookup_lt_Some.
  pose proof (getViewNodes_children cs IH
    (set_trees (<[vt:=mkTree T1]>) s1) vt a T1) as Hcs.
  assert (length (viewNodes (set_trees (<[vt:=mkTree T1]>) s1)) = S a) as Hlen
    by (simpl; rewrite length_app; simpl; lia).
  rewrite Hlen in Hcs.
  assert (trees (set_trees (<[vt:=mkTree T1]>) s1) !! vt = Some (mkTree T1)) as H1
    by (simpl; by apply list_lookup_insert_eq).
  assert (a ∈ tdata T1) as H2.
  { eapply graft_elem_of; eauto. right. rewrite tdata_node. set_solver. }
  assert (∀ x, x ∈ tdata T1 → x < S a) as H3.
  { intros x [Hx|Hx]%(graft_elem_of _ _ _ _ _ Hg1).
    - apply Hlt in Hx. unfold a. lia.
    - rewrite tdata_node, fdata_nil in Hx. set_solver by lia. }
  specialize (Hcs H1 H2 H3).
  destruct (expected_nodes this (S a) (fdata cs)) as [e|ns].
  - destruct Hcs as [s' Hcs]. exists s'.
    erewrite bind_Ret; last first.
    { erewrite bind_Ret; [done|]. by eapply Tree_add_Some. }
    by erewrite bind_Throw.
  - destruct Hcs as (T' & Hg & Hcs). exists T'. split.
    { rewrite relabel_node.
      by rewrite <- (graft_many_graft p a [] (relabel_from (S a) cs) T T1). }
    erewrite bind_Ret; last first.
    { erewrite bind_Ret; [done|]. by eapply Tree_add_Some. }
    erewrite bind_Ret by done. unfold ret, s1. f_equal.
    rewrite !set_trees_with_nodes, with_nodes_with_nodes. simpl.
    by rewrite list_insert_insert_eq.
Qed.

(** The outermost call: a new tree, the relabelled AST. *)
Lemma getViewNodes_top ast s :
  match expected_nodes this (length (viewNodes s)) (tdata ast) with
  | inr nodes =>
      _getViewNodes this ast None None s
      = Ret (length (trees s))
            (with_nodes nodes
               (trees s ++ [mkTree (relabel (length (viewNodes s)) ast)]) s)
  | inl e => ∃ s', _getViewNodes this ast None None s = Throw e s'
  end.
Proof.
  destruct ast as [d cs]. rewrite tdata_node. cbn [expected_nodes _getViewNodes].
  pose proof (buildViewNode_eq this d s) as Hb. cbv zeta in Hb.
  destruct (build_all this _ _) as [e|bs].
  { eexists. by erewrite bind_Throw. }
  erewrite bind_Ret by exact Hb. clear Hb.
  set (vn := ViewNode.mk _ _ bs None).
  set (a := length (viewNodes s)) in *.
  set (s1 := with_nodes [vn] (trees s) s).
  set (vt := length (trees s)).
  pose proof (getViewNodes_children cs
    ltac:(apply Forall_forall; intros; apply getViewNodes_under)
    (set_trees (.++ [mkTree (mkTreeNode a [])]) s1) vt a (mkTreeNode a [])) as Hcs.
  assert (length (viewNodes (set_trees (.++ [mkTree (mkTreeNode a [])]) s1)) = S a)
    as Hlen by (simpl; rewrite length_app; simpl; lia).
  rewrite Hlen in Hcs.
  assert (trees (set_trees (.++ [mkTree (mkTreeNode a [])]) s1) !! vt
          = Some (mkTree (mkTreeNode a []))) as H1
    by (simpl; by apply list_lookup_middle).
  assert (a ∈ tdata (mkTreeNode a [])) as H2 by (rewrite tdata_node; set_solver).
  assert (∀ x, x ∈ tdata (mkTreeNode a []) → x < S a) as H3.
  { intros x Hx. rewrite tdata_node, fdata_nil in Hx. set_solver by lia. }
  specialize (Hcs H1 H2 H3).
  destruct (expected_nodes this (S a) (fdata cs)) as [e|ns].
  - destruct Hcs as [s' Hcs]. exists s'.
    erewrite bind_Ret by done. by erewrite bind_Throw.
  - destruct Hcs as (T' & Hg & Hcs).
    rewrite graft_many_root in Hg. injection Hg as <-.
    erewrite bind_Ret by done. erewrite bind_Ret by done.
    unfold ret, s1. f_equal.
    rewrite !set_trees_with_nodes, with_nodes_with_nodes. simpl.
    rewrite relabel_node. unfold vt.
    replace (length (trees s)) with (length (trees s) + 0) at 1 by lia.
    by rewrite insert_app_r.
Qed.
End GetViewNodesSpec.

(** ** Frames *)

Lemma frame_refl P Q vt s : frame P Q vt s s.
Proof. by constructor. Qed.

Lemma frame_trans P Q vt s1 s2 s3 :
  frame P Q vt s1 s2 → frame P Q vt s2 s3 → frame P Q vt s1 s3.
Proof.
  intros [] []. constructor; try lia; try congruence.
  - intros a Ha HP. rewrite frame_nodes1 by (lia || done). auto.
  - intros r Hr HQ. rewrite frame_refs1 by (lia || done). auto.
  - intros t Ht Hvt. rewrite frame_trees1 by (lia || done). auto.
Qed.

Lemma frame_compose P Q P' Q' vt s1 s2 s3 :
  frame P Q vt s1 s2 → frame P' Q' vt s2 s3 →
  (∀ a, P' a → a < length (viewNodes s1) → P a) →
  (∀ r, Q' r → r < length (viewRefs s1) → Q r) →
  frame P Q vt s1 s3.
Proof.
  intros [] [] HP HQ. constructor; try lia; try congruence.
  - intros a Ha HPa. rewrite frame_nodes1 by (lia || naive_solver). auto.
  - intros r Hr HQr. rewrite frame_refs1 by (lia || naive_solver). auto.
  - intros t Ht Hvt. rewrite frame_trees1 by (lia || done). auto.
Qed.

Lemma frame_weaken P Q vt P' Q' vt' s s' :
  frame P Q vt s s' →
  (∀ a, P a → P' a) → (∀ r, Q r → Q' r) → (∀ t, vt = Some t → vt' = Some t) →
  frame P' Q' vt' s s'.
Proof.
  intros [] HP HQ Hvt. constructor; try done.
  - intros a Ha HP'. apply frame_nodes0; naive_solver.
  - intros r Hr HQ'. apply frame_refs0; naive_solver.
  - intros t Ht Hvt'. apply frame_trees0; naive_solver.
Qed.

Lemma frame_with_nodes nodes ts s :
  frame (λ _, False) (λ _, False) None s (with_nodes nodes (trees s ++ ts) s).
Proof.
  constructor; simpl; try done.
  - rewrite length_app. lia.
  - intros a Ha _. by rewrite lookup_app_l.
  - rewrite length_app. lia.
  - intros t Ht _. by rewrite lookup_app_l.
Qed.

Lemma frame_set_viewNodes_alter f a s :
  frame (λ x, x = a) (λ _, False) None s (set_viewNodes (alter f a) s).
Proof.
  constructor; simpl; try done.
  - by rewrite length_alter.
  - intros x _ Hx. by rewrite list_lookup_alter_ne.
Qed.

Lemma frame_set_viewRefs_alter f r s :
  frame (λ _, False) (λ x, x = r) None s (set_viewRefs (alter f r) s).
Proof.
  constructor; simpl; try done.
  - by rewrite length_alter.
  - intros x _ Hx. by rewrite list_lookup_alter_ne.
Qed.

Lemma frame_set_viewRefs_snoc x s :
  frame (λ _, False) (λ _, False) None s (set_viewRefs (.++ [x]) s).
Proof.
  constructor; simpl; try done.
  - rewrite length_app. lia.
  - intros r Hr _. by rewrite lookup_app_l.
Qed.

Lemma frame_set_trees_snoc x s :
  frame (λ _, False) (λ _, False) None s (set_trees (.++ [x]) s).
Proof.
  constructor; simpl; try done.
  - rewrite length_app. lia.
  - intros r Hr _. by rewrite lookup_app_l.
Qed.

Lemma frame_set_trees_insert t x s :
  frame (λ _, False) (λ _, False) (Some t) s (set_trees (<[t:=x]>) s).
Proof.
  constructor; simpl; try done.
  - by rewrite length_insert.
  - intros t' _ Hx. rewrite list_lookup_insert_ne; [done|]. by intros ->.
Qed.

Lemma frame_log e s : frame (λ _, False) (λ _, False) None s (log e s).
Proof. by constructor. Qed.

Lemma visitsDF_data {A} (t : Tree A) :
  map (data ∘ node) (visitsDF t) = tdata (root t).
Proof.
  destruct t as [[d cs]]. unfold visitsDF, tdata. simpl. f_equal.
  by rewrite map_map.
Qed.

Lemma elem_of_visitsDF_data {A} (t : Tree A) v :
  v ∈ visitsDF t → data (node v) ∈ tdata (root t).
Proof.
  intros Hv. rewrite <- visitsDF_data.
  apply (list_elem_of_fmap_2 (data ∘ node)) in Hv. exact Hv.
Qed.

(** ** Stability of the facts about compiled View References *)

Section Stability.
Variable this : Compiler.

Lemma visit_ok_frame P Q vt s s' r v :
  frame P Q vt s s' →
  visit_ok this s r v →
  ¬ P (data (node v)) → (∀ c, r < c → ¬ Q c) →
  visit_ok this s' r v.
Proof.
  intros Hf (vn & Hvn & Hv) HP HQ. exists vn. split.
  - rewrite (frame_nodes _ _ _ _ _ Hf); [done| |done]. by eapply lookup_lt_Some.
  - destruct (is_placeholder v vn); [|done].
    destruct Hv as (c & vc & ? & ? & Hc & ?). exists c, vc. split_and!; try done.
    rewrite (frame_refs _ _ _ _ _ Hf); [done| |by apply HQ].
    by eapply lookup_lt_Some.
Qed.

Lemma compiled_ok_frame P Q vt s s' lo_n lo_t r :
  frame P Q vt s s' →
  compiled_ok this s lo_n lo_t r →
  (∀ a, P a → a < lo_n) → (∀ c, r ≤ c → ¬ Q c) → (∀ t, vt = Some t → t < lo_t) →
  compiled_ok this s' lo_n lo_t r.
Proof.
  intros Hf (vr & T & Hr & Hc & Hlo & HT & Hnd & Hge & Hv) HP HQ Hvt.
  exists vr, T. split_and!; try done.
  - rewrite (frame_refs _ _ _ _ _ Hf); [done| |by apply HQ].
    by eapply lookup_lt_Some.
  - rewrite (frame_trees _ _ _ _ _ Hf); [done|by eapply lookup_lt_Some|].
    intros Heq. apply Hvt in Heq. lia.
  - rewrite Forall_forall in Hv |- *. intros v Hin.
    eapply visit_ok_frame; [done|by apply Hv| |].
    + intros ?%HP. apply elem_of_visitsDF_data, Hge in Hin. simpl in *. lia.
    + intros c ?. apply HQ. lia.
Qed.
End Stability.

Lemma forEach_cons_inv {A} (f : A → M unit) x l s s' :
  forEach f (x :: l) s = Ret tt s' →
  ∃ s1, f x s = Ret tt s1 ∧ forEach f l s1 = Ret tt s'.
Proof. simpl. intros ([] & s1 & ? & ?)%bind_Ret_inv. eauto. Qed.

Lemma pass_trace_ext f g (n : TreeNode addr) :
  (∀ r, r ∈ tdata n → f r = g r) → pass_trace f n = pass_trace g n.
Proof.
  induction n as [r cs IH] using TreeNode_ind. rewrite tdata_node. intros Hfg.
  simpl. rewrite (Hfg r) by set_solver. do 3 f_equal.
  assert (∀ x, x ∈ fdata cs → f x = g x) as Hcs by (intros; apply Hfg; set_solver).
  clear Hfg. induction IH as [|c cs Hc _ IHcs]; [done|]. simpl.
  rewrite fdata_cons in Hcs. rewrite Hc, IHcs; [done|set_solver..].
Qed.

Lemma flat_map_pass_trace_ext f g (cs : list (TreeNode addr)) :
  (∀ r, r ∈ fdata cs → f r = g r) →
  flat_map (pass_trace f) cs = flat_map (pass_trace g) cs.
Proof.
  induction cs as [|c cs IH]; [done|]. rewrite fdata_cons. intros Hfg. simpl.
  rewrite (pass_trace_ext f g c), IH; [done|set_solver..].
Qed.

Section CompiledFacts.
Variable this : Compiler.

Lemma compiled_ok_weaken s lo_n lo_t lo_n' lo_t' r :
  compiled_ok this s lo_n lo_t r → lo_n' ≤ lo_n → lo_t' ≤ lo_t →
  compiled_ok this s lo_n' lo_t' r.
Proof.
  intros (vr & T & ? & ? & ? & ? & ? & Hge & ?) ? ?. exists vr, T.
  split_and!; try done; [lia|]. intros a ?%Hge. lia.
Qed.

Lemma nodes_of_frame P Q vt s s' lo_n lo_t r :
  frame P Q vt s s' →
  compiled_ok this s lo_n lo_t r →
  ¬ Q r → (∀ t, vt = Some t → t < lo_t) →
  nodes_of s' r = nodes_of s r.
Proof.
  intros Hf (vr & T & Hr & _ & Hlo & HT & _) HQ Hvt. unfold nodes_of.
  rewrite (frame_refs _ _ _ _ _ Hf); [|by eapply lookup_lt_Some|done].
  rewrite Hr. simpl. rewrite (frame_trees _ _ _ _ _ Hf); [done|by eapply lookup_lt_Some|].
  intros Heq. apply Hvt in Heq. lia.
Qed.
End CompiledFacts.

(** ** The child-discovery traversal *)

Section Loop.
Variable this : Compiler.
Variable fuel : nat.
Hypothesis IH : compileViewRef_spec this fuel.
Variables (r vt : addr) (m1 t1 : nat) (T0 : TreeNode addr) (s0 : State).
Hypothesis Hvt : vt < t1.

Lemma discover_loop vs :
  ∀ s cs s_end,
    loop_inv this r vt m1 t1 T0 s0 s cs →
    NoDup (map (data ∘ node) vs) →
    (∀ v, v ∈ vs →
          data (node v) < m1
          ∧ ∃ vn, viewNodes s !! data (node v) = Some vn
                  ∧ ViewNode.viewRef vn = None) →
    forEach (discover this fuel vt r) vs s = Ret tt s_end →
    ∃ cs', loop_inv this r vt m1 t1 T0 s0 s_end (cs ++ cs')
           ∧ Forall (visit_ok this s_end r) vs
           ∧ frame (λ a, a ∈ map (data ∘ node) vs) (λ _, False) (Some vt) s s_end.
Proof.
  induction vs as [|v vs IHvs]; intros s cs s_end Hinv Hnd Hvs Hrun.
  { injection Hrun as <-. exists []. rewrite app_nil_r.
    split_and!; [done|constructor|apply frame_refl]. }
  apply forEach_cons_inv in Hrun as (s1 & Hv & Hrun).
  apply NoDup_cons in Hnd as [Hv_notin Hnd].
  destruct (Hvs v ltac:(set_solver)) as (Hv_lt & vn & Hvn & Hvn_ref).
  unfold discover in Hv. erewrite bind_Ret in Hv by by apply deref_Some.
  fold (is_placeholder v vn) in Hv.
  destruct (is_placeholder v vn) eqn:Hph.
  - (* a placeholder: the child is compiled *)
    apply bind_Ret_inv in Hv as (t & s1' & Hcall & [= ->]).
    destruct Hinv as [(T & HT & HT0 & HrT & HT_lt) Hrefs Hrefs_len Htrace Hcomp Hn Ht].
    apply IH in Hcall as [sub Hpost].
    { intros vt' [= <-]. eauto. }
    { intros ? [= <-]. by eapply lookup_lt_Some. }
    destruct Hpost as [Hroot Hsub Hsub_trace Hframe Hsub_comp Hhost Href Htree].
    destruct Htree as (-> & p & T_ & T' & [= <-] & HT_ & Hg & HT').
    assert (T_ = T) as -> by congruence. clear HT_.
    pose proof (frame_refs_len _ _ _ _ _ Hframe) as Hlen_refs.
    assert (loop_inv this r vt m1 t1 T0 s0 s1 (cs ++ [sub])) as Hinv1.
    { constructor.
      - exists T'. split_and!; [done| | |].
        + by rewrite graft_many_snoc, HT0.
        + eapply graft_elem_of; eauto.
        + intros x [Hx|Hx]%(graft_elem_of _ _ _ _ _ Hg).
          * apply HT_lt in Hx. lia.
          * rewrite Hsub in Hx. apply elem_of_seq in Hx. lia.
      - rewrite fdata_app, Hrefs.
        replace (fdata [sub]) with (tdata sub)
          by (unfold fdata, tdata; simpl; by rewrite app_nil_r).
        rewrite Hsub.
        replace (length (viewRefs s1) - S r)
          with ((length (viewRefs s) - S r)
                + (length (viewRefs s1) - length (viewRefs s))) by lia.
        rewrite seq_app. do 2 f_equal. lia.
      - lia.
      - rewrite Hsub_trace, Htrace, flat_map_app. simpl.
        rewrite app_nil_r, <- app_assoc. do 2 f_equal.
        apply flat_map_pass_trace_ext. intros r' Hr'. symmetry.
        rewrite Hrefs in Hr'. apply elem_of_seq in Hr'.
        eapply nodes_of_frame; [exact Hframe|apply Hcomp; lia|tauto|].
        intros ? [= <-]. done.
      - intros r' Hr'. destruct (decide (r' < length (viewRefs s))).
        + eapply compiled_ok_frame; [exact Hframe|apply Hcomp; lia| |tauto|].
          * simpl. intros a [= <-]. done.
          * intros ? [= <-]. done.
        + eapply compiled_ok_weaken; [apply Hsub_comp; lia|done..].
      - pose proof (frame_nodes_len _ _ _ _ _ Hframe). lia.
      - pose proof (frame_trees_len _ _ _ _ _ Hframe). lia. }
    assert (visit_ok this s1 r v) as Hv_ok.
    { destruct (Hhost v eq_refl) as (vn' & Hvn' & Hvn1).
      assert (vn' = vn) as -> by congruence.
      eexists. split; [exact Hvn1|].
      unfold is_placeholder in *. simpl. rewrite Hph.
      destruct Href as (vr & Hvr & Hcreate & _).
      exists (length (viewRefs s)), vr. split_and!; [done|lia|done|done]. }
    destruct (IHvs s1 (cs ++ [sub]) s_end Hinv1 Hnd) as (cs' & Hinv' & Hvs' & Hframe');
      [|done|].
    { intros v' Hv'. destruct (Hvs v' ltac:(set_solver)) as (? & vn' & Hvn' & ?).
      split; [done|]. exists vn'. split; [|done].
      rewrite (frame_nodes _ _ _ _ _ Hframe); [done|by eapply lookup_lt_Some|].
      simpl. intros [= Heq]. apply Hv_notin.
      replace ((data ∘ node) v) with ((data ∘ node) v') by (simpl; congruence).
      by apply (list_elem_of_fmap_2 (data ∘ node)). }
    exists (sub :: cs'). rewrite <- app_assoc in Hinv'. split_and!; [done| |].
    + constructor; [|done].
      eapply visit_ok_frame; [exact Hframe'|done|done|tauto].
    + eapply frame_trans.
      * eapply frame_weaken; [exact Hframe| |done|done].
        simpl. intros a [= <-]. set_solver.
      * eapply frame_weaken; [exact Hframe'| |done|done].
        simpl. set_solver.
  - (* not a placeholder: nothing happens *)
    injection Hv as <-.
    destruct (IHvs s cs s_end Hinv Hnd) as (cs' & Hinv' & Hvs' & Hframe');
      [|done|].
    { intros v' Hv'. apply Hvs. set_solver. }
    exists cs'. split_and!; [done| |].
    + constructor; [|done].
      eapply visit_ok_frame; [exact Hframe'| |done|tauto].
      exists vn. split; [done|]. by rewrite Hph.
    + eapply frame_weaken; [exact Hframe'| |done|done]. simpl. set_solver.
Qed.
End Loop.

(** ** One call of [_compileViewRef], from the start of its traversal *)

Section Core.
Variable this : Compiler.
Variable fuel : nat.
Hypothesis IH : compileViewRef_spec this fuel.

Lemma compile_core (P : addr → Prop) s s4 s5 vr NT vt T0 k :
  let r := length (viewRefs s) in
  let m0 := length (viewNodes s) in
  let nt := ViewRef.nodesTree vr in
  let s6 := log (EvSetCompiled r true)
              (set_viewRefs (alter (ViewRef.with_compiled true) r) s5) in
  frame P (λ _, False) (Some vt) s s4 →
  viewRefs s4 = viewRefs s ++ [vr] →
  length (trees s) ≤ nt → nt ≠ vt →
  trees s4 !! nt = Some (mkTree NT) →
  tdata NT = seq m0 k →
  length (viewNodes s4) = m0 + k →
  (∀ a, m0 ≤ a < m0 + k →
        ∃ vn, viewNodes s4 !! a = Some vn ∧ ViewNode.viewRef vn = None) →
  trees s4 !! vt = Some (mkTree T0) →
  r ∈ tdata T0 →
  (∀ x, x ∈ tdata T0 → x ≤ r) →
  trace s4 = trace s ++ map EvNewViewNode (seq m0 k) ++ [EvNewViewRef r] →
  forEach (discover this fuel vt r) (visitsDF (mkTree NT)) s4 = Ret tt s5 →
  ∃ cs T,
    graft_many r cs T0 = Some T
    ∧ trees s6 !! vt = Some (mkTree T)
    ∧ tdata (mkTreeNode r cs) = seq r (length (viewRefs s6) - r)
    ∧ trace s6 = trace s ++ pass_trace (nodes_of s6) (mkTreeNode r cs)
    ∧ frame P (λ _, False) (Some vt) s s6
    ∧ (∀ r', r ≤ r' < length (viewRefs s6) →
             compiled_ok this s6 m0 (length (trees s)) r')
    ∧ viewRefs s6 !! r = Some (ViewRef.with_compiled true vr)
    ∧ (∀ a, a < m0 → viewNodes s6 !! a = viewNodes s4 !! a).
Proof.
  intros r m0 nt s6 Hframe4 Hrefs4 Hnt_lo Hnt_vt HNT HNT_data Hlen4 Hfresh HT0
    HrT0 HT0_le Htrace4 Hrun.
  assert (length (viewRefs s4) = S r) as Hlen_refs4
    by (rewrite Hrefs4, length_app; simpl; lia).
  assert (vt < length (trees s4)) as Hvt by by eapply lookup_lt_Some.
  assert (nt < length (trees s4)) as Hnt by by eapply lookup_lt_Some.
  assert (viewRefs s4 !! r = Some vr) as Hvr4
    by (rewrite Hrefs4; by apply list_lookup_middle).
  pose proof (frame_trees_len _ _ _ _ _ Hframe4) as Htrees_len4.
  destruct (discover_loop this fuel IH r vt (m0 + k) (length (trees s4)) T0 s4 Hvt
              (visitsDF (mkTree NT)) s4 [] s5) as (cs & Hinv & Hvisits & Hframe5).
  { constructor; try done; try lia.
    - exists T0. split_and!; try done. intros x ?%HT0_le. lia.
    - rewrite Hlen_refs4, Nat.sub_diag. done.
    - simpl. by rewrite app_nil_r. }
  { rewrite visitsDF_data. simpl. rewrite HNT_data. apply NoDup_seq. }
  { intros v Hv%elem_of_visitsDF_data. simpl in Hv. rewrite HNT_data in Hv.
    apply elem_of_seq in Hv. split; [lia|]. apply Hfresh. lia. }
  { done. }
  simpl in Hinv. rewrite visitsDF_data in Hframe5. simpl in Hframe5.
  rewrite HNT_data in Hframe5.
  destruct Hinv as [(T & HT & HTg & HrT & HT_lt) Hrefs Hrefs_len Htrace Hcomp Hn Ht].
  assert (frame (λ _, False) (λ x, x = r) None s5 s6) as Hframe6.
  { eapply frame_trans; [apply frame_set_viewRefs_alter|].
    eapply frame_weaken; [apply frame_log|done..]. }
  assert (viewRefs s5 !! r = Some vr) as Hvr5.
  { rewrite (frame_refs _ _ _ _ _ Hframe5); [done|lia|tauto]. }
  assert (viewRefs s6 !! r = Some (ViewRef.with_compiled true vr)) as Hvr6.
  { simpl. rewrite list_lookup_alter_eq, Hvr5. done. }
  assert (trees s5 !! nt = Some (mkTree NT)) as HNT5.
  { rewrite (frame_trees _ _ _ _ _ Hframe5); [done|lia|congruence]. }
  assert (length (viewRefs s6) = length (viewRefs s5)) as Hlen6
    by (simpl; by rewrite length_alter).
  assert (nodes_of s6 r = seq m0 k) as Hnodes_r.
  { unfold nodes_of. rewrite Hvr6. simpl. fold nt. rewrite HNT5. done. }
  assert (∀ r', r < r' < length (viewRefs s5) →
                compiled_ok this s6 (m0 + k) (length (trees s4)) r') as Hcomp6.
  { intros r' Hr'. eapply compiled_ok_frame; [exact Hframe6|by apply Hcomp|..].
    - done.
    - intros c ? ->. lia.
    - done. }
  exists cs, T. split_and!.
  - done.
  - done.
  - rewrite tdata_node, Hrefs, Hlen6.
    replace (length (viewRefs s5) - r) with (S (length (viewRefs s5) - S r)) by lia.
    done.
  - simpl. rewrite Htrace, Htrace4, Hnodes_r. rewrite <- !app_assoc. simpl.
    do 4 f_equal. apply flat_map_pass_trace_ext. intros r' Hr'. symmetry.
    rewrite Hrefs in Hr'. apply elem_of_seq in Hr'.
    eapply nodes_of_frame; [exact Hframe6|apply Hcomp; lia|cbv beta; lia|done].
  - eapply frame_compose; [|eapply frame_weaken; [exact Hframe6|..]| |].
    + eapply frame_compose; [exact Hframe4|exact Hframe5| |done].
      intros a Ha%elem_of_seq ?. lia.
    + done.
    + done.
    + done.
    + done.
    + simpl. intros ? -> ?. lia.
  - intros r' Hr'. destruct (decide (r' = r)) as [->|Hne].
    + exists (ViewRef.with_compiled true vr), NT. split_and!; try done.
      * rewrite HNT_data. apply NoDup_seq.
      * intros a Ha. rewrite HNT_data in Ha. apply elem_of_seq in Ha. lia.
      * rewrite Forall_forall in Hvisits |- *. intros v Hv.
        eapply visit_ok_frame; [exact Hframe6|by apply Hvisits|tauto|].
        intros c ? ->. lia.
    + eapply compiled_ok_weaken; [apply Hcomp6; lia|lia|lia].
  - done.
  - intros a Ha. simpl.
    rewrite (frame_nodes _ _ _ _ _ Hframe5); [done|lia|].
    intros Hin%elem_of_seq. lia.
Qed.
End Core.

(** ** [_compileViewRef] meets its specification *)

Lemma call_Ret_inv {A} (r : Error + A) a s s' :
  call r s = Ret a s' → r = inr a ∧ s' = s.
Proof. destruct r; simpl; [done|]. by intros [= -> ->]. Qed.

Section Step.
Variable this : Compiler.

Lemma expected_nodes_viewRef a ds nodes :
  expected_nodes this a ds = inr nodes →
  Forall (λ vn, ViewNode.viewRef vn = None) nodes.
Proof.
  revert a nodes. induction ds as [|d ds IH]; intros a nodes; simpl.
  - intros [= <-]. constructor.
  - destruct (build_all this a _); [done|].
    destruct (expected_nodes this (S a) ds) eqn:He; [done|].
    intros [= <-]. constructor; [done|]. eauto.
Qed.

Lemma getViewNodes_top_Ret_inv ast s nt s1 :
  _getViewNodes this ast None None s = Ret nt s1 →
  ∃ nodes,
    expected_nodes this (length (viewNodes s)) (tdata ast) = inr nodes
    ∧ nt = length (trees s)
    ∧ s1 = with_nodes nodes
             (trees s ++ [mkTree (relabel (length (viewNodes s)) ast)]) s.
Proof.
  intros Hrun. pose proof (getViewNodes_top this ast s) as Htop.
  destruct (expected_nodes this _ _) as [e|nodes].
  - destruct Htop as [s' Htop]. congruence.
  - exists nodes. rewrite Htop in Hrun. by injection Hrun as <- <-.
Qed.

(** The View Reference enters the tree of View References. *)
Lemma enter_tree_Ret_inv viewRefTree parentViewRef host cref nt refs s2 vt s3 :
  let r := length refs in
  viewRefs s2 = refs ++ [ViewRef.new cref nt] →
  match viewRefTree, parentViewRef with
  | None, None =>
      let* t := new_Tree r in
      updateRenderHost r host ;;
      ret t
  | Some t, _ => Tree_add t r parentViewRef ;; ret t
  | None, Some _ => throw TypeError
  end s2 = Ret vt s3 →
  ∃ vr T0,
    viewRefs s3 = refs ++ [vr]
    ∧ ViewRef.componentRef vr = cref
    ∧ ViewRef.nodesTree vr = nt
    ∧ ViewRef.renderHost vr
      = match viewRefTree with None => Some host | Some _ => None end
    ∧ viewNodes s3 = viewNodes s2
    ∧ trace s3 = trace s2
    ∧ frame (λ _, False) (λ x, x = r) (Some vt) s2 s3
    ∧ trees s3 !! vt = Some (mkTree T0)
    ∧ match viewRefTree with
      | None =>
          parentViewRef = None ∧ vt = length (trees s2) ∧ T0 = mkTreeNode r []
      | Some t =>
          vt = t
          ∧ ∃ p T, parentViewRef = Some p
                   ∧ trees s2 !! vt = Some (mkTree T)
                   ∧ graft p (mkTreeNode r []) T = Some T0
      end.
Proof.
  intros r Hrefs Hrun. destruct viewRefTree as [t|].
  - apply bind_Ret_inv in Hrun as ([] & s3' & Hadd & [= <- <-]).
    apply Tree_add_Ret_inv in Hadd as (p & T & T' & -> & HT & Hg & ->).
    exists (ViewRef.new cref nt), T'. split_and!; try done.
    + eapply frame_weaken; [apply frame_set_trees_insert|done..].
    + simpl. apply list_lookup_insert_eq. by eapply lookup_lt_Some.
    + by exists p, T.
  - destruct parentViewRef; [done|].
    apply bind_Ret_inv in Hrun as (t & s2' & Hnew & Hrun).
    apply bind_Ret_inv in Hrun as ([] & s3' & Hupd & [= <- <-]).
    unfold new_Tree in Hnew. injection Hnew as <- <-.
    unfold updateRenderHost, update_ViewRef in Hupd.
    apply bind_Ret_inv in Hupd as (vr & ? & [-> Hvr]%deref_Ret_inv & [= <-]).
    exists (ViewRef.with_renderHost (Some host) (ViewRef.new cref nt)),
      (mkTreeNode r []).
    split_and!; try done.
    + simpl. rewrite Hrefs. unfold r. by rewrite alter_snoc.
    + eapply frame_trans.
      * eapply frame_weaken; [apply frame_set_trees_snoc|done..].
      * eapply frame_weaken; [apply frame_set_viewRefs_alter|done..].
    + simpl. by apply list_lookup_middle.
Qed.

(** The View Reference is recorded on the hosting View Node. *)
Lemma record_host_Ret_inv hostViewNode (r : addr) s3 u s4 :
  match hostViewNode with
  | Some hv => update_ViewNode (data (node hv)) (ViewNode.with_viewRef (Some r))
  | None => ret tt
  end s3 = Ret u s4 →
  viewRefs s4 = viewRefs s3
  ∧ trees s4 = trees s3
  ∧ trace s4 = trace s3
  ∧ length (viewNodes s4) = length (viewNodes s3)
  ∧ frame (λ a, (data ∘ node) <$> hostViewNode = Some a) (λ _, False) None s3 s4
  ∧ ∀ hv, hostViewNode = Some hv →
          ∃ vn, viewNodes s3 !! data (node hv) = Some vn
                ∧ viewNodes s4 !! data (node hv)
                  = Some (ViewNode.with_viewRef (Some r) vn).
Proof.
  destruct hostViewNode as [hv|].
  - intros [[vn Hvn] ->]%update_ViewNode_Ret_inv. split_and!; try done.
    + simpl. by rewrite length_alter.
    + eapply frame_weaken; [apply frame_set_viewNodes_alter| |done..].
      simpl. by intros ? ->.
    + intros ? [= <-]. exists vn. split; [done|]. simpl.
      by rewrite list_lookup_alter_eq, Hvn.
  - intros [= _ <-]. split_and!; done.
Qed.

(** From the call to the start of the traversal. *)
Lemma traversal_start component host viewRefTree parentViewRef hostViewNode
    s cref ast nodes vt s3 u s4 :
  (∀ vt, viewRefTree = Some vt →
         ∃ T, trees s !! vt = Some (mkTree T)
              ∧ ∀ x, x ∈ tdata T → x < length (viewRefs s)) →
  (∀ hv, hostViewNode = Some hv → data (node hv) < length (viewNodes s)) →
  create (_componentFactory this) component host = inr cref →
  expected_nodes this (length (viewNodes s)) (tdata (root ast)) = inr nodes →
  match viewRefTree, parentViewRef with
  | None, None =>
      let* t := new_Tree (length (viewRefs s)) in
      updateRenderHost (length (viewRefs s)) host ;;
      ret t
  | Some t, _ => Tree_add t (length (viewRefs s)) parentViewRef ;; ret t
  | None, Some _ => throw TypeError
  end (log (EvNewViewRef (length (viewRefs s)))
         (set_viewRefs (.++ [ViewRef.new cref (length (trees s))])
            (with_nodes nodes
               (trees s ++ [mkTree (relabel (length (viewNodes s)) (root ast))]) s)))
  = Ret vt s3 →
  match hostViewNode with
  | Some hv =>
      update_ViewNode (data (node hv))
        (ViewNode.with_viewRef (Some (length (viewRefs s))))
  | None => ret tt
  end s3 = Ret u s4 →
  ∃ vr T0,
    start_facts this component host viewRefTree parentViewRef hostViewNode
      ast nodes s s4 vr vt T0.
Proof.
  intros Hpre_tree Hpre_hv Hcreate Hnodes Htree Hhost.
  set (m0 := length (viewNodes s)) in *.
  set (t0 := length (trees s)) in *.
  set (r := length (viewRefs s)) in *.
  set (NT := relabel m0 (root ast)) in *.
  set (s1 := with_nodes nodes (trees s ++ [mkTree NT]) s) in *.
  set (s2 := log (EvNewViewRef r) (set_viewRefs (.++ [ViewRef.new cref t0]) s1)) in *.
  assert (frame (λ _, False) (λ _, False) None s s2) as Hframe2.
  { eapply frame_trans; [apply frame_with_nodes|].
    eapply frame_trans; [apply frame_set_viewRefs_snoc|apply frame_log]. }
  assert (viewRefs s2 = viewRefs s ++ [ViewRef.new cref t0]) as Hrefs2 by done.
  assert (viewNodes s2 = viewNodes s ++ nodes) as Hnodes2 by done.
  assert (trees s2 = trees s ++ [mkTree NT]) as Htrees2 by done.
  assert (trace s2
          = trace s ++ map EvNewViewNode (seq m0 (length nodes)) ++ [EvNewViewRef r])
    as Htrace2 by (simpl; by rewrite <- app_assoc).
  clearbody s2. clear s1.
  eapply enter_tree_Ret_inv in Htree
    as (vr0 & T0 & Hrefs3 & Hcref & Hnt & Hrh & Hnodes3 & Htrace3 & Hframe3
        & HT0 & Htree); [|exact Hrefs2].
  apply record_host_Ret_inv in Hhost
    as (Hrefs4 & Htrees4 & Htrace4 & Hlen4 & Hframe4 & Hhost).
  assert (vt ≠ t0 ∧ vt < length (trees s3)) as [Hvt_ne Hvt_lt].
  { split; [|by eapply lookup_lt_Some].
    destruct viewRefTree as [t|].
    - destruct Htree as [-> _]. destruct (Hpre_tree t eq_refl) as (T & HT & _).
      apply lookup_lt_Some in HT. unfold t0. lia.
    - destruct Htree as (_ & -> & _). rewrite Htrees2, length_app. simpl.
      unfold t0. lia. }
  assert (trees s3 !! t0 = Some (mkTree NT)) as HNT3.
  { rewrite (frame_trees _ _ _ _ _ Hframe3).
    - rewrite Htrees2. by apply list_lookup_middle.
    - rewrite Htrees2, length_app. simpl. unfold t0. lia.
    - congruence. }
  exists vr0, T0. constructor.
  - by rewrite Hcref.
  - done.
  - eapply frame_compose; [|eapply frame_weaken; [exact Hframe4|done..]| |done].
    + eapply frame_compose;
        [eapply frame_weaken; [exact Hframe2|done..]|exact Hframe3| |].
      * done.
      * simpl. intros ? -> ?. unfold r in *. lia.
    + done.
  - by rewrite Hrefs4.
  - done.
  - done.
  - done.
  - by rewrite Htrees4.
  - by rewrite Hlen4, Hnodes3, Hnodes2, length_app.
  - intros i vn Hi. rewrite (frame_nodes _ _ _ _ _ Hframe4).
    + rewrite Hnodes3, Hnodes2. unfold m0. rewrite lookup_app_r by lia.
      by replace (length (viewNodes s) + i - length (viewNodes s)) with i by lia.
    + apply lookup_lt_Some in Hi.
      rewrite Hnodes3, Hnodes2, length_app. unfold m0. lia.
    + destruct hostViewNode as [hv|]; [|done]. simpl. intros [= Heq].
      specialize (Hpre_hv hv eq_refl). unfold m0 in *. lia.
  - intros hv ->. destruct (Hhost hv eq_refl) as (vn & Hvn3 & Hvn4).
    specialize (Hpre_hv hv eq_refl). exists vn. split; [|done].
    rewrite Hnodes3, Hnodes2, lookup_app_l in Hvn3 by done. done.
  - by rewrite Htrees4.
  - destruct viewRefTree as [t|].
    + destruct Htree as (-> & p & T & -> & HT & Hg). split; [done|].
      destruct (Hpre_tree t eq_refl) as (T' & HT' & HT'_lt).
      rewrite Htrees2, lookup_app_l in HT by by eapply lookup_lt_Some.
      assert (T' = T) as -> by congruence. by exists p, T.
    + destruct Htree as (-> & -> & ->). split; [done|]. split; [|done].
      rewrite Htrees2, length_app. simpl. unfold t0. lia.
  - by rewrite Htrace4, Htrace3.
Qed.

(** What [compile_core] asks of the start of the traversal. *)
Lemma start_facts_tree component host viewRefTree parentViewRef hostViewNode
    ast nodes s s4 vr vt T0 :
  start_facts this component host viewRefTree parentViewRef hostViewNode
    ast nodes s s4 vr vt T0 →
  length (viewRefs s) ∈ tdata T0
  ∧ ∀ x, x ∈ tdata T0 → x ≤ length (viewRefs s).
Proof.
  intros Hsf. pose proof (sf_tree _ _ _ _ _ _ _ _ _ _ _ _ _ Hsf) as Htree.
  destruct viewRefTree as [t|].
  - destruct Htree as (-> & p & T & -> & HT & Hg & HT_lt). split.
    + apply (graft_elem_of _ _ _ _ _ Hg). right. rewrite tdata_node. set_solver.
    + intros x [Hx|Hx]%(graft_elem_of _ _ _ _ _ Hg).
      * apply HT_lt in Hx. lia.
      * rewrite tdata_node, fdata_nil in Hx. set_solver by lia.
  - destruct Htree as (_ & _ & ->). rewrite tdata_node, fdata_nil. set_solver by lia.
Qed.

Lemma start_facts_fresh component host viewRefTree parentViewRef hostViewNode
    ast nodes s s4 vr vt T0 a :
  start_facts this component host viewRefTree parentViewRef hostViewNode
    ast nodes s s4 vr vt T0 →
  length (viewNodes s) ≤ a < length (viewNodes s) + length nodes →
  ∃ vn, viewNodes s4 !! a = Some vn ∧ ViewNode.viewRef vn = None.
Proof.
  intros Hsf Ha.
  destruct (lookup_lt_is_Some_2 nodes (a - length (viewNodes s)) ltac:(lia))
    as [vn Hvn].
  exists vn. split.
  - replace a with (length (viewNodes s) + (a - length (viewNodes s))) by lia.
    by eapply sf_nodes.
  - pose proof (expected_nodes_viewRef _ _ _ (sf_nodes_ast _ _ _ _ _ _ _ _ _ _ _ _ _ Hsf))
      as Href.
    eapply Forall_lookup_1 in Href; [|exact Hvn]. done.
Qed.

Lemma compileViewRef_step fuel :
  compileViewRef_spec this fuel → compileViewRef_spec this (S fuel).
Proof.
  intros IH component host viewRefTree parentViewRef hostViewNode s t s'
    Hrun Hpre_tree Hpre_hv.
  cbn [_compileViewRef] in Hrun.
  apply bind_Ret_inv in Hrun as (cref & ? & [Hcreate ->]%call_Ret_inv & Hrun).
  apply bind_Ret_inv in Hrun as (ast & ? & [Hparse ->]%call_Ret_inv & Hrun).
  apply bind_Ret_inv in Hrun
    as (nt & s1 & (nodes & Hnodes & -> & ->)%getViewNodes_top_Ret_inv & Hrun).
  apply bind_Ret_inv in Hrun as (r & s2 & [= <- <-] & Hrun).
  apply bind_Ret_inv in Hrun as (vt & s3 & Htree & Hrun).
  apply bind_Ret_inv in Hrun as (u & s4 & Hhost & Hrun).
  apply bind_Ret_inv in Hrun as (vr & ? & [-> Hvr]%deref_Ret_inv & Hrun).
  apply bind_Ret_inv in Hrun as ([] & s5 & Htrav & Hrun).
  apply bind_Ret_inv in Hrun as ([] & s6 & Hset & [= <- <-]).
  destruct (traversal_start _ _ _ _ _ _ _ _ _ _ _ _ _
              Hpre_tree Hpre_hv Hcreate Hnodes Htree Hhost) as (vr0 & T0 & Hsf).
  destruct (start_facts_tree _ _ _ _ _ _ _ _ _ _ _ _ Hsf) as [HrT0 HT0_le].
  pose proof Hsf as [_ _ Hframe04 Hrefs4 Hnt Hrh Hvt_ne HNT4 Hlen4 _ Hhv HT0
                       Htree0 Htrace4].
  simpl in Hvr.
  assert (vr = vr0) as ->.
  { rewrite Hrefs4, list_lookup_middle in Hvr by done. congruence. }
  apply expected_nodes_length in Hnodes as Hlen_nodes.
  rewrite length_tdata in Hlen_nodes.
  unfold traverseDF in Htrav. rewrite Hnt in Htrav.
  apply bind_Ret_inv in Htrav as (tree & ? & [-> Htree4]%deref_Ret_inv & Htrav).
  rewrite HNT4 in Htree4. injection Htree4 as <-.
  change (forEach (discover this fuel vt (length (viewRefs s)))
            (visitsDF (mkTree (relabel (length (viewNodes s)) (root ast)))) s4
          = Ret tt s5) in Htrav.
  unfold set_compiled, update_ViewRef in Hset.
  apply bind_Ret_inv in Hset as ([] & ? & Hset & [= <-]).
  apply bind_Ret_inv in Hset as (? & ? & [-> _]%deref_Ret_inv & [= <-]).
  destruct (compile_core this fuel IH
              (λ a, (data ∘ node) <$> hostViewNode = Some a)
              s s4 s5 vr0 (relabel (length (viewNodes s)) (root ast)) vt T0
              (length nodes))
    as (cs & T & HTg & HT6 & Hsub & Htrace6 & Hframe6 & Hcomp6 & Hvr6 & Hold6).
  { exact Hframe04. }
  { done. }
  { by rewrite Hnt. }
  { by rewrite Hnt. }
  { by rewrite Hnt. }
  { rewrite tdata_relabel. by rewrite Hlen_nodes. }
  { done. }
  { intros a Ha. by eapply start_facts_fresh. }
  { done. }
  { done. }
  { done. }
  { done. }
  { exact Htrav. }
  exists (mkTreeNode (length (viewRefs s)) cs). constructor.
  - done.
  - done.
  - done.
  - done.
  - done.
  - intros hv ->. destruct (Hhv hv eq_refl) as (vn & Hvn & Hvn4).
    specialize (Hpre_hv hv eq_refl). exists vn. split; [done|].
    rewrite Hold6 by done. done.
  - eexists. split; [exact Hvr6|]. simpl. split; [|done].
    by eapply sf_create.
  - destruct viewRefTree as [t|].
    + destruct Htree0 as (-> & p & T' & -> & HT' & Hg & HT'_lt). split; [done|].
      exists p, T', T. split_and!; try done.
      rewrite <- HTg. symmetry.
      apply (graft_many_graft p (length (viewRefs s)) [] cs T' T0); [|done].
      intros ?%HT'_lt. lia.
    + destruct Htree0 as (-> & -> & ->). split; [done|]. split; [done|].
      rewrite graft_many_root in HTg. injection HTg as <-. done.
Qed.

(** Every call of [_compileViewRef] that returns meets [compile_post]. *)
Lemma compileViewRef_correct fuel : compileViewRef_spec this fuel.
Proof.
  induction fuel as [|fuel IH]; [|by apply compileViewRef_step].
  intros ? ? ? ? ? ? ? ? Hrun. done.
Qed.
End Step.

(** ** Fuel: enough of it, and no dependence on the rest *)

Lemma bind_not_OutOfFuel {A B} (m : M A) (k : A → M B) s :
  m s ≠ OutOfFuel →
  (∀ a s1, m s = Ret a s1 → k a s1 ≠ OutOfFuel) →
  bind m k s ≠ OutOfFuel.
Proof. unfold bind. destruct (m s); naive_solver. Qed.

Lemma total_bind {A B} (m : M A) (k : A → M B) :
  total m → (∀ a, total (k a)) → total (bind m k).
Proof. intros Hm Hk s. apply bind_not_OutOfFuel; [apply Hm|]. intros. apply Hk. Qed.

Lemma total_ret {A} (a : A) : total (ret a).
Proof. by intros s. Qed.

Lemma total_throw {A} e : total (@throw A e).
Proof. by intros s. Qed.

Lemma total_call {A} (r : Error + A) : total (call r).
Proof. intros s. by destruct r. Qed.

Lemma total_modify f : total (modify f).
Proof. by intros s. Qed.

Lemma total_deref {A} (store : State → list A) a : total (deref store a).
Proof. intros s. unfold deref. by destruct (store s !! a). Qed.

Lemma total_Tree_add t d parent : total (Tree_add t d parent).
Proof.
  apply total_bind; [apply total_deref|]. intros tree.
  destruct parent; [|apply total_throw].
  destruct (graft _ _ _); [apply total_modify|apply total_throw].
Qed.

Lemma total_update_ViewNode a f : total (update_ViewNode a f).
Proof. apply total_bind; [apply total_deref|]. intros. apply total_modify. Qed.

Lemma total_update_ViewRef r f : total (update_ViewRef r f).
Proof. apply total_bind; [apply total_deref|]. intros. apply total_modify. Qed.

Lemma total_getViewNodes_top this ast : total (_getViewNodes this ast None None).
Proof.
  intros s. pose proof (getViewNodes_top this ast s) as Htop.
  destruct (expected_nodes this _ _); [destruct Htop|]; congruence.
Qed.

Lemma refines_refl {A} (m : M A) : refines m m.
Proof. by intros s. Qed.

Lemma refines_bind {A B} (m m' : M A) (k k' : A → M B) :
  refines m m' → (∀ a, refines (k a) (k' a)) → refines (bind m k) (bind m' k').
Proof.
  intros Hm Hk s. unfold bind. destruct (m s) as [a s1| |] eqn:Hms.
  - rewrite Hm, Hms by congruence. apply Hk.
  - by rewrite Hm, Hms by congruence.
  - done.
Qed.

Lemma refines_forEach {A} (f f' : A → M unit) l :
  (∀ x, refines (f x) (f' x)) → refines (forEach f l) (forEach f' l).
Proof.
  intros Hf. induction l as [|x l IH]; [apply refines_refl|].
  simpl. apply refines_bind; [apply Hf|]. intros _. apply IH.
Qed.

Section Fuel.
Variable this : Compiler.

(** More fuel changes nothing for a call that had enough. *)
Lemma compileViewRef_fuel_S fuel :
  ∀ component host viewRefTree parentViewRef hostViewNode,
    refines
      (_compileViewRef this fuel component host viewRefTree parentViewRef hostViewNode)
      (_compileViewRef this (S fuel) component host viewRefTree parentViewRef
         hostViewNode).
Proof.
  induction fuel as [|fuel IH]; intros component host viewRefTree parentViewRef
    hostViewNode; [by intros s|].
  cbn [_compileViewRef].
  apply refines_bind; [apply refines_refl|]. intros cref.
  apply refines_bind; [apply refines_refl|]. intros ast.
  apply refines_bind; [apply refines_refl|]. intros nt.
  apply refines_bind; [apply refines_refl|]. intros r.
  apply refines_bind; [apply refines_refl|]. intros vt.
  apply refines_bind; [apply refines_refl|]. intros _.
  apply refines_bind; [apply refines_refl|]. intros vr.
  apply refines_bind; [|intros; apply refines_refl].
  apply refines_bind; [apply refines_refl|]. intros tree.
  apply refines_forEach. intros v.
  apply refines_bind; [apply refines_refl|]. intros vn.
  destruct (_ && _); [|apply refines_refl].
  apply refines_bind; [apply IH|]. intros; apply refines_refl.
Qed.

Lemma compileViewRef_fuel_le fuel fuel' component host viewRefTree parentViewRef
    hostViewNode :
  fuel ≤ fuel' →
  refines
    (_compileViewRef this fuel component host viewRefTree parentViewRef hostViewNode)
    (_compileViewRef this fuel' component host viewRefTree parentViewRef hostViewNode).
Proof.
  induction 1 as [|fuel' _ IH]; [apply refines_refl|].
  intros s Hs. rewrite compileViewRef_fuel_S; rewrite IH; done.
Qed.

Lemma expected_nodes_lookup a ds nodes i vn :
  expected_nodes this a ds = inr nodes →
  nodes !! i = Some vn →
  ∃ d, ds !! i = Some d
       ∧ ViewNode.componentSelector vn = TemplateASTNode.componentSelector d
       ∧ ViewNode.element vn = TemplateASTNode.element d.
Proof.
  revert a nodes i. induction ds as [|d ds IH]; intros a nodes i; simpl.
  - intros [= <-]. done.
  - destruct (build_all this a _); [done|].
    destruct (expected_nodes this (S a) ds) eqn:He; [done|].
    intros [= <-]. destruct i as [|i]; simpl.
    + intros [= <-]. by exists d.
    + eauto.
Qed.

(** The View Nodes the traversal visits are untouched, and a placeholder
    among them carries the selector of a node below the root of the AST. *)
Lemma start_facts_visits component host viewRefTree parentViewRef hostViewNode
    ast nodes s s4 vr vt T0 v :
  start_facts this component host viewRefTree parentViewRef hostViewNode
    ast nodes s s4 vr vt T0 →
  v ∈ visitsDF (mkTree (relabel (length (viewNodes s)) (root ast))) →
  data (node v) < length (viewNodes s) + length nodes
  ∧ ∃ vn, viewNodes s4 !! data (node v) = Some vn
          ∧ ViewNode.viewRef vn = None
          ∧ (is_placeholder v vn = true →
             ∃ d, d ∈ fdata (children (root ast))
                  ∧ TemplateASTNode.componentSelector d
                    = ViewNode.componentSelector vn).
Proof.
  intros Hsf Hv.
  pose proof (sf_nodes_ast _ _ _ _ _ _ _ _ _ _ _ _ _ Hsf) as Hnodes.
  apply expected_nodes_length in Hnodes as Hlen. rewrite length_tdata in Hlen.
  set (m0 := length (viewNodes s)) in *.
  assert (m0 ≤ data (node v) < m0 + length nodes) as Hrange.
  { apply elem_of_visitsDF_data in Hv. simpl in Hv.
    rewrite tdata_relabel in Hv. apply elem_of_seq in Hv. lia. }
  split; [lia|].
  destruct (start_facts_fresh this _ _ _ _ _ _ _ _ _ _ _ _ _ Hsf Hrange)
    as (vn & Hvn & Href).
  exists vn. split_and!; [done..|]. intros Hph.
  destruct (root ast) as [d0 cs] eqn:Hroot. rewrite relabel_node in Hv.
  unfold visitsDF in Hv. cbn [root children] in Hv.
  apply elem_of_cons in Hv as [->|Hv]; [done|].
  apply list_elem_of_fmap in Hv as (n & -> & Hn). cbn [node] in *.
  assert (data n ∈ fdata (relabel_from (S m0) cs)) as Hdn
    by by apply list_elem_of_fmap_2.
  rewrite fdata_relabel_from in Hdn. apply elem_of_seq in Hdn.
  rewrite tdata_node in Hnodes. cbn [expected_nodes] in Hnodes.
  destruct (build_all this m0 _) as [|bs]; [done|].
  destruct (expected_nodes this (S m0) (fdata cs)) as [|ns] eqn:Hns; [done|].
  injection Hnodes as <-.
  assert (ns !! (data n - S m0) = Some vn) as Hi.
  { pose proof (sf_nodes _ _ _ _ _ _ _ _ _ _ _ _ _ Hsf) as Hlookup.
    destruct (lookup_lt_is_Some_2 ns (data n - S m0)) as [vn' Hvn'].
    { apply expected_nodes_length in Hns as Hlen_ns. unfold fdata in Hlen_ns.
      rewrite length_map in Hlen_ns. lia. }
    specialize (Hlookup (S (data n - S m0)) vn' Hvn'). fold m0 in Hlookup.
    replace (m0 + S (data n - S m0)) with (data n) in Hlookup by lia.
    congruence. }
  destruct (expected_nodes_lookup _ _ _ _ _ Hns Hi) as (d & Hd & Hsel & _).
  exists d. split; [|done]. cbn [children]. eapply list_elem_of_lookup_2. exact Hd.
Qed.

Section Terminates.
Variable depth : option ComponentType → nat.
Hypothesis Hbounded : nesting_bounded this depth.

Lemma discover_loop_terminates fuel r vt m1 t1 T0 s0 vs :
  terminates_at this depth fuel →
  vt < t1 →
  ∀ s cs,
    loop_inv this r vt m1 t1 T0 s0 s cs →
    NoDup (map (data ∘ node) vs) →
    (∀ v, v ∈ vs →
          data (node v) < m1
          ∧ ∃ vn, viewNodes s !! data (node v) = Some vn
                  ∧ ViewNode.viewRef vn = None
                  ∧ (is_placeholder v vn = true →
                     depth (getBySelector (_componentsRegistry this)
                              (default ""%string (ViewNode.componentSelector vn)))
                     < fuel)) →
    forEach (discover this fuel vt r) vs s ≠ OutOfFuel.
Proof.
  intros Hterm Hvt. induction vs as [|v vs IHvs]; intros s cs Hinv Hnd Hvs; [done|].
  apply NoDup_cons in Hnd as [Hv_notin Hnd].
  destruct (Hvs v ltac:(set_solver)) as (Hv_lt & vn & Hvn & Hvn_ref & Hdepth).
  cbn [forEach]. apply bind_not_OutOfFuel.
  - unfold discover. erewrite bind_Ret by by apply deref_Some.
    fold (is_placeholder v vn). destruct (is_placeholder v vn); [|done].
    apply bind_not_OutOfFuel; [|done]. apply Hterm; [by apply Hdepth| |].
    + intros ? [= <-]. destruct (inv_tree _ _ _ _ _ _ _ _ _ Hinv) as (T & ? & _ & _ & ?).
      eauto.
    + intros ? [= <-]. by eapply lookup_lt_Some.
  - intros [] s1 Hstep.
    destruct (discover_loop this fuel (compileViewRef_correct this fuel)
                r vt m1 t1 T0 s0 Hvt [v] s cs s1 Hinv)
      as (cs' & Hinv1 & _ & Hframe).
    { apply NoDup_singleton. }
    { intros v' ->%list_elem_of_singleton. eauto. }
    { cbn [forEach]. by erewrite bind_Ret by exact Hstep. }
    apply (IHvs s1 (cs ++ cs') Hinv1 Hnd).
    intros v' Hv'. destruct (Hvs v' ltac:(set_solver)) as (? & vn' & Hvn' & ? & ?).
    split; [done|]. exists vn'. split_and!; try done.
    rewrite (frame_nodes _ _ _ _ _ Hframe); [done|by eapply lookup_lt_Some|].
    simpl. intros Hin%list_elem_of_singleton. apply Hv_notin.
    replace ((data ∘ node) v) with ((data ∘ node) v') by (simpl; congruence).
    by apply (list_elem_of_fmap_2 (data ∘ node)).
Qed.

Lemma compileViewRef_terminates fuel : terminates_at this depth fuel.
Proof.
  induction fuel as [|fuel IH];
    intros component host viewRefTree parentViewRef hostViewNode s Hdepth
      Hpre_tree Hpre_hv; [lia|].
  cbn [_compileViewRef].
  apply bind_not_OutOfFuel; [apply total_call|].
  intros cref ? [Hcreate ->]%call_Ret_inv.
  apply bind_not_OutOfFuel; [apply total_call|].
  intros ast ? [Hparse ->]%call_Ret_inv.
  apply bind_not_OutOfFuel; [apply total_getViewNodes_top|].
  intros nt s1 (nodes & Hnodes & -> & ->)%getViewNodes_top_Ret_inv.
  apply bind_not_OutOfFuel; [done|]. intros r s2 [= <- <-].
  apply bind_not_OutOfFuel.
  { destruct viewRefTree; [|destruct parentViewRef].
    - apply total_bind; [apply total_Tree_add|intros; apply total_ret].
    - apply total_throw.
    - apply total_bind; [done|]. intros.
      apply total_bind; [apply total_update_ViewRef|intros; apply total_ret]. }
  intros vt s3 Htree.
  apply bind_not_OutOfFuel.
  { destruct hostViewNode; [apply total_update_ViewNode|apply total_ret]. }
  intros u s4 Hhost.
  destruct (traversal_start this _ _ _ _ _ _ _ _ _ _ _ _ _
              Hpre_tree Hpre_hv Hcreate Hnodes Htree Hhost) as (vr0 & T0 & Hsf).
  destruct (start_facts_tree this _ _ _ _ _ _ _ _ _ _ _ _ Hsf) as [HrT0 HT0_le].
  pose proof Hsf as [_ _ Hframe04 Hrefs4 Hnt Hrh Hvt_ne HNT4 Hlen4 _ Hhv HT0
                       Htree0 Htrace4].
  apply bind_not_OutOfFuel; [apply total_deref|].
  intros vr ? [-> Hvr]%deref_Ret_inv. simpl in Hvr.
  assert (vr = vr0) as ->.
  { rewrite Hrefs4, list_lookup_middle in Hvr by done. congruence. }
  apply bind_not_OutOfFuel; last first.
  { intros. apply total_bind; [|intros; apply total_ret].
    apply total_bind; [apply total_update_ViewRef|intros; apply total_modify]. }
  unfold traverseDF. rewrite Hnt.
  erewrite bind_Ret by (apply deref_Some; exact HNT4).
  assert (vt < length (trees s4)) as Hvt by by eapply lookup_lt_Some.
  eapply (discover_loop_terminates fuel (length (viewRefs s)) vt
            (length (viewNodes s) + length nodes) (length (trees s4)) T0 s4 _ IH Hvt
            s4 []).
  - constructor; try done; try lia.
    + exists T0. split_and!; try done. intros x ?%HT0_le.
      rewrite Hrefs4, length_app. simpl. lia.
    + rewrite Hrefs4, length_app. simpl.
      by replace (length (viewRefs s) + 1 - S (length (viewRefs s))) with 0 by lia.
    + rewrite Hrefs4, length_app. simpl. lia.
    + simpl. by rewrite app_nil_r.
    + intros r'. rewrite Hrefs4, length_app. simpl. lia.
  - rewrite visitsDF_data. simpl. rewrite tdata_relabel. apply NoDup_seq.
  - intros v Hv.
    destruct (start_facts_visits _ _ _ _ _ _ _ _ _ _ _ _ _ Hsf Hv)
      as (Hlt & vn & Hvn & Href & Hsel).
    split; [done|]. exists vn. split_and!; try done. intros Hph.
    destruct (Hsel Hph) as (d & Hd & Heq). rewrite <- Heq.
    assert (depth (getBySelector (_componentsRegistry this)
                     (default ""%string (TemplateASTNode.componentSelector d)))
            < depth component); [|lia].
    eapply Hbounded; [exact Hcreate|exact Hparse|exact Hd|].
    rewrite Heq. unfold is_placeholder in Hph. by apply andb_true_iff in Hph as [_ ?].
Qed.
End Terminates.

(** X9. When the nesting of components is bounded, [compile] terminates:
    with fuel above the nesting depth of the component it returns or
    throws, and any larger amount of fuel gives the same outcome. *)
Lemma compile_total depth fuel component host s :
  nesting_bounded this depth →
  depth component < fuel →
  compile this fuel component host s ≠ OutOfFuel
  ∧ ∀ fuel', fuel ≤ fuel' →
             compile this fuel' component host s = compile this fuel component host s.
Proof.
  intros Hbounded Hdepth.
  assert (compile this fuel component host s ≠ OutOfFuel) as Hfuel.
  { by eapply compileViewRef_terminates. }
  split; [done|]. intros fuel' Hle. by apply compileViewRef_fuel_le.
Qed.
End Fuel.

(** * Properties of the design *)

(** ** The View Node tree *)

Section Mirrors.
Variable this : Compiler.

Lemma mirrors_node s d cs a ns :
  mirrors this s (mkTreeNode d cs) (mkTreeNode a ns)
  ↔ (∃ vn, viewNodes s !! a = Some vn
           ∧ ViewNode.element vn = TemplateASTNode.element d
           ∧ ViewNode.componentSelector vn = TemplateASTNode.componentSelector d
           ∧ Forall2 (λ raw b, ∃ bindingBuilder,
                        _bindingBuilder this = Some bindingBuilder
                        ∧ build bindingBuilder raw a = inr b)
                     (TemplateASTNode.bindings d) (ViewNode.bindings vn))
    ∧ Forall2 (mirrors this s) cs ns.
Proof.
  simpl. apply and_iff_compat_l. revert ns.
  induction cs as [|c cs IH]; intros [|n ns]; simpl.
  - split; [constructor|done].
  - split; [done|]. intros H. inversion H.
  - split; [done|]. intros H. inversion H.
  - rewrite IH. split.
    + intros [? ?]. by constructor.
    + intros H. inversion H. done.
Qed.

Lemma build_all_Forall2 a raws bs :
  build_all this a raws = inr bs →
  Forall2 (λ raw b, ∃ bindingBuilder,
             _bindingBuilder this = Some bindingBuilder
             ∧ build bindingBuilder raw a = inr b) raws bs.
Proof.
  revert bs. induction raws as [|raw raws IH]; intros bs; simpl.
  - intros [= <-]. constructor.
  - destruct (_bindingBuilder this) as [bb|] eqn:Hbb; [|done].
    destruct (build bb raw a) as [|b] eqn:Hb; [done|].
    destruct (build_all this a raws) as [|bs']; [done|].
    intros [= <-]. constructor; eauto.
Qed.

Lemma mirrors_relabel ast :
  ∀ m nodes s,
    expected_nodes this m (tdata ast) = inr nodes →
    (∀ i vn, nodes !! i = Some vn → viewNodes s !! (m + i) = Some vn) →
    mirrors this s ast (relabel m ast).
Proof.
  induction ast as [d cs IH] using TreeNode_ind. intros m nodes s Hexp Hs.
  rewrite relabel_node, mirrors_node. rewrite tdata_node in Hexp. simpl in Hexp.
  destruct (build_all this m _) as [|bs] eqn:Hbs; [done|].
  destruct (expected_nodes this (S m) (fdata cs)) as [|ns] eqn:Hns; [done|].
  injection Hexp as <-. split.
  - eexists. split; [|split_and!].
    + rewrite <- (Nat.add_0_r m). by apply Hs.
    + done.
    + done.
    + by apply build_all_Forall2.
  - assert (∀ i vn, ns !! i = Some vn → viewNodes s !! (S m + i) = Some vn) as Hs'.
    { intros i vn Hi. replace (S m + i) with (m + S i) by lia. by apply Hs. }
    clear Hs Hbs. revert Hns Hs'. generalize (S m). revert ns.
    induction IH as [|c cs Hc _ IHcs]; intros ns k Hns Hs; [constructor|].
    rewrite fdata_cons, expected_nodes_app in Hns.
    destruct (expected_nodes this k (tdata c)) as [|n1] eqn:Hn1; [done|].
    destruct (expected_nodes this (k + length (tdata c)) (fdata cs))
      as [|n2] eqn:Hn2; [done|].
    injection Hns as <-. apply expected_nodes_length in Hn1 as Hlen1.
    simpl. constructor.
    + eapply Hc; [exact Hn1|]. intros i vn Hi. apply Hs.
      by apply lookup_app_l_Some.
    + rewrite length_tdata in Hn2. eapply IHcs; [exact Hn2|].
      intros i vn Hi. rewrite <- Nat.add_assoc. apply Hs.
      rewrite length_tdata in Hlen1. rewrite lookup_app_r by lia.
      by replace (length (preorder c) + i - length n1) with i by lia.
Qed.
End Mirrors.

Lemma build_all_inr this a raws :
  (∀ raw, raw ∈ raws →
     ∃ bindingBuilder, _bindingBuilder this = Some bindingBuilder
       ∧ ∀ a, ∃ b, build bindingBuilder raw a = inr b) →
  ∃ bs, build_all this a raws = inr bs.
Proof.
  induction raws as [|raw raws IH]; intros Hraws; simpl; [by eexists|].
  destruct (Hraws raw) as (bb & -> & Hb); [set_solver|].
  destruct (Hb a) as [b ->].
  destruct IH as [bs ->]; [intros; apply Hraws; set_solver|]. by eexists.
Qed.

Lemma expected_nodes_inr this a ds :
  (∀ d raw, d ∈ ds → raw ∈ TemplateASTNode.bindings d →
     ∃ bindingBuilder, _bindingBuilder this = Some bindingBuilder
       ∧ ∀ a, ∃ b, build bindingBuilder raw a = inr b) →
  ∃ nodes, expected_nodes this a ds = inr nodes.
Proof.
  revert a. induction ds as [|d ds IH]; intros a Hds; simpl; [by eexists|].
  destruct (build_all_inr this a (TemplateASTNode.bindings d)) as [bs ->].
  { intros raw Hraw. apply (Hds d); [by apply list_elem_of_here|done]. }
  destruct (IH (S a)) as [ns ->].
  { intros d' raw Hd' Hraw. apply (Hds d'); [by apply list_elem_of_further|done]. }
  by eexists.
Qed.

(** C9. When the Binding Builder builds every raw binding of a Template
    AST, the compiler builds a View Node tree from it.  Whenever it builds
    one, the tree mirrors the AST: one fresh View Node per AST node, in a
    new tree, with the same parent/child relationships and sibling order;
    each View Node carries the element and the componentSelector of its
    AST node and one Binding, built by the Binding Builder, per raw
    binding. *)
Theorem getViewNodes_mirrors_ast this ast s :
  (builds_all this ast → ∃ t s', _getViewNodes this ast None None s = Ret t s')
  ∧ ∀ t s',
      _getViewNodes this ast None None s = Ret t s' →
      ∃ T, t = length (trees s)
           ∧ trees s' !! t = Some (mkTree T)
           ∧ mirrors this s' ast T
           ∧ length (preorder T) = length (preorder ast)
           ∧ NoDup (tdata T)
           ∧ ∀ a, a ∈ tdata T → length (viewNodes s) ≤ a < length (viewNodes s').
Proof.
  split.
  { intros Hbuilds. pose proof (getViewNodes_top this ast s) as Htop.
    destruct (expected_nodes_inr this (length (viewNodes s)) (tdata ast) Hbuilds)
      as [nodes Hnodes].
    rewrite Hnodes in Htop. eauto. }
  intros t s' (nodes & Hnodes & -> & ->)%getViewNodes_top_Ret_inv.
  apply expected_nodes_length in Hnodes as Hlen. rewrite length_tdata in Hlen.
  exists (relabel (length (viewNodes s)) ast). split_and!.
  - done.
  - simpl. by apply list_lookup_middle.
  - eapply mirrors_relabel; [exact Hnodes|]. intros i vn Hi. simpl.
    rewrite lookup_app_r by lia.
    by replace (length (viewNodes s) + i - length (viewNodes s)) with i by lia.
  - by rewrite <- length_tdata, tdata_relabel, length_seq.
  - rewrite tdata_relabel. apply NoDup_seq.
  - intros a Ha. rewrite tdata_relabel in Ha. apply elem_of_seq in Ha.
    simpl. rewrite length_app. lia.
Qed.

Lemma getViewNodes_mirrors_ast_witness :
  (∃ t s', _getViewNodes Demo.compiler (Demo.app_ast 1) None None initial = Ret t s')
  ∧ ∃ T, 0 = length (trees initial)
       ∧ trees (with_nodes
                  [ViewNode.mk 1 (Some "app"%string) [] None;
                   ViewNode.mk 10 None [Binding.mk "title" "textContent" 1] None;
                   ViewNode.mk 11 (Some "child"%string) [] None;
                   ViewNode.mk 12 None [] None]
                  [mkTree (relabel 0 (Demo.app_ast 1))] initial) !! 0
         = Some (mkTree T)
       ∧ mirrors Demo.compiler
           (with_nodes
              [ViewNode.mk 1 (Some "app"%string) [] None;
               ViewNode.mk 10 None [Binding.mk "title" "textContent" 1] None;
               ViewNode.mk 11 (Some "child"%string) [] None;
               ViewNode.mk 12 None [] None]
              [mkTree (relabel 0 (Demo.app_ast 1))] initial)
           (Demo.app_ast 1) T
       ∧ length (preorder T) = length (preorder (Demo.app_ast 1))
       ∧ NoDup (tdata T)
       ∧ ∀ a, a ∈ tdata T → length (viewNodes initial) ≤ a < 4.
Proof.
  split.
  - apply (proj1 (getViewNodes_mirrors_ast Demo.compiler (Demo.app_ast 1) initial)).
    intros d raw Hd Hraw. exists Demo.builder. split; [reflexivity|].
    intros a. eexists. reflexivity.
  - apply (proj2 (getViewNodes_mirrors_ast Demo.compiler (Demo.app_ast 1) initial) 0).
    reflexivity.
Defined.

Lemma expected_nodes_no_builder this a ds :
  _bindingBuilder this = None →
  Exists (λ d, TemplateASTNode.bindings d ≠ []) ds →
  expected_nodes this a ds = inl TypeError.
Proof.
  intros Hbb Hex. revert a. induction Hex as [d ds Hd|d ds _ IH]; intros a; simpl.
  - destruct (TemplateASTNode.bindings d); [done|]. simpl. by rewrite Hbb.
  - destruct (TemplateASTNode.bindings d); simpl.
    + by rewrite IH.
    + by rewrite Hbb.
Qed.

Lemma compileViewRef_no_builder this fuel component host viewRefTree parentViewRef
    hostViewNode cref ast s :
  _bindingBuilder this = None →
  create (_componentFactory this) component host = inr cref →
  parse (_parser this) (ComponentRef.template cref) host = inr ast →
  Exists (λ d, TemplateASTNode.bindings d ≠ []) (tdata (root ast)) →
  ∃ s', _compileViewRef this (S fuel) component host viewRefTree parentViewRef
          hostViewNode s
        = Throw TypeError s'.
Proof.
  intros Hbb Hcreate Hparse Hex. cbn [_compileViewRef].
  pose proof (getViewNodes_top this (root ast) s) as Htop.
  rewrite (expected_nodes_no_builder this _ _ Hbb Hex) in Htop.
  destruct Htop as [s' Htop]. exists s'.
  erewrite bind_Ret by (rewrite Hcreate; reflexivity).
  erewrite bind_Ret by (rewrite Hparse; reflexivity).
  by erewrite bind_Throw.
Qed.

(** ** The View orchestrator and its compiler *)

(** C2. The View constructs its Compiler through [Compiler.getInstance]
    with the parser, the component factory and the registry only; the
    instance this call creates has no binding builder, and compiling with
    it a component whose Template AST has a node with a raw binding, as
    the entry component or as a child, fails with the TypeError of the
    call on [undefined]. *)
Theorem View_compiler_fails_on_bindings
    (ComponentFactory_getInstance : RootInjector → nat → ComponentFactory)
    (Parser_getInstance : Document → Parser) (document : Document)
    rootInjector componentsRegistry s view s1 :
  View_instance s = None →
  Compiler_instance s = None →
  View_getInstance ComponentFactory_getInstance Parser_getInstance document
    rootInjector componentsRegistry s = Ret view s1 →
  _parser (_compiler view) = Parser_getInstance document
  ∧ _componentFactory (_compiler view)
    = ComponentFactory_getInstance rootInjector (view_oid view)
  ∧ _componentsRegistry (_compiler view) = componentsRegistry
  ∧ _bindingBuilder (_compiler view) = None
  ∧ ∀ fuel component host viewRefTree parentViewRef hostViewNode cref ast s2,
      create (_componentFactory (_compiler view)) component host = inr cref →
      parse (_parser (_compiler view)) (ComponentRef.template cref) host = inr ast →
      Exists (λ d, TemplateASTNode.bindings d ≠ []) (tdata (root ast)) →
      ∃ s3, _compileViewRef (_compiler view) (S fuel) component host viewRefTree
              parentViewRef hostViewNode s2
            = Throw TypeError s3.
Proof.
  intros Hview Hcompiler Hrun. unfold View_getInstance in Hrun. rewrite Hview in Hrun.
  unfold View_new, bind, new_oid, Compiler_getInstance in Hrun. simpl in Hrun.
  rewrite Hcompiler in Hrun. injection Hrun as <- <-.
  split_and!; try done.
  intros fuel component host viewRefTree parentViewRef hostViewNode cref ast s2
    Hcreate Hparse Hex.
  by eapply compileViewRef_no_builder.
Qed.

Lemma View_compiler_fails_on_bindings_witness :
  ∃ s3, compile
          (mkCompiler 1 Demo.parser Demo.factory Demo.registry None)
          1 (Some 0) 1 initial
        = Throw TypeError s3.
Proof.
  refine (proj2 (proj2 (proj2 (proj2
    (View_compiler_fails_on_bindings (λ _ _, Demo.factory) (λ _, Demo.parser) 0
       0 Demo.registry initial
       (mkView 0 0 Demo.registry Demo.factory Demo.parser
          (mkCompiler 1 Demo.parser Demo.factory Demo.registry None))
       _ eq_refl eq_refl eq_refl))))
    0 (Some 0) 1 None None None (ComponentRef.mk 100 "app" "app-tpl" 1)
    (mkTree (Demo.app_ast 1)) initial eq_refl eq_refl _).
  apply Exists_cons_tl, Exists_cons_hd. done.
Defined.

(** C8. Without an entry component in the registry, [bootstrap] fails with
    an EntryComponentNotRegisteredError and leaves the state as it was: the
    compiler was not invoked, no View Node, View Reference or tree was
    created, and the View holds no View Reference tree it did not hold
    before. *)
Theorem bootstrap_without_entry_component fuel view appHost s :
  getEntryComponent (view_componentsRegistry view) = None →
  bootstrap fuel view appHost s = Throw EntryComponentNotRegisteredError s.
Proof. intros Hentry. unfold bootstrap. by rewrite Hentry. Qed.

Lemma bootstrap_without_entry_component_witness :
  bootstrap 5
    (mkView 1 0 Demo.empty_registry Demo.factory Demo.parser Demo.compiler)
    1 initial
  = Throw EntryComponentNotRegisteredError initial.
Proof. by apply bootstrap_without_entry_component. Defined.

(** ** Singletons *)

Lemma Compiler_getInstance_Some parser componentFactory componentsRegistry
    bindingBuilder instance s :
  Compiler_instance s = Some instance →
  Compiler_getInstance parser componentFactory componentsRegistry bindingBuilder s
  = Ret instance s.
Proof. unfold Compiler_getInstance. by intros ->. Qed.

Lemma Compiler_getInstance_returns parser componentFactory componentsRegistry
    bindingBuilder s :
  ∃ instance s1,
    Compiler_getInstance parser componentFactory componentsRegistry bindingBuilder s
    = Ret instance s1
    ∧ Compiler_instance s1 = Some instance
    ∧ View_instance s1 = View_instance s.
Proof.
  unfold Compiler_getInstance. destruct (Compiler_instance s) eqn:Hs; eauto.
Qed.

Section ViewSingleton.
Variable ComponentFactory_getInstance : RootInjector → nat → ComponentFactory.
Variable Parser_getInstance : Document → Parser.
Variable document : Document.

Lemma View_getInstance_Some rootInjector componentsRegistry instance s :
  View_instance s = Some instance →
  View_getInstance ComponentFactory_getInstance Parser_getInstance document
    rootInjector componentsRegistry s
  = Ret instance s.
Proof. unfold View_getInstance. by intros ->. Qed.

Lemma View_getInstance_returns rootInjector componentsRegistry s :
  ∃ instance s1,
    View_getInstance ComponentFactory_getInstance Parser_getInstance document
      rootInjector componentsRegistry s
    = Ret instance s1
    ∧ View_instance s1 = Some instance.
Proof.
  unfold View_getInstance. destruct (View_instance s) eqn:Hs; eauto.
  unfold View_new, bind, new_oid.
  match goal with
  | |- context [Compiler_getInstance ?p ?f ?r ?b ?s0] =>
      destruct (Compiler_getInstance_returns p f r b s0) as (c & s1 & Hc & _ & _)
  end.
  rewrite Hc. simpl. eauto.
Qed.
End ViewSingleton.

(** C10. [Compiler.getInstance] and [View.getInstance] are singletons: a
    call returns an instance, and every later call, whatever its
    arguments, returns that same instance and changes nothing. *)
Theorem getInstance_singletons
    (ComponentFactory_getInstance : RootInjector → nat → ComponentFactory)
    (Parser_getInstance : Document → Parser) (document : Document) :
  (∀ (first : CompilerArgs) s,
     ∃ instance s1,
       Compiler_getInstance_with first s = Ret instance s1
       ∧ ∀ later : list CompilerArgs,
           mapM Compiler_getInstance_with later s1
           = Ret (replicate (length later) instance) s1)
  ∧ (∀ (first : ViewArgs) s,
       ∃ instance s1,
         View_getInstance_with ComponentFactory_getInstance Parser_getInstance
           document first s = Ret instance s1
         ∧ ∀ later : list ViewArgs,
             mapM (View_getInstance_with ComponentFactory_getInstance
                     Parser_getInstance document) later s1
             = Ret (replicate (length later) instance) s1).
Proof.
  split.
  - intros [[[p f] r] b] s.
    destruct (Compiler_getInstance_returns p f r b s) as (c & s1 & Hc & Hs1 & _).
    exists c, s1. split; [done|].
    induction later as [|[[[p' f'] r'] b'] later IH]; [done|].
    cbn [mapM length replicate].
    erewrite bind_Ret by by apply Compiler_getInstance_Some.
    fold (mapM Compiler_getInstance_with). by erewrite bind_Ret by exact IH.
  - intros [ri reg] s.
    destruct (View_getInstance_returns ComponentFactory_getInstance
                Parser_getInstance document ri reg s) as (v & s1 & Hv & Hs1).
    exists v, s1. split; [done|].
    induction later as [|[ri' reg'] later IH]; [done|].
    cbn [mapM length replicate].
    erewrite bind_Ret by by apply View_getInstance_Some.
    fold (mapM (View_getInstance_with ComponentFactory_getInstance
                  Parser_getInstance document)).
    by erewrite bind_Ret by exact IH.
Qed.

(** ** The compiled tree of View References *)

Lemma compile_Ret_inv this fuel component host s t s' :
  compile this fuel component host s = Ret t s' →
  ∃ sub, compile_post this component host None None None s t s' sub.
Proof. intros Hrun. by eapply compileViewRef_correct. Qed.

Lemma compile_post_in_tree this component host vt p hv s t s' sub r :
  compile_post this component host vt p hv s t s' sub →
  r ∈ tdata sub →
  length (viewRefs s) ≤ r < length (viewRefs s').
Proof. intros Hpost Hr. rewrite (post_refs _ _ _ _ _ _ _ _ _ _ Hpost) in Hr.
  apply elem_of_seq in Hr. lia. Qed.

(** C7. A call of [_compileViewRef] that returns has created the View
    Reference [r].  Without a tree and a parent (the outermost call) it has
    created a new tree with [r] as its root and set the render host of [r]
    to the given host; the tree it returns holds, below [r], every View
    Reference created during the call.  With a tree (every recursive call)
    it returns that same tree, to which the subtree of [r] was added as
    the last child of the given parent, [r] has no render host, and the
    given hosting View Node holds [r]. *)
Theorem compileViewRef_tree_placement this fuel component host viewRefTree
    parentViewRef hostViewNode s t s' :
  _compileViewRef this fuel component host viewRefTree parentViewRef hostViewNode s
  = Ret t s' →
  (∀ vt, viewRefTree = Some vt →
         ∃ T, trees s !! vt = Some (mkTree T)
              ∧ ∀ x, x ∈ tdata T → x < length (viewRefs s)) →
  (∀ hv, hostViewNode = Some hv → data (node hv) < length (viewNodes s)) →
  ∃ vr sub,
    viewRefs s !! length (viewRefs s) = None
    ∧ viewRefs s' !! length (viewRefs s) = Some vr
    ∧ data sub = length (viewRefs s)
    ∧ tdata sub = seq (length (viewRefs s)) (length (viewRefs s') - length (viewRefs s))
    ∧ match viewRefTree with
      | None =>
          parentViewRef = None
          ∧ trees s !! t = None
          ∧ trees s' !! t = Some (mkTree sub)
          ∧ ViewRef.renderHost vr = Some host
      | Some vt =>
          t = vt
          ∧ ViewRef.renderHost vr = None
          ∧ ∃ p T T', parentViewRef = Some p
                      ∧ trees s !! vt = Some (mkTree T)
                      ∧ graft p sub T = Some T'
                      ∧ trees s' !! vt = Some (mkTree T')
      end
    ∧ ∀ hv, hostViewNode = Some hv →
            ∃ vn, viewNodes s' !! data (node hv) = Some vn
                  ∧ ViewNode.viewRef vn = Some (length (viewRefs s)).
Proof.
  intros Hrun Htree Hhost.
  destruct (compileViewRef_correct this fuel _ _ _ _ _ _ _ _ Hrun Htree Hhost)
    as [sub [Hroot Hrefs _ _ _ Hhv (vr & Hvr & _ & Hrh) Hpost]].
  exists vr, sub. split_and!; try done.
  - by apply lookup_ge_None_2.
  - destruct viewRefTree as [vt|].
    + destruct Hpost as (-> & p & T & T' & ? & ? & ? & ?). split_and!; try done.
      by exists p, T, T'.
    + destruct Hpost as (-> & -> & ?). split_and!; try done.
      apply lookup_ge_None_2. lia.
  - intros hv Heq. destruct (Hhv hv Heq) as (vn & _ & Hvn). eauto.
Qed.

Lemma compileViewRef_tree_placement_witness :
  (∃ vr sub,
     viewRefs initial !! 0 = None
     ∧ viewRefs DemoRun.compiled !! 0 = Some vr
     ∧ data sub = 0
     ∧ tdata sub = seq 0 (length (viewRefs DemoRun.compiled) - 0)
     ∧ (@None addr = None
        ∧ trees initial !! 1 = None
        ∧ trees DemoRun.compiled !! 1 = Some (mkTree sub)
        ∧ ViewRef.renderHost vr = Some 1)
     ∧ ∀ hv, @None (Visited addr) = Some hv →
             ∃ vn, viewNodes DemoRun.compiled !! data (node hv) = Some vn
                   ∧ ViewNode.viewRef vn = Some 0)
  ∧ (∃ vr sub,
       viewRefs DemoRun.entered !! 1 = None
       ∧ viewRefs DemoRun.child_compiled !! 1 = Some vr
       ∧ data sub = 1
       ∧ tdata sub = seq 1 (length (viewRefs DemoRun.child_compiled) - 1)
       ∧ (1 = 1
          ∧ ViewRef.renderHost vr = None
          ∧ ∃ p T T', Some 0 = Some p
                      ∧ trees DemoRun.entered !! 1 = Some (mkTree T)
                      ∧ graft p sub T = Some T'
                      ∧ trees DemoRun.child_compiled !! 1 = Some (mkTree T'))
       ∧ ∀ hv, Some (mkVisited false (mkTreeNode 2 [])) = Some hv →
               ∃ vn, viewNodes DemoRun.child_compiled !! data (node hv) = Some vn
                     ∧ ViewNode.viewRef vn = Some 1).
Proof.
  split.
  - apply (compileViewRef_tree_placement Demo.compiler 3 (Some 0) 1 None None None
             initial 1 DemoRun.compiled).
    + vm_compute. reflexivity.
    + intros vt [=].
    + intros hv [=].
  - apply (compileViewRef_tree_placement Demo.compiler 2 (Some 1) 11 (Some 1) (Some 0)
             (Some (mkVisited false (mkTreeNode 2 [])))
             DemoRun.entered 1 DemoRun.child_compiled).
    + vm_compute. reflexivity.
    + intros vt [= <-]. exists (mkTreeNode 0 []). split; [reflexivity|].
      intros x Hx. vm_compute in Hx. apply list_elem_of_singleton in Hx as ->.
      vm_compute. lia.
    + intros hv [= <-]. vm_compute. lia.
Defined.

(** ** Placeholders *)

(** C5, amended. After [compile] returns, in the View Node tree of every
    View Reference of the compiled tree, every View Node that is not the
    root and carries a non-empty componentSelector holds a viewRef, a View
    Reference of the compiled tree. *)
Theorem placeholders_hold_view_refs this fuel component host s t s' :
  compile this fuel component host s = Ret t s' →
  ∃ T, trees s' !! t = Some (mkTree T)
       ∧ ∀ r, r ∈ tdata T →
           ∃ vr NT,
             viewRefs s' !! r = Some vr
             ∧ trees s' !! ViewRef.nodesTree vr = Some (mkTree NT)
             ∧ ∀ v, v ∈ visitsDF (mkTree NT) →
                 ∃ vn, viewNodes s' !! data (node v) = Some vn
                       ∧ (isRoot v = false →
                          truthy (ViewNode.componentSelector vn) = true →
                          ∃ c, ViewNode.viewRef vn = Some c ∧ c ∈ tdata T).
Proof.
  intros [sub Hpost]%compile_Ret_inv.
  destruct (post_tree _ _ _ _ _ _ _ _ _ _ Hpost) as (_ & _ & Ht).
  exists sub. split; [done|]. intros r Hr.
  pose proof (compile_post_in_tree _ _ _ _ _ _ _ _ _ _ _ Hpost Hr) as Hr_range.
  destruct (post_compiled _ _ _ _ _ _ _ _ _ _ Hpost r Hr_range)
    as (vr & NT & Hvr & _ & _ & HNT & _ & _ & Hvisits).
  exists vr, NT. split_and!; try done. intros v Hv.
  rewrite Forall_forall in Hvisits. destruct (Hvisits v Hv) as (vn & Hvn & Hok).
  exists vn. split; [done|]. intros Hroot Htruthy.
  unfold is_placeholder in Hok. rewrite Hroot, Htruthy in Hok. simpl in Hok.
  destruct Hok as (c & vc & Hc & Hlt & Hvc & _). exists c. split; [done|].
  rewrite (post_refs _ _ _ _ _ _ _ _ _ _ Hpost). apply elem_of_seq.
  apply lookup_lt_Some in Hvc. lia.
Qed.

Lemma placeholders_hold_view_refs_witness :
  ∃ T, trees DemoRun.compiled !! 1 = Some (mkTree T)
       ∧ ∀ r, r ∈ tdata T →
           ∃ vr NT,
             viewRefs DemoRun.compiled !! r = Some vr
             ∧ trees DemoRun.compiled !! ViewRef.nodesTree vr = Some (mkTree NT)
             ∧ ∀ v, v ∈ visitsDF (mkTree NT) →
                 ∃ vn, viewNodes DemoRun.compiled !! data (node v) = Some vn
                       ∧ (isRoot v = false →
                          truthy (ViewNode.componentSelector vn) = true →
                          ∃ c, ViewNode.viewRef vn = Some c ∧ c ∈ tdata T).
Proof.
  apply (placeholders_hold_view_refs Demo.compiler 3 (Some 0) 1 initial).
  vm_compute. reflexivity.
Defined.

(** C5 as stated fails: the root View Node of the compiled entry component
    carries the selector [app] and holds no viewRef. *)
Lemma structural_completeness_counterexample :
  compile Demo.compiler 3 (Some 0) 1 initial = Ret 1 DemoRun.compiled
  ∧ ¬ structural_completeness_as_claimed DemoRun.compiled 1.
Proof.
  split; [vm_compute; reflexivity|]. intros Hclaim.
  specialize (Hclaim (mkTreeNode 0 [mkTreeNode 1 []]) 0
    (ViewRef.mk (ComponentRef.mk 100 "app" "app-tpl" 1) 0 (Some 1) true)
    (mkTreeNode 0 [mkTreeNode 1 [mkTreeNode 2 []]; mkTreeNode 3 []]) 0
    (ViewNode.mk 1 (Some "app"%string) [] None)).
  destruct Hclaim as [c Hc]; try done.
  - vm_compute. set_solver.
  - vm_compute. set_solver.
Qed.

(** C6. The callback of the child-discovery traversal does nothing at a
    View Node that is the root of the tree or carries no non-empty
    componentSelector: it does not compile a component for it.
    Accordingly, after [compile] returns, the root View Node of every View
    Reference holds no viewRef, and a View Node that holds one is not a
    root and carries a non-empty selector. *)
Theorem root_is_never_a_placeholder this :
  (∀ fuel viewRefTree viewRef v vn s,
     viewNodes s !! data (node v) = Some vn →
     isRoot v = true ∨ truthy (ViewNode.componentSelector vn) = false →
     discover this fuel viewRefTree viewRef v s = Ret tt s)
  ∧ (∀ fuel component host s t s',
       compile this fuel component host s = Ret t s' →
       ∃ T, trees s' !! t = Some (mkTree T)
            ∧ ∀ r, r ∈ tdata T →
                ∃ vr NT,
                  viewRefs s' !! r = Some vr
                  ∧ trees s' !! ViewRef.nodesTree vr = Some (mkTree NT)
                  ∧ ∀ v, v ∈ visitsDF (mkTree NT) →
                      ∃ vn, viewNodes s' !! data (node v) = Some vn
                            ∧ (isRoot v = true → ViewNode.viewRef vn = None)
                            ∧ (is_Some (ViewNode.viewRef vn) →
                               isRoot v = false
                               ∧ truthy (ViewNode.componentSelector vn) = true)).
Proof.
  split.
  - intros fuel vt r v vn s Hvn Hv. unfold discover.
    erewrite bind_Ret by by apply deref_Some.
    destruct Hv as [-> | ->]; [done|]. by rewrite andb_false_r.
  - intros fuel component host s t s' [sub Hpost]%compile_Ret_inv.
    destruct (post_tree _ _ _ _ _ _ _ _ _ _ Hpost) as (_ & _ & Ht).
    exists sub. split; [done|]. intros r Hr.
    pose proof (compile_post_in_tree _ _ _ _ _ _ _ _ _ _ _ Hpost Hr) as Hr_range.
    destruct (post_compiled _ _ _ _ _ _ _ _ _ _ Hpost r Hr_range)
      as (vr & NT & Hvr & _ & _ & HNT & _ & _ & Hvisits).
    exists vr, NT. split_and!; try done. intros v Hv.
    rewrite Forall_forall in Hvisits. destruct (Hvisits v Hv) as (vn & Hvn & Hok).
    exists vn. split; [done|]. unfold is_placeholder in Hok. split.
    + intros Hroot. by rewrite Hroot in Hok.
    + intros [c Hc]. destruct (isRoot v); simpl in Hok; [congruence|].
      destruct (truthy _); [done|congruence].
Qed.

Lemma root_is_never_a_placeholder_witness :
  discover Demo.compiler 3 1 0 (mkVisited true (mkTreeNode 0 [])) DemoRun.compiled
  = Ret tt DemoRun.compiled
  ∧ ∃ T, trees DemoRun.compiled !! 1 = Some (mkTree T)
         ∧ ∀ r, r ∈ tdata T →
             ∃ vr NT,
               viewRefs DemoRun.compiled !! r = Some vr
               ∧ trees DemoRun.compiled !! ViewRef.nodesTree vr = Some (mkTree NT)
               ∧ ∀ v, v ∈ visitsDF (mkTree NT) →
                   ∃ vn, viewNodes DemoRun.compiled !! data (node v) = Some vn
                         ∧ (isRoot v = true → ViewNode.viewRef vn = None)
                         ∧ (is_Some (ViewNode.viewRef vn) →
                            isRoot v = false
                            ∧ truthy (ViewNode.componentSelector vn) = true).
Proof.
  split.
  - apply (proj1 (root_is_never_a_placeholder Demo.compiler) 3 1 0
             (mkVisited true (mkTreeNode 0 []))
             (ViewNode.mk 1 (Some "app"%string) [] None) DemoRun.compiled).
    + reflexivity.
    + by left.
  - apply (proj2 (root_is_never_a_placeholder Demo.compiler) 3 (Some 0) 1 initial).
    vm_compute. reflexivity.
Defined.

(** ** Failures of a compilation *)

Lemma throws_ret {A} E (a : A) : throws E (ret a).
Proof. by intros s e s'. Qed.

Lemma throws_throw {A} (E : Error → Prop) e : E e → throws E (@throw A e).
Proof. intros He s e' s' [= <- _]. done. Qed.

Lemma throws_bind {A B} E (m : M A) (k : A → M B) :
  throws E m → (∀ a, throws E (k a)) → throws E (bind m k).
Proof.
  intros Hm Hk s e s'. unfold bind. destruct (m s) as [a s1|e1 s1|] eqn:Hms.
  - apply Hk.
  - intros [= <- _]. by eapply Hm.
  - done.
Qed.

Lemma throws_call {A} (E : Error → Prop) (r : Error + A) :
  (∀ e, r = inl e → E e) → throws E (call r).
Proof. intros Hr s e s'. destruct r; simpl; [|done]. intros [= <- _]. auto. Qed.

Lemma throws_modify E f : throws E (modify f).
Proof. by intros s e s'. Qed.

Lemma throws_deref {A} (E : Error → Prop) (store : State → list A) a :
  E TypeError → throws E (deref store a).
Proof.
  intros He s e s'. unfold deref. destruct (store s !! a); [done|].
  by intros [= <- _].
Qed.

Lemma throws_forEach {A} E (f : A → M unit) l :
  (∀ x, x ∈ l → throws E (f x)) → throws E (forEach f l).
Proof.
  induction l as [|x l IH]; intros Hf; simpl.
  - apply throws_ret.
  - apply throws_bind; [apply Hf; set_solver|]. intros _. apply IH.
    intros y ?. apply Hf. set_solver.
Qed.

Lemma throws_mapM {A B} E (f : A → M B) l :
  (∀ x, throws E (f x)) → throws E (mapM f l).
Proof.
  intros Hf. induction l as [|x l IH]; simpl.
  - apply throws_ret.
  - apply throws_bind; [apply Hf|]. intros y.
    apply throws_bind; [apply IH|]. intros ys. apply throws_ret.
Qed.

Lemma throws_Tree_add (E : Error → Prop) t d parent :
  E TypeError → E StructuralError → throws E (Tree_add t d parent).
Proof.
  intros HT HS. unfold Tree_add. apply throws_bind; [by apply throws_deref|].
  intros tree. destruct parent as [p|]; [|by apply throws_throw].
  destruct (graft _ _ _); [apply throws_modify|by apply throws_throw].
Qed.

Lemma throws_update_ViewNode (E : Error → Prop) a f :
  E TypeError → throws E (update_ViewNode a f).
Proof.
  intros HT. apply throws_bind; [by apply throws_deref|]. intros _.
  apply throws_modify.
Qed.

Lemma throws_update_ViewRef (E : Error → Prop) r f :
  E TypeError → throws E (update_ViewRef r f).
Proof.
  intros HT. apply throws_bind; [by apply throws_deref|]. intros _.
  apply throws_modify.
Qed.

Section CompileErrors.
Variable this : Compiler.

Lemma compile_error_TypeError : compile_error this TypeError.
Proof. by left. Qed.

Lemma compile_error_StructuralError : compile_error this StructuralError.
Proof. right. by left. Qed.

Lemma throws_buildViewNode d :
  throws (compile_error this) (_buildViewNode this d).
Proof.
  unfold _buildViewNode. apply throws_bind; [by intros s e s'|]. intros a.
  apply throws_bind; [apply throws_update_ViewNode, compile_error_TypeError|].
  intros _. apply throws_bind.
  - apply throws_mapM. intros raw.
    destruct (_bindingBuilder this) as [bb|] eqn:Hbb.
    + apply throws_call. intros e He. do 4 right. by exists bb, raw, a.
    + apply throws_throw, compile_error_TypeError.
  - intros bs.
    apply throws_bind; [apply throws_update_ViewNode, compile_error_TypeError|].
    intros _. apply throws_ret.
Qed.

Lemma throws_getViewNodes ast parent viewNodesTree :
  throws (compile_error this) (_getViewNodes this ast parent viewNodesTree).
Proof.
  revert parent viewNodesTree. induction ast as [d cs IH] using TreeNode_ind.
  intros parent viewNodesTree. cbn [_getViewNodes].
  apply throws_bind; [apply throws_buildViewNode|]. intros a.
  apply throws_bind.
  - destruct viewNodesTree as [t|]; [|destruct parent].
    + apply throws_bind; [|intros; apply throws_ret].
      apply throws_Tree_add;
        [apply compile_error_TypeError|apply compile_error_StructuralError].
    + apply throws_throw, compile_error_TypeError.
    + by intros s e s'.
  - intros t. apply throws_bind; [|intros; apply throws_ret].
    apply throws_forEach. intros c Hc. rewrite Forall_forall in IH.
    apply throws_bind; [by apply IH|]. intros; apply throws_ret.
Qed.

Lemma throws_compileViewRef fuel component host viewRefTree parentViewRef
    hostViewNode :
  throws (compile_error this)
    (_compileViewRef this fuel component host viewRefTree parentViewRef hostViewNode).
Proof.
  revert component host viewRefTree parentViewRef hostViewNode.
  induction fuel as [|fuel IH]; intros component host viewRefTree parentViewRef
    hostViewNode; [by intros s e s'|].
  cbn [_compileViewRef].
  apply throws_bind.
  { apply throws_call. intros e He. do 2 right. left. eauto. }
  intros cref. apply throws_bind.
  { apply throws_call. intros e He. do 3 right. left. eauto. }
  intros ast. apply throws_bind; [apply throws_getViewNodes|]. intros nt.
  apply throws_bind; [by intros s e s'|]. intros r.
  apply throws_bind.
  { destruct viewRefTree as [t|]; [|destruct parentViewRef].
    - apply throws_bind; [|intros; apply throws_ret].
      apply throws_Tree_add;
        [apply compile_error_TypeError|apply compile_error_StructuralError].
    - apply throws_throw, compile_error_TypeError.
    - apply throws_bind; [by intros s e s'|]. intros t.
      apply throws_bind; [|intros; apply throws_ret].
      apply throws_update_ViewRef, compile_error_TypeError. }
  intros vt. apply throws_bind.
  { destruct hostViewNode; [|apply throws_ret].
    apply throws_update_ViewNode, compile_error_TypeError. }
  intros _. apply throws_bind; [apply throws_deref, compile_error_TypeError|].
  intros vr. apply throws_bind.
  { apply throws_bind; [apply throws_deref, compile_error_TypeError|].
    intros tree. apply throws_forEach. intros v _.
    apply throws_bind; [apply throws_deref, compile_error_TypeError|]. intros vn.
    destruct (_ && _); [|apply throws_ret].
    apply throws_bind; [apply IH|]. intros; apply throws_ret. }
  intros _. apply throws_bind; [|intros; apply throws_ret].
  apply throws_bind; [apply throws_update_ViewRef, compile_error_TypeError|].
  intros _. apply throws_modify.
Qed.
End CompileErrors.

(** C1, amended. The compiler does not check what the registry returns for
    a selector.  At a placeholder whose selector is not registered it calls
    the component factory with [undefined], and a failure of the factory
    there is the failure of the traversal step.  A compilation that returns
    a tree has had every lookup result accepted by the factory.  An error
    [compile] ends with is a TypeError, a StructuralError, or an error of
    the factory, the parser or the binding builder: the compiler signals no
    UnknownComponentError of its own. *)
Theorem unresolved_selector_reaches_factory this :
  (∀ fuel viewRefTree viewRef v vn e s,
     viewNodes s !! data (node v) = Some vn →
     is_placeholder v vn = true →
     getBySelector (_componentsRegistry this)
       (default ""%string (ViewNode.componentSelector vn)) = None →
     create (_componentFactory this) None (ViewNode.element vn) = inl e →
     discover this (S fuel) viewRefTree viewRef v s = Throw e s)
  ∧ (∀ fuel component host s t s',
       compile this fuel component host s = Ret t s' →
       ∃ T, trees s' !! t = Some (mkTree T)
            ∧ ∀ r, r ∈ tdata T →
                ∃ vr NT,
                  viewRefs s' !! r = Some vr
                  ∧ trees s' !! ViewRef.nodesTree vr = Some (mkTree NT)
                  ∧ ∀ v, v ∈ visitsDF (mkTree NT) →
                      ∃ vn, viewNodes s' !! data (node v) = Some vn
                            ∧ (is_placeholder v vn = true →
                               ∃ cref,
                                 create (_componentFactory this)
                                   (getBySelector (_componentsRegistry this)
                                      (default ""%string
                                         (ViewNode.componentSelector vn)))
                                   (ViewNode.element vn)
                                 = inr cref))
  ∧ (∀ fuel component host s e s',
       compile this fuel component host s = Throw e s' →
       compile_error this e).
Proof.
  split_and!.
  - intros fuel vt r v vn e s Hvn Hph Hsel Hcreate. unfold discover.
    erewrite bind_Ret by by apply deref_Some.
    unfold is_placeholder in Hph. rewrite Hph, Hsel.
    erewrite bind_Throw; [done|]. cbn [_compileViewRef].
    erewrite bind_Throw; [done|]. by rewrite Hcreate.
  - intros fuel component host s t s' [sub Hpost]%compile_Ret_inv.
    destruct (post_tree _ _ _ _ _ _ _ _ _ _ Hpost) as (_ & _ & Ht).
    exists sub. split; [done|]. intros r Hr.
    pose proof (compile_post_in_tree _ _ _ _ _ _ _ _ _ _ _ Hpost Hr) as Hr_range.
    destruct (post_compiled _ _ _ _ _ _ _ _ _ _ Hpost r Hr_range)
      as (vr & NT & Hvr & _ & _ & HNT & _ & _ & Hvisits).
    exists vr, NT. split_and!; try done. intros v Hv.
    rewrite Forall_forall in Hvisits. destruct (Hvisits v Hv) as (vn & Hvn & Hok).
    exists vn. split; [done|]. intros Hph. rewrite Hph in Hok.
    destruct Hok as (c & vc & _ & _ & _ & Hcreate). eauto.
  - intros fuel component host s e s' Hrun.
    by eapply throws_compileViewRef.
Qed.

Lemma unresolved_selector_reaches_factory_witness :
  discover Demo.compiler 1 1 0 (mkVisited false (mkTreeNode 1 [])) DemoRun.broken
  = Throw TypeError DemoRun.broken
  ∧ (∃ T, trees DemoRun.compiled !! 1 = Some (mkTree T)
          ∧ ∀ r, r ∈ tdata T →
              ∃ vr NT,
                viewRefs DemoRun.compiled !! r = Some vr
                ∧ trees DemoRun.compiled !! ViewRef.nodesTree vr = Some (mkTree NT)
                ∧ ∀ v, v ∈ visitsDF (mkTree NT) →
                    ∃ vn, viewNodes DemoRun.compiled !! data (node v) = Some vn
                          ∧ (is_placeholder v vn = true →
                             ∃ cref,
                               create Demo.factory
                                 (getBySelector Demo.registry
                                    (default ""%string
                                       (ViewNode.componentSelector vn)))
                                 (ViewNode.element vn)
                               = inr cref))
  ∧ compile_error Demo.compiler TypeError.
Proof.
  split_and!.
  - apply (proj1 (unresolved_selector_reaches_factory Demo.compiler) 0 1 0
             (mkVisited false (mkTreeNode 1 []))
             (ViewNode.mk 30 (Some "missing"%string) [] None)).
    all: reflexivity.
  - apply (proj1 (proj2 (unresolved_selector_reaches_factory Demo.compiler))
             3 (Some 0) 1 initial).
    vm_compute. reflexivity.
  - apply (proj2 (proj2 (unresolved_selector_reaches_factory Demo.compiler))
             3 (Some 2) 1 initial TypeError DemoRun.broken).
    vm_compute. reflexivity.
Defined.

(** C1 as stated fails: the template of [broken] holds a placeholder for
    [missing], which the registry does not resolve; the factory fails on
    [undefined] with its own TypeError, and that is what [compile] ends
    with. *)
Lemma unknown_component_counterexample :
  compile Demo.compiler 3 (Some 2) 1 initial = Throw TypeError DemoRun.broken
  ∧ ¬ unknown_component_as_claimed Demo.compiler 3 (Some 2) 1 initial.
Proof.
  split; [vm_compute; reflexivity|]. intros Hclaim.
  destruct (Hclaim (ComponentRef.mk 102 "broken" "broken-tpl" 1)
              (mkTree (Demo.broken_ast 1))
              (TemplateASTNode.mk 30 (Some "missing"%string) [] None)
              "missing"%string) as [s' Hs']; try reflexivity.
  - vm_compute. set_solver.
  - vm_compute in Hs'. discriminate.
Qed.

(** ** What a compilation writes to the trace, whatever its outcome *)

Section Emits.
Variable P : Event → Prop.

Lemma emits_same {A} (m : M A) :
  (∀ s, match m s with
        | Ret _ s' | Throw _ s' => trace s' = trace s
        | OutOfFuel => True
        end) →
  emits P m.
Proof.
  intros Hm s. specialize (Hm s). destruct (m s); [| |done].
  all: exists []; by rewrite app_nil_r.
Qed.

Lemma emits_ret {A} (a : A) : emits P (ret a).
Proof. by apply emits_same. Qed.

Lemma emits_throw {A} e : emits P (@throw A e).
Proof. by apply emits_same. Qed.

Lemma emits_call {A} (r : Error + A) : emits P (call r).
Proof. apply emits_same. intros s. by destruct r. Qed.

Lemma emits_deref {A} (store : State → list A) a : emits P (deref store a).
Proof. apply emits_same. intros s. unfold deref. by destruct (store s !! a). Qed.

Lemma emits_log e : P e → emits P (modify (log e)).
Proof. intros He s. exists [e]. split; [done|]. by constructor. Qed.

Lemma emits_bind {A B} (m : M A) (k : A → M B) :
  emits P m → (∀ a, emits P (k a)) → emits P (bind m k).
Proof.
  intros Hm Hk s. unfold bind. specialize (Hm s).
  destruct (m s) as [a s1|e s1|]; [|done..].
  destruct Hm as (L1 & HL1 & HP1). specialize (Hk a s1).
  destruct (k a s1) as [b s2|e s2|]; [| |done].
  all: destruct Hk as (L2 & HL2 & HP2); exists (L1 ++ L2);
    rewrite HL2, HL1, app_assoc; split; [done|by apply Forall_app].
Qed.

Lemma emits_forEach {A} (f : A → M unit) l :
  (∀ x, emits P (f x)) → emits P (forEach f l).
Proof.
  intros Hf. induction l as [|x l IH]; simpl; [apply emits_ret|].
  apply emits_bind; [apply Hf|]. by intros _.
Qed.

Lemma emits_mapM {A B} (f : A → M B) l :
  (∀ x, emits P (f x)) → emits P (mapM f l).
Proof.
  intros Hf. induction l as [|x l IH]; simpl; [apply emits_ret|].
  apply emits_bind; [apply Hf|]. intros y.
  apply emits_bind; [apply IH|]. intros ys. apply emits_ret.
Qed.

Lemma emits_update_ViewNode a f : emits P (update_ViewNode a f).
Proof.
  apply emits_bind; [apply emits_deref|]. intros _. by apply emits_same.
Qed.

Lemma emits_update_ViewRef r f : emits P (update_ViewRef r f).
Proof.
  apply emits_bind; [apply emits_deref|]. intros _. by apply emits_same.
Qed.

Lemma emits_Tree_add t d parent : emits P (Tree_add t d parent).
Proof.
  apply emits_bind; [apply emits_deref|]. intros tree.
  destruct parent; [|apply emits_throw].
  destruct (graft _ _ _); [by apply emits_same|apply emits_throw].
Qed.

Lemma emits_new_Tree d : emits P (new_Tree d).
Proof. by apply emits_same. Qed.

Hypothesis P_NewViewNode : ∀ a, P (EvNewViewNode a).
Hypothesis P_NewViewRef : ∀ r, P (EvNewViewRef r).
Hypothesis P_SetCompiled : ∀ r, P (EvSetCompiled r true).

Variable this : Compiler.

Lemma emits_buildViewNode d : emits P (_buildViewNode this d).
Proof.
  unfold _buildViewNode. apply emits_bind.
  { intros s. eexists [_]. split; [reflexivity|]. by constructor. }
  intros a. apply emits_bind; [apply emits_update_ViewNode|]. intros _.
  apply emits_bind.
  - apply emits_mapM. intros raw.
    destruct (_bindingBuilder this); [apply emits_call|apply emits_throw].
  - intros bs. apply emits_bind; [apply emits_update_ViewNode|]. intros _.
    apply emits_ret.
Qed.

Lemma emits_getViewNodes ast parent viewNodesTree :
  emits P (_getViewNodes this ast parent viewNodesTree).
Proof.
  revert parent viewNodesTree. induction ast as [d cs IH] using TreeNode_ind.
  intros parent viewNodesTree. cbn [_getViewNodes].
  apply emits_bind; [apply emits_buildViewNode|]. intros a.
  apply emits_bind.
  - destruct viewNodesTree as [t|]; [|destruct parent].
    + apply emits_bind; [apply emits_Tree_add|intros; apply emits_ret].
    + apply emits_throw.
    + apply emits_new_Tree.
  - intros t. apply emits_bind; [|intros; apply emits_ret].
    induction IH as [|c cs Hc _ IHcs]; simpl; [apply emits_ret|].
    apply emits_bind; [|by intros _].
    apply emits_bind; [apply Hc|intros; apply emits_ret].
Qed.

Lemma emits_compileViewRef fuel component host viewRefTree parentViewRef
    hostViewNode :
  emits P
    (_compileViewRef this fuel component host viewRefTree parentViewRef hostViewNode).
Proof.
  revert component host viewRefTree parentViewRef hostViewNode.
  induction fuel as [|fuel IH]; intros component host viewRefTree parentViewRef
    hostViewNode; [by intros s|].
  cbn [_compileViewRef].
  apply emits_bind; [apply emits_call|]. intros cref.
  apply emits_bind; [apply emits_call|]. intros ast.
  apply emits_bind; [apply emits_getViewNodes|]. intros nt.
  apply emits_bind.
  { intros s. eexists [_]. split; [reflexivity|]. by constructor. }
  intros r. apply emits_bind.
  { destruct viewRefTree as [t|]; [|destruct parentViewRef].
    - apply emits_bind; [apply emits_Tree_add|intros; apply emits_ret].
    - apply emits_throw.
    - apply emits_bind; [apply emits_new_Tree|]. intros t.
      apply emits_bind; [apply emits_update_ViewRef|intros; apply emits_ret]. }
  intros vt. apply emits_bind.
  { destruct hostViewNode; [apply emits_update_ViewNode|apply emits_ret]. }
  intros _. apply emits_bind; [apply emits_deref|]. intros vr.
  apply emits_bind.
  { apply emits_bind; [apply emits_deref|]. intros tree.
    apply emits_forEach. intros v.
    apply emits_bind; [apply emits_deref|]. intros vn.
    destruct (_ && _); [|apply emits_ret].
    apply emits_bind; [apply IH|intros; apply emits_ret]. }
  intros _. apply emits_bind; [|intros; apply emits_ret].
  apply emits_bind; [apply emits_update_ViewRef|]. intros _.
  by apply emits_log.
Qed.
End Emits.

(** Whatever its outcome, a compilation makes no lifecycle call and never
    writes [false] to a [compiled] flag. *)
Lemma compile_Throw_trace this fuel component host s e s' :
  compile this fuel component host s = Throw e s' →
  ∃ L, trace s' = trace s ++ L
       ∧ Forall (λ ev, is_lifecycle ev = false ∧ ∀ r, ev ≠ EvSetCompiled r false) L.
Proof.
  intros Hrun.
  pose proof (emits_compileViewRef
                (λ ev, is_lifecycle ev = false ∧ ∀ r, ev ≠ EvSetCompiled r false)
                ltac:(done) ltac:(done) ltac:(done)
                this fuel component host None None None s) as Hemits.
  unfold compile in Hrun. by rewrite Hrun in Hemits.
Qed.

(** ** The trace of a compilation *)

Section TraceFacts.
Variable nodes : addr → list addr.

Lemma event_of_app rs1 rs2 e :
  event_of nodes (rs1 ++ rs2) e ↔ event_of nodes rs1 e ∨ event_of nodes rs2 e.
Proof. unfold event_of. set_solver. Qed.

Lemma pass_trace_events n e :
  e ∈ pass_trace nodes n ↔ event_of nodes (tdata n) e.
Proof.
  induction n as [r cs IH] using TreeNode_ind. rewrite tdata_node.
  change (r :: fdata cs) with ([r] ++ fdata cs). rewrite event_of_app.
  cbn [pass_trace].
  assert (e ∈ flat_map (pass_trace nodes) cs ↔ event_of nodes (fdata cs) e) as Hcs.
  { clear r. induction IH as [|c cs Hc _ IHcs]; simpl.
    - unfold event_of. set_solver.
    - rewrite fdata_cons, event_of_app, elem_of_app. by rewrite Hc, IHcs. }
  rewrite elem_of_app, elem_of_cons, elem_of_app, Hcs, list_elem_of_fmap.
  unfold event_of at 1. set_solver.
Qed.

Lemma flat_map_pass_trace_events cs e :
  e ∈ flat_map (pass_trace nodes) cs ↔ event_of nodes (fdata cs) e.
Proof.
  induction cs as [|c cs IH]; simpl.
  - unfold event_of. set_solver.
  - by rewrite fdata_cons, event_of_app, elem_of_app, pass_trace_events, IH.
Qed.

Lemma event_of_SetCompiled rs r :
  event_of nodes rs (EvSetCompiled r true) → r ∈ rs.
Proof. intros (r' & Hr' & [?|[[= ->]|(? & ? & ?)]]); done. Qed.
End TraceFacts.

Lemma tdata_subtree {A} (n m : TreeNode A) x :
  m ∈ preorder n → x ∈ tdata m → x ∈ tdata n.
Proof.
  induction n as [d cs IH] using TreeNode_ind. cbn [preorder].
  intros [->|Hm]%elem_of_cons; [done|]. intros Hx. rewrite tdata_node.
  apply elem_of_cons. right. clear d.
  induction IH as [|c cs Hc _ IHcs]; [set_solver|]. simpl in Hm.
  rewrite fdata_cons. apply elem_of_app in Hm as [Hm|Hm]; set_solver.
Qed.

(** The trace of a subtree is a segment of the trace of the tree, and no
    other event marks a View Reference of the subtree as compiled. *)
Lemma pass_trace_at nodes (n : TreeNode addr) :
  NoDup (tdata n) →
  ∀ m, m ∈ preorder n →
    ∃ L1 L2, pass_trace nodes n = L1 ++ pass_trace nodes m ++ L2
             ∧ ∀ r, r ∈ tdata m →
                 (EvSetCompiled r true ∉ L1) ∧ (EvSetCompiled r true ∉ L2).
Proof.
  induction n as [d cs IH] using TreeNode_ind. intros Hnd m.
  cbn [preorder]. intros [->|Hm]%elem_of_cons.
  { exists [], []. rewrite app_nil_r. split; [done|]. set_solver. }
  rewrite tdata_node in Hnd. apply NoDup_cons in Hnd as [Hd Hnd].
  assert (∃ L1 L2,
            flat_map (pass_trace nodes) cs = L1 ++ pass_trace nodes m ++ L2
            ∧ ∀ r, r ∈ tdata m →
                r ∈ fdata cs
                ∧ (EvSetCompiled r true ∉ L1) ∧ (EvSetCompiled r true ∉ L2))
    as (L1 & L2 & Hcs & Hout).
  { clear d Hd. induction IH as [|c cs Hc _ IHcs]; [set_solver|].
    simpl in Hm. rewrite fdata_cons in Hnd.
    apply NoDup_app in Hnd as (Hnd_c & Hdisj & Hnd_cs).
    apply elem_of_app in Hm as [Hm|Hm].
    - destruct (Hc Hnd_c m Hm) as (L1 & L2 & Heq & Hout).
      exists L1, (L2 ++ flat_map (pass_trace nodes) cs). simpl.
      rewrite Heq, <- !app_assoc. split; [done|]. intros r Hr.
      destruct (Hout r Hr) as [? ?]. rewrite fdata_cons.
      pose proof (tdata_subtree _ _ _ Hm Hr) as Hrc.
      split_and!; [set_solver|done|].
      rewrite elem_of_app, flat_map_pass_trace_events.
      intros [?|Hin%event_of_SetCompiled]; [done|]. by eapply Hdisj.
    - destruct (IHcs Hnd_cs Hm) as (L1 & L2 & Heq & Hout).
      exists (pass_trace nodes c ++ L1), L2. simpl.
      rewrite Heq, <- !app_assoc. split; [done|]. intros r Hr.
      destruct (Hout r Hr) as (Hrcs & ? & ?). rewrite fdata_cons.
      split_and!; [set_solver| |done].
      rewrite elem_of_app, pass_trace_events.
      intros [Hin%event_of_SetCompiled|?]; [|done]. by eapply Hdisj. }
  exists (map EvNewViewNode (nodes d) ++ EvNewViewRef d :: L1),
    (L2 ++ [EvSetCompiled d true]).
  cbn [pass_trace]. rewrite Hcs, <- !app_assoc. split; [done|].
  intros r Hr. destruct (Hout r Hr) as (Hrcs & ? & ?). split.
  - rewrite elem_of_app, elem_of_cons, list_elem_of_fmap. set_solver.
  - rewrite elem_of_app, list_elem_of_singleton. intros [?|[= ->]]; done.
Qed.

(** ** Bootstrap *)

Lemma concat_zip_levels {A} (l1 l2 : list (list (TreeNode A))) :
  concat (zip_levels l1 l2) ≡ₚ concat l1 ++ concat l2.
Proof.
  revert l2. induction l1 as [|x l1 IH]; intros [|y l2]; simpl.
  - done.
  - done.
  - by rewrite app_nil_r.
  - rewrite IH. rewrite <- !app_assoc. f_equiv.
    rewrite !app_assoc. f_equiv. apply Permutation_app_comm.
Qed.

(** The breadth-first order visits the nodes of the tree, each once. *)
Lemma levels_preorder {A} (n : TreeNode A) : concat (levels n) ≡ₚ preorder n.
Proof.
  induction n as [d cs IH] using TreeNode_ind. cbn [levels preorder concat].
  simpl. f_equiv. induction IH as [|c cs Hc _ IHcs]; [done|]. simpl.
  by rewrite concat_zip_levels, Hc, IHcs.
Qed.

Lemma visitsBF_data {A} (t : Tree A) :
  map (data ∘ node) (visitsBF t) = map data (concat (levels (root t))).
Proof.
  unfold visitsBF. destruct (concat (levels (root t))) as [|r rest]; [done|].
  simpl. f_equal. by rewrite map_map.
Qed.

Lemma forEach_ViewRef_init vs :
  ∀ s, (∀ v, v ∈ vs → data (node v) < length (viewRefs s)) →
       forEach (λ treeNode : Visited addr,
                  let viewRef := data (node treeNode) in ViewRef_init viewRef) vs s
       = Ret tt (log_all (map EvInit (map (data ∘ node) vs)) s).
Proof.
  induction vs as [|v vs IH]; intros s Hvs.
  - simpl. unfold ret, log_all. destruct s; simpl. by rewrite app_nil_r.
  - destruct (lookup_lt_is_Some_2 (viewRefs s) (data (node v))) as [vr Hvr].
    { apply Hvs. set_solver. }
    cbn [forEach]. erewrite bind_Ret; last first.
    { unfold ViewRef_init. erewrite bind_Ret by by apply deref_Some. reflexivity. }
    rewrite IH by (intros v' ?; apply Hvs; set_solver).
    unfold log_all, log. simpl. by rewrite <- app_assoc.
Qed.

Lemma pass_trace_not_lifecycle nodes n :
  Forall (λ e, is_lifecycle e = false) (pass_trace nodes n).
Proof.
  apply Forall_forall. intros e (r & _ & [->|[->|(? & _ & ->)]])%pass_trace_events; done.
Qed.

(** After a compilation that returned, [bootstrap] runs to its end. *)
Lemma bootstrap_after_compile fuel view appHost component s t s1 sub :
  getEntryComponent (view_componentsRegistry view) = Some component →
  compile (_compiler view) fuel (Some component) appHost s = Ret t s1 →
  compile_post (_compiler view) (Some component) appHost None None None s t s1 sub →
  bootstrap fuel view appHost s
  = Ret tt (log (EvUpdate (data sub))
              (log_all (map EvInit (map data (concat (levels sub))))
                 (outcome_state (set_viewRefTree t s1)))).
Proof.
  intros Hentry Hrun Hpost.
  destruct (post_tree _ _ _ _ _ _ _ _ _ _ Hpost) as (_ & _ & Ht).
  pose proof (post_refs _ _ _ _ _ _ _ _ _ _ Hpost) as Hrefs.
  unfold bootstrap. rewrite Hentry. cbn [assertEntryComponentRegistered].
  erewrite bind_Ret by reflexivity. erewrite bind_Ret by exact Hrun.
  erewrite bind_Ret by reflexivity. erewrite bind_Ret by reflexivity.
  erewrite bind_Ret; last first.
  { unfold traverseBF. erewrite bind_Ret by (apply deref_Some; exact Ht).
    apply forEach_ViewRef_init. intros v Hv.
    apply (list_elem_of_fmap_2 (data ∘ node)) in Hv. rewrite visitsBF_data in Hv.
    simpl in Hv. rewrite levels_preorder in Hv. fold (tdata sub) in Hv.
    rewrite Hrefs in Hv. apply elem_of_seq in Hv. simpl. lia. }
  rewrite visitsBF_data.
  erewrite bind_Ret by reflexivity.
  erewrite bind_Ret by (apply deref_Some; exact Ht).
  destruct (lookup_lt_is_Some_2 (viewRefs s1) (data sub)) as [vr Hvr].
  { rewrite (post_root _ _ _ _ _ _ _ _ _ _ Hpost).
    assert (data sub ∈ tdata sub) as Hin by (destruct sub; rewrite tdata_node; set_solver).
    rewrite Hrefs in Hin. apply elem_of_seq in Hin. lia. }
  unfold ViewRef_update. erewrite bind_Ret by (apply deref_Some; exact Hvr).
  reflexivity.
Qed.

(** A [bootstrap] that returns had an entry component, and its compilation
    returned. *)
Lemma bootstrap_Ret_inv fuel view appHost s u s' :
  bootstrap fuel view appHost s = Ret u s' →
  ∃ component t s1,
    getEntryComponent (view_componentsRegistry view) = Some component
    ∧ compile (_compiler view) fuel (Some component) appHost s = Ret t s1.
Proof.
  unfold bootstrap.
  destruct (getEntryComponent (view_componentsRegistry view)) as [c|] eqn:Hentry;
    [|discriminate].
  cbn [assertEntryComponentRegistered]. erewrite bind_Ret by reflexivity.
  unfold bind at 1.
  destruct (compile (_compiler view) fuel (Some c) appHost s) as [t s1| |] eqn:Hrun;
    [|discriminate..].
  intros _. by exists c, t, s1.
Qed.

(** A [bootstrap] that fails has made no lifecycle call. *)
Lemma bootstrap_Throw_trace fuel view appHost s e s' :
  bootstrap fuel view appHost s = Throw e s' →
  ∃ L, trace s' = trace s ++ L ∧ Forall (λ ev, is_lifecycle ev = false) L.
Proof.
  intros Hrun.
  destruct (getEntryComponent (view_componentsRegistry view)) as [c|] eqn:Hentry.
  - destruct (compile (_compiler view) fuel (Some c) appHost s) as [t s1|e1 s1|]
      eqn:Hcompile.
    + destruct (compile_Ret_inv _ _ _ _ _ _ _ Hcompile) as [sub Hpost].
      rewrite (bootstrap_after_compile _ _ _ _ _ _ _ _ Hentry Hcompile Hpost) in Hrun.
      discriminate.
    + unfold bootstrap in Hrun. rewrite Hentry in Hrun.
      cbn [assertEntryComponentRegistered] in Hrun.
      erewrite bind_Ret in Hrun by reflexivity.
      erewrite bind_Throw in Hrun by exact Hcompile. injection Hrun as <- <-.
      destruct (compile_Throw_trace _ _ _ _ _ _ _ Hcompile) as (L & HL & HP).
      exists L. split; [done|]. eapply Forall_impl; [exact HP|]. by intros ev [? _].
    + unfold bootstrap in Hrun. rewrite Hentry in Hrun.
      cbn [assertEntryComponentRegistered] in Hrun.
      erewrite bind_Ret in Hrun by reflexivity.
      unfold bind in Hrun. rewrite Hcompile in Hrun. discriminate.
  - unfold bootstrap in Hrun. rewrite Hentry in Hrun. injection Hrun as <- <-.
    exists []. by rewrite app_nil_r.
Qed.

(** C3. In every run of [bootstrap], every [init] is over before the only
    [update] begins.  When the entry component is registered and the
    compiler returns, [bootstrap] returns, and its trace is that of the
    compilation, which holds no lifecycle call, followed by one [init] for
    every View Reference of the compiled tree, in breadth-first order,
    followed by one [update], on the root View Reference.  Every run of
    [bootstrap] that returns is such a run, and a run that fails has made
    no lifecycle call at all. *)
Theorem bootstrap_inits_then_updates fuel view appHost s :
  (∀ component t s1,
     getEntryComponent (view_componentsRegistry view) = Some component →
     compile (_compiler view) fuel (Some component) appHost s = Ret t s1 →
     ∃ T s',
       bootstrap fuel view appHost s = Ret tt s'
       ∧ View_viewRefTree s' = Some t
       ∧ trees s' !! t = Some (mkTree T)
       ∧ tdata T = seq (length (viewRefs s)) (length (viewRefs s') - length (viewRefs s))
       ∧ trace s'
         = trace s ++ pass_trace (nodes_of s') T
           ++ map EvInit (map data (concat (levels T))) ++ [EvUpdate (data T)]
       ∧ Forall (λ e, is_lifecycle e = false) (pass_trace (nodes_of s') T)
       ∧ map data (concat (levels T)) ≡ₚ tdata T
       ∧ NoDup (tdata T))
  ∧ (∀ u s', bootstrap fuel view appHost s = Ret u s' →
       ∃ component t s1,
         getEntryComponent (view_componentsRegistry view) = Some component
         ∧ compile (_compiler view) fuel (Some component) appHost s = Ret t s1)
  ∧ (∀ e s', bootstrap fuel view appHost s = Throw e s' →
       ∃ L, trace s' = trace s ++ L ∧ Forall (λ ev, is_lifecycle ev = false) L).
Proof.
  split_and!.
  - intros component t s1 Hentry Hrun.
    destruct (compile_Ret_inv _ _ _ _ _ _ _ Hrun) as [sub Hpost].
    destruct (post_tree _ _ _ _ _ _ _ _ _ _ Hpost) as (_ & _ & Ht).
    pose proof (post_refs _ _ _ _ _ _ _ _ _ _ Hpost) as Hrefs.
    pose proof (post_trace _ _ _ _ _ _ _ _ _ _ Hpost) as Htrace.
    eexists sub, _. split; [by eapply bootstrap_after_compile|]. split_and!.
    + done.
    + done.
    + done.
    + simpl. rewrite Htrace, <- !app_assoc. done.
    + apply pass_trace_not_lifecycle.
    + unfold tdata. by rewrite levels_preorder.
    + rewrite Hrefs. apply NoDup_seq.
  - apply bootstrap_Ret_inv.
  - apply bootstrap_Throw_trace.
Qed.

Lemma bootstrap_inits_then_updates_witness :
  ∃ T s',
    bootstrap 3 Demo.view 1 initial = Ret tt s'
    ∧ View_viewRefTree s' = Some 1
    ∧ trees s' !! 1 = Some (mkTree T)
    ∧ tdata T = seq (length (viewRefs initial))
                  (length (viewRefs s') - length (viewRefs initial))
    ∧ trace s'
      = trace initial ++ pass_trace (nodes_of s') T
        ++ map EvInit (map data (concat (levels T))) ++ [EvUpdate (data T)]
    ∧ Forall (λ e, is_lifecycle e = false) (pass_trace (nodes_of s') T)
    ∧ map data (concat (levels T)) ≡ₚ tdata T
    ∧ NoDup (tdata T).
Proof.
  apply (proj1 (bootstrap_inits_then_updates 3 Demo.view 1 initial)
           0 1 DemoRun.compiled).
  - reflexivity.
  - vm_compute. reflexivity.
Defined.

(** ** The small application, run *)

Example demo_compiled_tree :
  compile Demo.compiler 3 (Some 0) 1 initial = Ret 1 DemoRun.compiled
  ∧ trees DemoRun.compiled !! 1 = Some (mkTree (mkTreeNode 0 [mkTreeNode 1 []])).
Proof. split; vm_compute; reflexivity. Qed.

Example demo_nesting_bounded : nesting_bounded Demo.compiler Demo.depth.
Proof.
  intros c host cref ast d Hcreate Hparse Hd Htruthy.
  destruct c as [[|[|[|c]]]|]; simpl in Hcreate; try discriminate;
    injection Hcreate as <-; simpl in Hparse; injection Hparse as <-;
    vm_compute in Hd; set_unfold in Hd.
  - destruct Hd as [->|[->|[->|[]]]]; try discriminate. vm_compute. lia.
  - destruct Hd as [->|[]]. discriminate.
  - destruct Hd as [->|[]]. vm_compute. lia.
Qed.

Example demo_enough_fuel fuel :
  2 ≤ fuel → compile Demo.compiler fuel (Some 0) 1 initial = Ret 1 DemoRun.compiled.
Proof.
  intros Hfuel.
  unfold compile.
  rewrite (compileViewRef_fuel_le Demo.compiler 2 fuel (Some 0) 1 None None None Hfuel);
    vm_compute; [reflexivity|discriminate].
Qed.

Example demo_out_of_fuel : compile Demo.compiler 1 (Some 0) 1 initial = OutOfFuel.
Proof. reflexivity. Qed.

Example demo_bootstrap_trace :
  bootstrap 3 Demo.view 1 initial = Ret tt DemoRun.bootstrapped
  ∧ trace DemoRun.bootstrapped
    = [EvNewViewNode 0; EvNewViewNode 1; EvNewViewNode 2; EvNewViewNode 3;
       EvNewViewRef 0;
       EvNewViewNode 4; EvNewViewNode 5; EvNewViewRef 1; EvSetCompiled 1 true;
       EvSetCompiled 0 true;
       EvInit 0; EvInit 1; EvUpdate 0].
Proof. split; vm_compute; reflexivity. Qed.

(** ** Calls that throw *)

Lemma bind_Throw_inv {A B} (m : M A) (k : A → M B) s e s' :
  bind m k s = Throw e s' →
  m s = Throw e s' ∨ ∃ a s1, m s = Ret a s1 ∧ k a s1 = Throw e s'.
Proof. unfold bind. destruct (m s) as [a s1|e1 s1|]; [eauto|naive_solver|done]. Qed.

Lemma Tree_add_Throw_inv t d parent e s s' :
  Tree_add t d parent s = Throw e s' → s' = s.
Proof.
  unfold Tree_add, bind, deref. destruct (trees s !! t) as [tree|]; [|by intros [= _ <-]].
  destruct parent as [p|]; [|by intros [= _ <-]].
  destruct (graft p _ _); [done|by intros [= _ <-]].
Qed.

Lemma frame_fresh_tree P Q vt s s' :
  frame P Q (Some vt) s s' → length (trees s) ≤ vt → frame P Q None s s'.
Proof.
  intros [? Hn ? Hr ? Ht ? ? ? ?] Hvt. constructor; try done.
  intros t Hlt _. apply Ht; [done|]. intros [= ->]. lia.
Qed.

Lemma frame_prefix {A} (l l' : list A) :
  length l ≤ length l' → (∀ i, i < length l → l' !! i = l !! i) → l `prefix_of` l'.
Proof.
  intros Hlen Hl. exists (drop (length l) l').
  rewrite <- (take_drop (length l) l') at 1. f_equal.
  apply list_eq. intros i. destruct (decide (i < length l)) as [Hi|Hi].
  - rewrite lookup_take_lt by done. by apply Hl.
  - rewrite lookup_take_ge by lia. symmetry. apply lookup_ge_None_2. lia.
Qed.

Lemma frame_untouched s s' :
  frame (λ _, False) (λ _, False) None s s' → untouched s s'.
Proof.
  intros [? Hn ? Hr ? Ht ? ? ? ?]. split_and!; try done.
  - apply frame_prefix; [done|]. intros i Hi. apply Hn; [done|tauto].
  - apply frame_prefix; [done|]. intros i Hi. apply Hr; [done|tauto].
  - apply frame_prefix; [done|]. intros i Hi. by apply Ht.
Qed.

Lemma frame_with_nodes_same nodes s :
  frame (λ _, False) (λ _, False) None s (with_nodes nodes (trees s) s).
Proof.
  pose proof (frame_with_nodes nodes [] s) as H. by rewrite app_nil_r in H.
Qed.

Lemma frame_then_fresh_tree P Q s0 s1 s2 t :
  frame P Q None s0 s1 → frame (λ _, False) (λ _, False) (Some t) s1 s2 →
  length (trees s0) ≤ t →
  frame P Q None s0 s2.
Proof.
  intros H1 H2 Ht. eapply frame_fresh_tree; [|exact Ht].
  eapply frame_compose.
  - eapply frame_weaken; [exact H1|done..].
  - exact H2.
  - done.
  - done.
Qed.

Lemma nodes_only_with_nodes s0 s nodes :
  nodes_only s0 s → nodes_only s0 (with_nodes nodes (trees s) s).
Proof.
  intros [Hs Hrefs]. split; [|done].
  eapply frame_trans; [exact Hs|apply frame_with_nodes_same].
Qed.

(** Whatever its outcome, [_getViewNodes] leaves the objects that existed
    when the outermost call began as they were: it writes to the View
    Nodes it creates and to the tree it builds. *)
Lemma getViewNodes_keeps this s0 ast :
  ∀ parent tree s,
    nodes_only s0 s →
    (∀ t, tree = Some t → length (trees s0) ≤ t) →
    match _getViewNodes this ast parent tree s with
    | Ret t' s' => nodes_only s0 s'
    | Throw _ s' => nodes_only s0 s'
    | OutOfFuel => True
    end.
Proof.
  induction ast as [d cs IH] using TreeNode_ind. intros parent tree s Hs Htree.
  cbn [_getViewNodes]. unfold bind at 1. rewrite buildViewNode_eq. cbv zeta.
  destruct (build_all this _ _) as [e|bs]; [by apply nodes_only_with_nodes|].
  set (a := length (viewNodes s)).
  set (s1 := with_nodes _ (trees s) s).
  assert (nodes_only s0 s1) as Hs1 by by apply nodes_only_with_nodes.
  clearbody s1.
  assert (∀ t s2,
            nodes_only s0 s2 →
            length (trees s0) ≤ t →
            match (forEach (λ c, _getViewNodes this c (Some a) (Some t) ;; ret tt) cs ;;
                   ret t) s2
            with
            | Ret _ s' => nodes_only s0 s'
            | Throw _ s' => nodes_only s0 s'
            | OutOfFuel => True
            end) as Hcs.
  { clear -IH. intros t s2 Hs2 Ht. unfold bind at 1.
    enough (match forEach (λ c, _getViewNodes this c (Some a) (Some t) ;; ret tt) cs s2
            with
            | Ret _ s' => nodes_only s0 s'
            | Throw _ s' => nodes_only s0 s'
            | OutOfFuel => True
            end) as Hloop by by destruct (forEach _ cs s2).
    revert s2 Hs2.
    induction IH as [|c cs Hc _ IHcs]; intros s2 Hs2; simpl; [done|].
    unfold bind at 1. unfold bind at 1.
    specialize (Hc (Some a) (Some t) s2 Hs2 ltac:(by intros ? [= <-])).
    destruct (_getViewNodes this c (Some a) (Some t) s2) as [t' s'|e s'|];
      [|done..].
    simpl. by apply IHcs. }
  unfold bind at 1. destruct Hs1 as [Hs1 Hrefs1].
  destruct tree as [t|]; [|destruct parent as [p|]].
  - unfold bind at 1.
    destruct (Tree_add t a parent s1) as [[] s2|e s2|] eqn:Hadd; [| |done].
    + apply Tree_add_Ret_inv in Hadd as (p & T & T' & -> & HT & Hg & ->).
      apply Hcs; [|by apply Htree]. split; [|done].
      eapply frame_then_fresh_tree;
        [exact Hs1|apply frame_set_trees_insert|by apply Htree].
    + by apply Tree_add_Throw_inv in Hadd as ->.
  - done.
  - simpl. apply Hcs.
    + split; [|done]. eapply frame_trans; [exact Hs1|apply frame_set_trees_snoc].
    + pose proof (frame_trees_len _ _ _ _ _ Hs1). lia.
Qed.

Section Enter.
Variable this : Compiler.

(** With arguments as the compiler makes them, a call whose factory,
    parser and Binding Builder do not fail reaches its traversal. *)
Lemma compileViewRef_enter fuel component host viewRefTree parentViewRef
    hostViewNode s cref ast nodes :
  call_ok s viewRefTree parentViewRef hostViewNode →
  create (_componentFactory this) component host = inr cref →
  parse (_parser this) (ComponentRef.template cref) host = inr ast →
  expected_nodes this (length (viewNodes s)) (tdata (root ast)) = inr nodes →
  ∃ s4 vr vt T0,
    start_facts this component host viewRefTree parentViewRef hostViewNode
      ast nodes s s4 vr vt T0
    ∧ ViewRef.compiled vr = false
    ∧ _compileViewRef this (S fuel) component host viewRefTree parentViewRef
        hostViewNode s
      = (forEach (discover this fuel vt (length (viewRefs s)))
           (visitsDF (mkTree (relabel (length (viewNodes s)) (root ast)))) ;;
         set_compiled (length (viewRefs s)) true ;;
         ret vt) s4.
Proof.
  intros [Htree_ok Hhv_ok] Hcreate Hparse Hnodes.
  pose proof (getViewNodes_top this (root ast) s) as Htop. rewrite Hnodes in Htop.
  set (r := length (viewRefs s)) in *.
  set (s1 := with_nodes nodes _ s) in Htop.
  set (s2 := log (EvNewViewRef r)
               (set_viewRefs (.++ [ViewRef.new cref (length (trees s))]) s1)).
  (* the View Reference enters the tree *)
  assert (∃ vt s3,
            match viewRefTree, parentViewRef with
            | None, None =>
                let* t := new_Tree r in
                updateRenderHost r host ;;
                ret t
            | Some t, _ => Tree_add t r parentViewRef ;; ret t
            | None, Some _ => throw TypeError
            end s2 = Ret vt s3
            ∧ ∃ vr3, viewRefs s3 = viewRefs s ++ [vr3]
                     ∧ ViewRef.compiled vr3 = false)
    as (vt & s3 & Htree & vr3 & Hrefs3 & Hvr3).
  { destruct viewRefTree as [t|].
    - destruct Htree_ok as (T & p & HT & -> & Hp & _).
      destruct (graft_is_Some p (mkTreeNode r []) T Hp) as [T' Hg].
      eexists _, _. split.
      + erewrite bind_Ret; [reflexivity|].
        eapply Tree_add_Some; [|exact Hg]. simpl.
        rewrite lookup_app_l by by eapply lookup_lt_Some. done.
      + by eexists.
    - rewrite Htree_ok. eexists _, _. split.
      + erewrite bind_Ret by reflexivity.
        erewrite bind_Ret; [reflexivity|].
        unfold updateRenderHost, update_ViewRef.
        erewrite bind_Ret; [reflexivity|]. apply deref_Some. simpl.
        by apply list_lookup_middle.
      + exists (ViewRef.with_renderHost (Some host)
                  (ViewRef.new cref (length (trees s)))).
        split; [|done]. simpl. unfold r. by rewrite alter_snoc. }
  (* it is recorded on the hosting View Node *)
  assert (length (viewNodes s) ≤ length (viewNodes s3)) as Hlen3.
  { eapply enter_tree_Ret_inv in Htree as (? & ? & _ & _ & _ & _ & Hn & _);
      [|reflexivity].
    rewrite Hn. simpl. rewrite length_app. lia. }
  assert (∃ u s4,
            match hostViewNode with
            | Some hv =>
                update_ViewNode (data (node hv)) (ViewNode.with_viewRef (Some r))
            | None => ret tt
            end s3 = Ret u s4) as (u & s4 & Hhost).
  { destruct hostViewNode as [hv|]; [|by eexists _, _].
    specialize (Hhv_ok hv eq_refl).
    destruct (lookup_lt_is_Some_2 (viewNodes s3) (data (node hv))) as [vn Hvn]; [lia|].
    eexists _, _. by eapply update_ViewNode_Some. }
  destruct (traversal_start this component host viewRefTree parentViewRef
              hostViewNode s cref ast nodes vt s3 u s4) as (vr & T0 & Hsf);
    try done.
  { intros t ->. destruct Htree_ok as (T & p & HT & _ & _ & Hlt). eauto. }
  exists s4, vr, vt, T0. split; [done|]. split.
  { pose proof (sf_refs _ _ _ _ _ _ _ _ _ _ _ _ _ Hsf) as Hrefs4.
    apply record_host_Ret_inv in Hhost as (Hrefs43 & _).
    rewrite Hrefs43, Hrefs3 in Hrefs4. by apply app_inj_tail in Hrefs4 as [_ ->]. }
  cbn [_compileViewRef].
  erewrite bind_Ret by (rewrite Hcreate; reflexivity).
  erewrite bind_Ret by (rewrite Hparse; reflexivity).
  erewrite bind_Ret by exact Htop.
  erewrite bind_Ret by reflexivity.
  erewrite bind_Ret by exact Htree.
  erewrite bind_Ret by exact Hhost.
  erewrite bind_Ret; last first.
  { apply deref_Some. rewrite (sf_refs _ _ _ _ _ _ _ _ _ _ _ _ _ Hsf).
    by apply list_lookup_middle. }
  unfold traverseDF. rewrite (sf_nodesTree _ _ _ _ _ _ _ _ _ _ _ _ _ Hsf).
  unfold bind at 1. unfold bind at 1.
  rewrite (deref_Some _ _ _ _ (sf_NT _ _ _ _ _ _ _ _ _ _ _ _ _ Hsf)).
  reflexivity.
Qed.
End Enter.

Section Causes.
Variable this : Compiler.

Lemma build_all_inl a raws e :
  build_all this a raws = inl e →
  ∃ raw, raw ∈ raws
         ∧ match _bindingBuilder this with
           | Some bindingBuilder => build bindingBuilder raw a = inl e
           | None => e = TypeError
           end.
Proof.
  induction raws as [|raw raws IH]; simpl; [done|].
  destruct (_bindingBuilder this) as [bb|] eqn:Hbb.
  - destruct (build bb raw a) as [e1|b] eqn:Hb.
    + intros [= <-]. exists raw. split; [set_solver|done].
    + destruct (build_all this a raws) as [e1|bs]; [|done].
      intros [= <-]. destruct (IH eq_refl) as (raw' & ? & ?).
      exists raw'. split; [set_solver|done].
  - intros [= <-]. exists raw. split; [set_solver|done].
Qed.

Lemma expected_nodes_inl a ds e :
  expected_nodes this a ds = inl e →
  ∃ d raw a', d ∈ ds ∧ raw ∈ TemplateASTNode.bindings d
              ∧ match _bindingBuilder this with
                | Some bindingBuilder => build bindingBuilder raw a' = inl e
                | None => e = TypeError
                end.
Proof.
  revert a. induction ds as [|d ds IH]; intros a; simpl; [done|].
  destruct (build_all this a _) as [e1|bs] eqn:Hb.
  - intros [= <-]. destruct (build_all_inl _ _ _ Hb) as (raw & ? & ?).
    exists d, raw, a. split; [set_solver|done].
  - destruct (expected_nodes this (S a) ds) as [e1|ns] eqn:He; [|done].
    intros [= <-]. destruct (IH _ He) as (d' & raw & a' & ? & ? & ?).
    exists d', raw, a'. split; [set_solver|done].
Qed.

(** A placeholder that the traversal visits is the View Node of a node
    below the root of the AST, with its selector and its element. *)
Lemma start_facts_placeholder component host viewRefTree parentViewRef hostViewNode
    ast nodes s s4 vr vt T0 v vn :
  start_facts this component host viewRefTree parentViewRef hostViewNode
    ast nodes s s4 vr vt T0 →
  v ∈ visitsDF (mkTree (relabel (length (viewNodes s)) (root ast))) →
  viewNodes s4 !! data (node v) = Some vn →
  is_placeholder v vn = true →
  ∃ d, d ∈ fdata (children (root ast))
       ∧ TemplateASTNode.componentSelector d = ViewNode.componentSelector vn
       ∧ TemplateASTNode.element d = ViewNode.element vn.
Proof.
  intros Hsf Hv Hvn Hph.
  pose proof (sf_nodes_ast _ _ _ _ _ _ _ _ _ _ _ _ _ Hsf) as Hnodes.
  apply expected_nodes_length in Hnodes as Hlen. rewrite length_tdata in Hlen.
  set (m0 := length (viewNodes s)) in *.
  destruct (root ast) as [d0 cs] eqn:Hroot. rewrite relabel_node in Hv.
  unfold visitsDF in Hv. cbn [root children] in Hv.
  apply elem_of_cons in Hv as [->|Hv]; [done|].
  apply list_elem_of_fmap in Hv as (n & -> & Hn). cbn [node] in *.
  assert (data n ∈ fdata (relabel_from (S m0) cs)) as Hdn
    by by apply list_elem_of_fmap_2.
  rewrite fdata_relabel_from in Hdn. apply elem_of_seq in Hdn.
  rewrite tdata_node in Hnodes. cbn [expected_nodes] in Hnodes.
  destruct (build_all this m0 _) as [|bs]; [done|].
  destruct (expected_nodes this (S m0) (fdata cs)) as [|ns] eqn:Hns; [done|].
  injection Hnodes as <-.
  assert (ns !! (data n - S m0) = Some vn) as Hi.
  { pose proof (sf_nodes _ _ _ _ _ _ _ _ _ _ _ _ _ Hsf) as Hlookup.
    destruct (lookup_lt_is_Some_2 ns (data n - S m0)) as [vn' Hvn'].
    { apply expected_nodes_length in Hns as Hlen_ns. unfold fdata in Hlen_ns.
      rewrite length_map in Hlen_ns. lia. }
    specialize (Hlookup (S (data n - S m0)) vn' Hvn'). fold m0 in Hlookup.
    replace (m0 + S (data n - S m0)) with (data n) in Hlookup by lia.
    congruence. }
  destruct (expected_nodes_lookup _ _ _ _ _ _ Hns Hi) as (d & Hd & Hsel & Helem).
  exists d. split_and!; [|done..]. cbn [children].
  eapply list_elem_of_lookup_2. exact Hd.
Qed.
End Causes.

Section Flags.
Variable this : Compiler.

(** The compiled View References above [r] stay so, and their children
    with them, over a step that writes below [m1] and to the tree [vt]
    only. *)
Lemma compiled_children_frame P vt s s' r m1 t1 r' :
  (∀ c, r < c < length (viewRefs s) → compiled_ok this s m1 t1 c) →
  frame P (λ _, False) (Some vt) s s' →
  (∀ a, P a → a < m1) → vt < t1 →
  r < r' < length (viewRefs s) →
  compiled_ok this s' m1 t1 r' ∧ children_compiled s' r'.
Proof.
  intros Hall Hframe HP Hvt Hr'.
  assert (∀ c, r < c < length (viewRefs s) → compiled_ok this s' m1 t1 c) as Hall'.
  { intros c Hc. eapply compiled_ok_frame; [exact Hframe|by apply Hall|done|tauto|].
    intros ? [= <-]. done. }
  split; [by apply Hall'|]. intros vr NT v vn c Hvr HNT Hv Hvn Hc.
  destruct (Hall r' Hr') as (vr0 & T & Hvr0 & _ & Hlo & HT & _ & Hge & Hvis).
  rewrite (frame_refs _ _ _ _ _ Hframe) in Hvr; [|lia|tauto].
  assert (vr = vr0) as -> by congruence.
  rewrite (frame_trees _ _ _ _ _ Hframe) in HNT;
    [|by eapply lookup_lt_Some|intros [= Heq]; lia].
  assert (NT = T) as -> by congruence.
  rewrite Forall_forall in Hvis. destruct (Hvis v Hv) as (vn0 & Hvn0 & Hok).
  rewrite (frame_nodes _ _ _ _ _ Hframe) in Hvn; [|by eapply lookup_lt_Some|].
  2: { intros Ha%HP. apply elem_of_visitsDF_data in Hv. apply Hge in Hv. simpl in *. lia. }
  assert (vn = vn0) as -> by congruence.
  destruct (is_placeholder v vn0); [|congruence].
  destruct Hok as (c0 & vc & Hc0 & Hlt & Hvc & _).
  assert (c0 = c) as -> by congruence.
  destruct (Hall' c) as (vrc & _ & Hvrc & Hcompiled & _).
  { split; [lia|]. by eapply lookup_lt_Some. }
  eauto.
Qed.
End Flags.

Section LoopThrow.
Variable this : Compiler.
Variable fuel : nat.
Hypothesis IH : compileViewRef_throw_spec this fuel.
Variables (r vt : addr) (m1 t1 : nat) (T0 : TreeNode addr) (s0 : State).
Hypothesis Hvt : vt < t1.

(** A traversal that throws: it is the compilation of one placeholder
    that fails, the children before it are in the tree. *)
Lemma discover_loop_Throw vs :
  ∀ s cs e s',
    loop_inv this r vt m1 t1 T0 s0 s cs →
    NoDup (map (data ∘ node) vs) →
    (∀ v, v ∈ vs →
          data (node v) < m1
          ∧ ∃ vn, viewNodes s !! data (node v) = Some vn
                  ∧ ViewNode.viewRef vn = None) →
    forEach (discover this fuel vt r) vs s = Throw e s' →
    (∃ v vn, v ∈ vs
             ∧ viewNodes s !! data (node v) = Some vn
             ∧ is_placeholder v vn = true
             ∧ fails this
                 (getBySelector (_componentsRegistry this)
                    (default ""%string (ViewNode.componentSelector vn)))
                 (ViewNode.element vn) e)
    ∧ frame (λ a, a ∈ map (data ∘ node) vs) (λ _, False) (Some vt) s s'
    ∧ (∀ r' vr', r < r' →
                 viewRefs s' !! r' = Some vr' →
                 ViewRef.compiled vr' = true →
                 compiled_ok this s' m1 t1 r' ∧ children_compiled s' r').
Proof.
  induction vs as [|v vs IHvs]; intros s cs e s' Hinv Hnd Hvs Hrun; [done|].
  apply NoDup_cons in Hnd as [Hv_notin Hnd].
  destruct (Hvs v ltac:(set_solver)) as (Hv_lt & vn & Hvn & Hvn_ref).
  cbn [forEach] in Hrun.
  apply bind_Throw_inv in Hrun as [Hv|([] & s1 & Hv & Hrun)].
  - (* the visit of [v] throws *)
    unfold discover in Hv. erewrite bind_Ret in Hv by by apply deref_Some.
    fold (is_placeholder v vn) in Hv.
    destruct (is_placeholder v vn) eqn:Hph; [|done].
    apply bind_Throw_inv in Hv as [Hcall|(? & ? & _ & ?)]; [|done].
    apply IH in Hcall as (Hfails & Hframe & _ & Hflags).
    { split.
      - destruct (inv_tree _ _ _ _ _ _ _ _ _ Hinv) as (T & HT & _ & HrT & HT_lt).
        by exists T, r.
      - intros ? [= <-]. by eapply lookup_lt_Some. }
    split_and!.
    + exists v, vn; split_and!; [set_solver|done..].
    + eapply frame_weaken; [exact Hframe| |done|done].
      simpl. intros a [= <-]. set_solver.
    + intros r' vr' Hr' Hvr' Hc'.
      destruct (decide (r' < length (viewRefs s))) as [Hold|Hnew].
      * eapply compiled_children_frame;
          [exact (inv_compiled _ _ _ _ _ _ _ _ _ Hinv)|exact Hframe| |done|lia].
        simpl. intros a [= <-]. done.
      * destruct (Hflags r' vr' ltac:(lia) Hvr' Hc') as [Hok Hcc]. split; [|done].
        eapply compiled_ok_weaken; [exact Hok|..].
        -- exact (inv_nodes_len _ _ _ _ _ _ _ _ _ Hinv).
        -- exact (inv_trees_len _ _ _ _ _ _ _ _ _ Hinv).
  - (* the visit of [v] returns, a later one throws *)
    destruct (discover_loop this fuel (compileViewRef_correct this fuel)
                r vt m1 t1 T0 s0 Hvt [v] s cs s1 Hinv)
      as (cs' & Hinv1 & _ & Hframe).
    { apply NoDup_singleton. }
    { intros v' ->%list_elem_of_singleton. eauto. }
    { cbn [forEach]. by erewrite bind_Ret by exact Hv. }
    assert (∀ v', v' ∈ vs →
                  viewNodes s1 !! data (node v') = viewNodes s !! data (node v'))
      as Hsame.
    { intros v' Hv'. destruct (Hvs v' ltac:(set_solver)) as (_ & vn' & Hvn' & _).
      apply (frame_nodes _ _ _ _ _ Hframe); [by eapply lookup_lt_Some|].
      simpl. intros Hin%list_elem_of_singleton. apply Hv_notin.
      replace ((data ∘ node) v) with ((data ∘ node) v') by (simpl; congruence).
      by apply (list_elem_of_fmap_2 (data ∘ node)). }
    destruct (IHvs s1 (cs ++ cs') e s' Hinv1 Hnd)
      as ((v' & vn' & ? & Hvn' & ? & ?) & Hframe' & Hflags); [|done|].
    { intros v' Hv'. destruct (Hvs v' ltac:(set_solver)) as (? & vn' & Hvn' & ?).
      split; [done|]. exists vn'. by rewrite Hsame. }
    split_and!.
    + exists v', vn'. rewrite <- Hsame by done. split_and!; [set_solver|done..].
    + eapply frame_trans.
      * eapply frame_weaken; [exact Hframe| |done|done]. simpl. set_solver.
      * eapply frame_weaken; [exact Hframe'| |done|done]. simpl. set_solver.
    + done.
Qed.
End LoopThrow.

Section Throws.
Variable this : Compiler.

Lemma call_Throw_inv {A} (r : Error + A) e s s' :
  call r s = Throw e s' → r = inl e ∧ s' = s.
Proof. destruct r; simpl; [|done]. by intros [= -> ->]. Qed.

(** A call of [_compileViewRef] that throws meets
    [compileViewRef_throw_spec]. *)
Lemma compileViewRef_throws fuel : compileViewRef_throw_spec this fuel.
Proof.
  induction fuel as [|fuel IH];
    intros component host viewRefTree parentViewRef hostViewNode s e s' Hrun Hok;
    [done|].
  assert (∀ s1, viewRefs s1 = viewRefs s →
            (∀ vr, viewRefs s1 !! length (viewRefs s) = Some vr →
                   ViewRef.compiled vr = false)
            ∧ (∀ r vr, length (viewRefs s) ≤ r →
                       viewRefs s1 !! r = Some vr →
                       ViewRef.compiled vr = true →
                       compiled_ok this s1 (length (viewNodes s)) (length (trees s)) r
                       ∧ children_compiled s1 r)) as Hnone.
  { intros s1 Hrefs. split.
    - intros vr Hvr. rewrite Hrefs in Hvr. apply lookup_lt_Some in Hvr. lia.
    - intros r vr Hr Hvr. rewrite Hrefs in Hvr. apply lookup_lt_Some in Hvr. lia. }
  destruct (create (_componentFactory this) component host) as [e1|cref] eqn:Hcreate.
  { cbn [_compileViewRef] in Hrun.
    erewrite bind_Throw in Hrun by (rewrite Hcreate; reflexivity).
    injection Hrun as <- <-.
    split; [by apply fails_create|]. split; [apply frame_refl|by apply Hnone]. }
  destruct (parse (_parser this) (ComponentRef.template cref) host)
    as [e1|ast] eqn:Hparse.
  { cbn [_compileViewRef] in Hrun.
    erewrite bind_Ret in Hrun by (rewrite Hcreate; reflexivity).
    erewrite bind_Throw in Hrun by (rewrite Hparse; reflexivity).
    injection Hrun as <- <-.
    split; [by eapply fails_parse|]. split; [apply frame_refl|by apply Hnone]. }
  destruct (expected_nodes this (length (viewNodes s)) (tdata (root ast)))
    as [e1|nodes] eqn:Hnodes.
  { cbn [_compileViewRef] in Hrun.
    erewrite bind_Ret in Hrun by (rewrite Hcreate; reflexivity).
    erewrite bind_Ret in Hrun by (rewrite Hparse; reflexivity).
    pose proof (getViewNodes_top this (root ast) s) as Htop.
    rewrite Hnodes in Htop. destruct Htop as [s1 Htop].
    pose proof (getViewNodes_keeps this s (root ast) None None s
                  (conj (frame_refl _ _ _ _) eq_refl) ltac:(done)) as Hkeeps.
    rewrite Htop in Hkeeps. destruct Hkeeps as [Hkeeps Hrefs].
    erewrite bind_Throw in Hrun by exact Htop. injection Hrun as <- <-.
    destruct (expected_nodes_inl _ _ _ _ Hnodes) as (d & raw & a & ? & ? & ?).
    split; [by eapply fails_build|]. split; [|by apply Hnone].
    eapply frame_weaken; [exact Hkeeps|done..]. }
  destruct (compileViewRef_enter this fuel component host viewRefTree parentViewRef
              hostViewNode s cref ast nodes Hok Hcreate Hparse Hnodes)
    as (s4 & vr & vt & T0 & Hsf & Hvr_flag & Heq).
  rewrite Heq in Hrun. clear Heq.
  destruct (start_facts_tree this _ _ _ _ _ _ _ _ _ _ _ _ Hsf) as [HrT0 HT0_le].
  pose proof Hsf as [_ _ Hframe04 Hrefs4 Hnt Hrh Hvt_ne HNT4 Hlen4 _ Hhv HT0
                       Htree0 Htrace4].
  assert (vt < length (trees s4)) as Hvt by by eapply lookup_lt_Some.
  assert (length (viewRefs s4) = S (length (viewRefs s))) as Hlen_refs4
    by (rewrite Hrefs4, length_app; simpl; lia).
  assert (loop_inv this (length (viewRefs s)) vt
            (length (viewNodes s) + length nodes) (length (trees s4)) T0 s4 s4 [])
    as Hinv.
  { constructor; try done; try lia.
    - exists T0. split_and!; try done. intros x ?%HT0_le. lia.
    - by rewrite Hlen_refs4, Nat.sub_diag.
    - simpl. by rewrite app_nil_r. }
  assert (NoDup (map (data ∘ node)
                   (visitsDF (mkTree (relabel (length (viewNodes s)) (root ast))))))
    as Hnd.
  { rewrite visitsDF_data. simpl. rewrite tdata_relabel. apply NoDup_seq. }
  assert (∀ v, v ∈ visitsDF (mkTree (relabel (length (viewNodes s)) (root ast))) →
               data (node v) < length (viewNodes s) + length nodes
               ∧ ∃ vn, viewNodes s4 !! data (node v) = Some vn
                       ∧ ViewNode.viewRef vn = None) as Hvs.
  { intros v Hv.
    destruct (start_facts_visits this _ _ _ _ _ _ _ _ _ _ _ _ _ Hsf Hv)
      as (? & vn & ? & ? & _). eauto. }
  assert (∀ P s5,
            frame P (λ _, False) (Some vt) s4 s5 →
            (∀ a, P a → length (viewNodes s) ≤ a) →
            frame (λ a, (data ∘ node) <$> hostViewNode = Some a) (λ _, False)
              viewRefTree s s5) as Hout.
  { intros P s5 Hframe HP.
    assert (frame (λ a, (data ∘ node) <$> hostViewNode = Some a) (λ _, False)
              (Some vt) s s5) as Hframe5.
    { eapply frame_compose; [exact Hframe04|exact Hframe| |done].
      intros a Ha%HP ?. lia. }
    destruct viewRefTree as [t|].
    - by destruct Htree0 as [<- _].
    - destruct Htree0 as (_ & -> & _).
      eapply frame_fresh_tree; [exact Hframe5|lia]. }
  apply bind_Throw_inv in Hrun as [Hloop|([] & s5 & Hloop & Hrun)].
  - (* the traversal throws *)
    destruct (discover_loop_Throw this fuel IH (length (viewRefs s)) vt
                (length (viewNodes s) + length nodes) (length (trees s4)) T0 s4
                Hvt _ s4 [] e s' Hinv Hnd Hvs Hloop)
      as ((v & vn & Hv & Hvn & Hph & Hfails) & Hframe & Hflags).
    destruct (start_facts_placeholder this _ _ _ _ _ _ _ _ _ _ _ _ _ _ Hsf Hv Hvn Hph)
      as (d & Hd & Hsel & Helem).
    assert (viewRefs s' !! length (viewRefs s) = Some vr) as Hroot.
    { rewrite (frame_refs _ _ _ _ _ Hframe); [|lia|tauto].
      rewrite Hrefs4. by apply list_lookup_middle. }
    split_and!.
    + eapply fails_child; [exact Hcreate|exact Hparse|exact Hd| |].
      * rewrite Hsel. unfold is_placeholder in Hph.
        by apply andb_true_iff in Hph as [_ ?].
      * by rewrite Hsel, Helem.
    + eapply Hout; [exact Hframe|]. intros a Ha. rewrite visitsDF_data in Ha.
      simpl in Ha. rewrite tdata_relabel in Ha. apply elem_of_seq in Ha. lia.
    + intros vr' Hvr'. congruence.
    + intros r' vr' Hr' Hvr' Hc'.
      destruct (decide (r' = length (viewRefs s))) as [->|Hne]; [congruence|].
      destruct (Hflags r' vr' ltac:(lia) Hvr' Hc') as [Hok' Hcc]. split; [|done].
      eapply compiled_ok_weaken; [exact Hok'|lia|].
      pose proof (frame_trees_len _ _ _ _ _ Hframe04). lia.
  - (* the traversal returns: the rest does *)
    exfalso.
    destruct (discover_loop this fuel (compileViewRef_correct this fuel)
                (length (viewRefs s)) vt (length (viewNodes s) + length nodes)
                (length (trees s4)) T0 s4 Hvt _ s4 [] s5 Hinv Hnd Hvs Hloop)
      as (cs & _ & _ & Hframe).
    pose proof (frame_refs_len _ _ _ _ _ Hframe) as Hlen5.
    destruct (lookup_lt_is_Some_2 (viewRefs s5) (length (viewRefs s))) as [vr5 Hvr5];
      [lia|].
    unfold set_compiled, update_ViewRef in Hrun.
    erewrite bind_Ret in Hrun; [done|].
    erewrite bind_Ret; [reflexivity|].
    erewrite bind_Ret; [reflexivity|]. by apply deref_Some.
Qed.
End Throws.

(** ** Failing and returning compilations *)

(** X1. A compilation that throws was failed by a collaborator: the
    factory, the parser or the Binding Builder failed with that very error
    (or the Binding Builder is missing and the error is a [TypeError]) on
    the component or on a component nested in its template.  An error that
    no collaborator fails with there is never thrown: not the
    [StructuralError] of a [Tree.add] whose parent is missing, and not the
    [TypeError] of a reference that is not live. *)
Theorem compile_failure_has_cause this fuel component host s e s' :
  compile this fuel component host s = Throw e s' →
  fails this component host e.
Proof.
  intros Hrun. by eapply (compileViewRef_throws this fuel); [exact Hrun|].
Qed.

Lemma compile_failure_has_cause_witness :
  fails Demo.compiler (Some 2) 1 TypeError.
Proof.
  apply (compile_failure_has_cause Demo.compiler 3 (Some 2) 1 initial TypeError
           DemoRun.broken).
  vm_compute. reflexivity.
Defined.

(** X3. Whatever its outcome, a compilation changes nothing that existed
    before it: every View Node, View Reference and tree of the state it
    started from is there, unchanged, and so are the singletons and the
    tree the View holds; the tree it returns is a new one. *)
Theorem compile_keeps_existing_objects this fuel component host s :
  (∀ t s', compile this fuel component host s = Ret t s' →
           untouched s s' ∧ trees s !! t = None)
  ∧ (∀ e s', compile this fuel component host s = Throw e s' → untouched s s').
Proof.
  split.
  - intros t s' [sub Hpost]%compile_Ret_inv.
    destruct (post_tree _ _ _ _ _ _ _ _ _ _ Hpost) as (_ & -> & _).
    split; [|apply lookup_ge_None_2; lia].
    apply frame_untouched. eapply frame_fresh_tree.
    + eapply frame_weaken; [exact (post_frame _ _ _ _ _ _ _ _ _ _ Hpost)|done..].
    + lia.
  - intros e s' Hrun. apply frame_untouched.
    eapply frame_weaken;
      [by eapply (compileViewRef_throws this fuel); [exact Hrun|]|done..].
Qed.

Lemma compile_keeps_existing_objects_witness :
  untouched DemoRun.compiled
    (outcome_state (compile Demo.compiler 3 (Some 0) 1 DemoRun.compiled))
  ∧ untouched DemoRun.compiled
      (outcome_state (compile Demo.compiler 3 (Some 2) 1 DemoRun.compiled)).
Proof.
  destruct (compile_keeps_existing_objects Demo.compiler 3 (Some 0) 1
              DemoRun.compiled) as [Hret _].
  destruct (compile_keeps_existing_objects Demo.compiler 3 (Some 2) 1
              DemoRun.compiled) as [_ Hthrow].
  split.
  - eapply (proj1 (Hret 4 _ _)).
  - eapply (Hthrow TypeError).
  Unshelve.
  all: vm_compute; reflexivity.
Defined.

(** X2. When the nesting of components is bounded, the fuel exceeds the
    depth of the component and no collaborator fails on the component or
    on a component nested in its template, the compilation returns a
    tree. *)
Theorem compile_returns this depth fuel component host s :
  nesting_bounded this depth →
  depth component < fuel →
  (∀ e, ¬ fails this component host e) →
  ∃ t s', compile this fuel component host s = Ret t s'.
Proof.
  intros Hbounded Hdepth Hnofail.
  pose proof (compileViewRef_terminates this depth Hbounded fuel component host
                None None None s Hdepth ltac:(done) ltac:(done)) as Hfuel.
  fold (compile this fuel component host) in Hfuel.
  destruct (compile this fuel component host s) as [t s'|e s'|] eqn:Hrun.
  - by exists t, s'.
  - destruct (Hnofail e). by eapply (compileViewRef_throws this fuel); [exact Hrun|].
  - done.
Qed.

Lemma demo_child_never_fails host e : ¬ fails Demo.compiler (Some 1) host e.
Proof.
  inversion 1 as [? ? ? Hcreate|? ? ? ? Hcreate Hparse|
                  ? ? ? ? d raw a ? Hcreate Hparse Hd Hraw Hbuild|
                  ? ? ? ? d ? Hcreate Hparse Hd Htruthy Hchild]; subst;
    simpl in Hcreate; try discriminate; injection Hcreate as <-;
    simpl in Hparse; try discriminate; injection Hparse as <-.
  vm_compute in Hd. set_unfold in Hd. destruct Hd as [->|[]]. done.
Qed.

Lemma demo_never_fails host e : ¬ fails Demo.compiler (Some 0) host e.
Proof.
  inversion 1 as [? ? ? Hcreate|? ? ? ? Hcreate Hparse|
                  ? ? ? ? d raw a ? Hcreate Hparse Hd Hraw Hbuild|
                  ? ? ? ? d ? Hcreate Hparse Hd Htruthy Hchild]; subst;
    simpl in Hcreate; try discriminate; injection Hcreate as <-;
    simpl in Hparse; try discriminate; injection Hparse as <-.
  vm_compute in Hd. set_unfold in Hd.
  destruct Hd as [->|[->|[->|[]]]]; try done.
  by apply demo_child_never_fails in Hchild.
Qed.

Lemma compile_returns_witness :
  ∃ t s', compile Demo.compiler 2 (Some 0) 1 initial = Ret t s'.
Proof.
  apply (compile_returns Demo.compiler Demo.depth 2 (Some 0) 1 initial).
  - exact demo_nesting_bounded.
  - vm_compute. lia.
  - intros e. apply demo_never_fails.
Defined.

Lemma compile_total_witness :
  compile Demo.compiler 2 (Some 0) 1 initial ≠ OutOfFuel
  ∧ ∀ fuel', 2 ≤ fuel' →
             compile Demo.compiler fuel' (Some 0) 1 initial
             = compile Demo.compiler 2 (Some 0) 1 initial.
Proof.
  apply (compile_total Demo.compiler Demo.depth 2 (Some 0) 1 initial
           demo_nesting_bounded).
  vm_compute. lia.
Defined.

(** X10. In the state a compilation that throws leaves behind, the View
    Reference of the component is not marked compiled, and every View
    Reference the compilation created that is marked compiled has been
    compiled to the end: each placeholder of its View Node tree holds a
    View Reference that is marked compiled too. *)
Theorem failed_compile_flags this fuel component host s e s' :
  compile this fuel component host s = Throw e s' →
  (∀ vr, viewRefs s' !! length (viewRefs s) = Some vr →
         ViewRef.compiled vr = false)
  ∧ ∀ r vr,
      length (viewRefs s) ≤ r →
      viewRefs s' !! r = Some vr →
      ViewRef.compiled vr = true →
      ∃ NT,
        trees s' !! ViewRef.nodesTree vr = Some (mkTree NT)
        ∧ ∀ v, v ∈ visitsDF (mkTree NT) →
            ∃ vn, viewNodes s' !! data (node v) = Some vn
                  ∧ (is_placeholder v vn = true →
                     ∃ c vc, ViewNode.viewRef vn = Some c
                             ∧ viewRefs s' !! c = Some vc
                             ∧ ViewRef.compiled vc = true).
Proof.
  intros Hrun.
  destruct (compileViewRef_throws this fuel component host None None None s e s'
              Hrun ltac:(done)) as (_ & _ & Hroot & Hflags).
  split; [done|]. intros r vr Hr Hvr Hc.
  destruct (Hflags r vr Hr Hvr Hc)
    as [(vr0 & NT & Hvr0 & _ & _ & HNT & _ & _ & Hvis) Hcc].
  assert (vr0 = vr) as -> by congruence.
  exists NT. split; [done|]. intros v Hv.
  rewrite Forall_forall in Hvis. destruct (Hvis v Hv) as (vn & Hvn & Hok).
  exists vn. split; [done|]. intros Hph. rewrite Hph in Hok.
  destruct Hok as (c & vc & Hc0 & _ & _ & _).
  destruct (Hcc vr NT v vn c Hvr HNT Hv Hvn Hc0) as (vc' & ? & ?). eauto.
Qed.

Lemma failed_compile_flags_witness :
  (∀ vr, viewRefs DemoPartial.failed !! length (viewRefs initial) = Some vr →
         ViewRef.compiled vr = false)
  ∧ ∀ r vr,
      length (viewRefs initial) ≤ r →
      viewRefs DemoPartial.failed !! r = Some vr →
      ViewRef.compiled vr = true →
      ∃ NT,
        trees DemoPartial.failed !! ViewRef.nodesTree vr = Some (mkTree NT)
        ∧ ∀ v, v ∈ visitsDF (mkTree NT) →
            ∃ vn, viewNodes DemoPartial.failed !! data (node v) = Some vn
                  ∧ (is_placeholder v vn = true →
                     ∃ c vc, ViewNode.viewRef vn = Some c
                             ∧ viewRefs DemoPartial.failed !! c = Some vc
                             ∧ ViewRef.compiled vc = true).
Proof.
  apply (failed_compile_flags DemoPartial.compiler 3 (Some 3) 1 initial TypeError).
  vm_compute. reflexivity.
Defined.

Example demo_partial_flags :
  compile DemoPartial.compiler 3 (Some 3) 1 initial
  = Throw TypeError DemoPartial.failed
  ∧ ViewRef.compiled <$> viewRefs DemoPartial.failed = [false; true].
Proof. split; vm_compute; reflexivity. Qed.

(** ** The View Nodes of a compilation *)

Lemma created_nodes_app L1 L2 :
  created_nodes (L1 ++ L2) = created_nodes L1 ++ created_nodes L2.
Proof. apply omap_app. Qed.

Lemma created_nodes_new l : created_nodes (map EvNewViewNode l) = l.
Proof. induction l as [|a l IH]; [done|]. simpl. by rewrite IH. Qed.

Lemma created_nodes_pass_trace f (n : TreeNode addr) :
  created_nodes (pass_trace f n) = flat_map f (tdata n).
Proof.
  induction n as [r cs IH] using TreeNode_ind. rewrite tdata_node. simpl.
  rewrite created_nodes_app, created_nodes_new. f_equal. simpl.
  rewrite created_nodes_app. simpl. rewrite app_nil_r.
  induction IH as [|c cs Hc _ IHcs]; [done|]. simpl.
  rewrite created_nodes_app, fdata_cons, flat_map_app. by rewrite Hc, IHcs.
Qed.

Lemma records_nodes_refl s : records_nodes s s.
Proof.
  split; [done|]. exists []. by rewrite app_nil_r, Nat.sub_diag.
Qed.

Lemma records_nodes_trans s1 s2 s3 :
  records_nodes s1 s2 → records_nodes s2 s3 → records_nodes s1 s3.
Proof.
  intros (Hlen1 & L1 & HL1 & Hc1) (Hlen2 & L2 & HL2 & Hc2). split; [lia|].
  exists (L1 ++ L2). split; [by rewrite HL2, HL1, app_assoc|].
  rewrite created_nodes_app, Hc1, Hc2.
  replace (length (viewNodes s3) - length (viewNodes s1))
    with ((length (viewNodes s2) - length (viewNodes s1))
          + (length (viewNodes s3) - length (viewNodes s2))) by lia.
  rewrite seq_app. do 2 f_equal. lia.
Qed.

(** A step that leaves the number of View Nodes and adds no creation of
    one to the trace. *)
Lemma records_nodes_quiet s s' L :
  length (viewNodes s') = length (viewNodes s) →
  trace s' = trace s ++ L → created_nodes L = [] →
  records_nodes s s'.
Proof.
  intros Hlen HL Hc. split; [lia|]. exists L. split; [done|].
  by rewrite Hc, Hlen, Nat.sub_diag.
Qed.

Lemma recording_ret {A} (a : A) : recording (ret a).
Proof. intros s. apply records_nodes_refl. Qed.

Lemma recording_throw {A} e : recording (@throw A e).
Proof. intros s. apply records_nodes_refl. Qed.

Lemma recording_call {A} (r : Error + A) : recording (call r).
Proof. intros s. destruct r; apply records_nodes_refl. Qed.

Lemma recording_deref {A} (store : State → list A) a : recording (deref store a).
Proof. intros s. unfold deref. destruct (store s !! a); apply records_nodes_refl. Qed.

Lemma recording_bind {A B} (m : M A) (k : A → M B) :
  recording m → (∀ a, recording (k a)) → recording (bind m k).
Proof.
  intros Hm Hk s. unfold bind. specialize (Hm s).
  destruct (m s) as [a s1|e s1|]; [|done..]. specialize (Hk a s1).
  destruct (k a s1) as [b s2|e s2|]; [| |done]; by eapply records_nodes_trans.
Qed.

Lemma recording_forEach {A} (f : A → M unit) l :
  (∀ x, recording (f x)) → recording (forEach f l).
Proof.
  intros Hf. induction l as [|x l IH]; simpl; [apply recording_ret|].
  apply recording_bind; [apply Hf|]. by intros _.
Qed.

Lemma recording_update_ViewNode a f : recording (update_ViewNode a f).
Proof.
  apply recording_bind; [apply recording_deref|]. intros _ s.
  apply (records_nodes_quiet _ _ []); simpl;
    [by rewrite length_alter|by rewrite app_nil_r|done].
Qed.

Lemma recording_update_ViewRef r f : recording (update_ViewRef r f).
Proof.
  apply recording_bind; [apply recording_deref|]. intros _ s.
  apply (records_nodes_quiet _ _ []); simpl; [done|by rewrite app_nil_r|done].
Qed.

Lemma recording_Tree_add t d parent : recording (Tree_add t d parent).
Proof.
  apply recording_bind; [apply recording_deref|]. intros tree.
  destruct parent; [|apply recording_throw].
  destruct (graft _ _ _); [|apply recording_throw]. intros s.
  apply (records_nodes_quiet _ _ []); simpl; [done|by rewrite app_nil_r|done].
Qed.

Lemma recording_new_Tree d : recording (new_Tree d).
Proof.
  intros s. apply (records_nodes_quiet _ _ []); simpl;
    [done|by rewrite app_nil_r|done].
Qed.

Section Recording.
Variable this : Compiler.

Lemma recording_buildViewNode d : recording (_buildViewNode this d).
Proof.
  intros s. rewrite buildViewNode_eq. cbv zeta.
  assert (∀ vn, records_nodes s (with_nodes [vn] (trees s) s)) as Hvn.
  { intros vn. split; [simpl; rewrite length_app; lia|].
    eexists. split; [reflexivity|]. rewrite created_nodes_new. simpl.
    rewrite length_app. simpl.
    by replace (length (viewNodes s) + 1 - length (viewNodes s)) with 1 by lia. }
  destruct (build_all this _ _); apply Hvn.
Qed.

Lemma recording_getViewNodes ast parent viewNodesTree :
  recording (_getViewNodes this ast parent viewNodesTree).
Proof.
  revert parent viewNodesTree. induction ast as [d cs IH] using TreeNode_ind.
  intros parent viewNodesTree. cbn [_getViewNodes].
  apply recording_bind; [apply recording_buildViewNode|]. intros a.
  apply recording_bind.
  - destruct viewNodesTree as [t|]; [|destruct parent].
    + apply recording_bind; [apply recording_Tree_add|intros; apply recording_ret].
    + apply recording_throw.
    + apply recording_new_Tree.
  - intros t. apply recording_bind; [|intros; apply recording_ret].
    induction IH as [|c cs Hc _ IHcs]; simpl; [apply recording_ret|].
    apply recording_bind; [|by intros _].
    apply recording_bind; [apply Hc|intros; apply recording_ret].
Qed.

Lemma recording_compileViewRef fuel component host viewRefTree parentViewRef
    hostViewNode :
  recording
    (_compileViewRef this fuel component host viewRefTree parentViewRef hostViewNode).
Proof.
  revert component host viewRefTree parentViewRef hostViewNode.
  induction fuel as [|fuel IH]; intros component host viewRefTree parentViewRef
    hostViewNode; [by intros s|].
  cbn [_compileViewRef].
  apply recording_bind; [apply recording_call|]. intros cref.
  apply recording_bind; [apply recording_call|]. intros ast.
  apply recording_bind; [apply recording_getViewNodes|]. intros nt.
  apply recording_bind.
  { intros s. apply (records_nodes_quiet _ _ [EvNewViewRef (length (viewRefs s))]);
      done. }
  intros r. apply recording_bind.
  { destruct viewRefTree as [t|]; [|destruct parentViewRef].
    - apply recording_bind; [apply recording_Tree_add|intros; apply recording_ret].
    - apply recording_throw.
    - apply recording_bind; [apply recording_new_Tree|]. intros t.
      apply recording_bind; [apply recording_update_ViewRef|intros; apply recording_ret]. }
  intros vt. apply recording_bind.
  { destruct hostViewNode; [apply recording_update_ViewNode|apply recording_ret]. }
  intros _. apply recording_bind; [apply recording_deref|]. intros vr.
  apply recording_bind.
  { apply recording_bind; [apply recording_deref|]. intros tree.
    apply recording_forEach. intros v.
    apply recording_bind; [apply recording_deref|]. intros vn.
    destruct (_ && _); [|apply recording_ret].
    apply recording_bind; [apply IH|intros; apply recording_ret]. }
  intros _. apply recording_bind; [|intros; apply recording_ret].
  apply recording_bind; [apply recording_update_ViewRef|]. intros _ s.
  by apply (records_nodes_quiet _ _ [EvSetCompiled r true]).
Qed.
End Recording.

Lemma NoDup_flat_map_unique {A B} (f : A → list B) (l : list A) x y b :
  NoDup (flat_map f l) → NoDup l →
  x ∈ l → y ∈ l → b ∈ f x → b ∈ f y → x = y.
Proof.
  induction l as [|z l IH]; simpl; [by intros _ _ ?%elem_of_nil|].
  intros [Hfz [Hdisj Hrest]]%NoDup_app [Hz Hl]%NoDup_cons
    [->|Hx]%elem_of_cons [->|Hy]%elem_of_cons Hbx Hby.
  - done.
  - destruct (Hdisj b Hbx). apply list_elem_of_In, in_flat_map.
    exists y. split; by apply list_elem_of_In.
  - destruct (Hdisj b Hby). apply list_elem_of_In, in_flat_map.
    exists x. split; by apply list_elem_of_In.
  - by apply IH.
Qed.

(** X5. After a compilation that returns, the View Nodes it created are
    exactly those of the View Node trees of the View References of the
    returned tree, in the order of that tree; every View Reference has View
    Nodes, and no View Node belongs to two View References. *)
Theorem view_nodes_partitioned this fuel component host s t s' :
  compile this fuel component host s = Ret t s' →
  ∃ T,
    trees s' !! t = Some (mkTree T)
    ∧ flat_map (nodes_of s') (tdata T)
      = seq (length (viewNodes s)) (length (viewNodes s') - length (viewNodes s))
    ∧ (∀ r, r ∈ tdata T → nodes_of s' r ≠ [])
    ∧ ∀ r1 r2 a,
        r1 ∈ tdata T → r2 ∈ tdata T →
        a ∈ nodes_of s' r1 → a ∈ nodes_of s' r2 → r1 = r2.
Proof.
  intros Hrun. destruct (compile_Ret_inv _ _ _ _ _ _ _ Hrun) as [sub Hpost].
  destruct (post_tree _ _ _ _ _ _ _ _ _ _ Hpost) as (_ & _ & Ht).
  pose proof (post_refs _ _ _ _ _ _ _ _ _ _ Hpost) as Hrefs.
  pose proof (post_trace _ _ _ _ _ _ _ _ _ _ Hpost) as Htrace.
  pose proof (recording_compileViewRef this fuel component host None None None s)
    as Hrec.
  fold (compile this fuel component host) in Hrec. rewrite Hrun in Hrec.
  destruct Hrec as (_ & L & HL & Hcreated).
  assert (L = pass_trace (nodes_of s') sub) as ->
    by (rewrite HL in Htrace; by apply app_inv_head in Htrace).
  rewrite created_nodes_pass_trace in Hcreated.
  exists sub. split_and!; [done|done| |].
  - intros r Hr. rewrite Hrefs in Hr. apply elem_of_seq in Hr.
    destruct (post_compiled _ _ _ _ _ _ _ _ _ _ Hpost r ltac:(lia))
      as (vr & NT & Hvr & _ & _ & HNT & _).
    unfold nodes_of. rewrite Hvr, HNT. by destruct NT.
  - intros r1 r2 a Hr1 Hr2.
    apply (NoDup_flat_map_unique (nodes_of s') (tdata sub)); [| |done..].
    + rewrite Hcreated. apply NoDup_seq.
    + rewrite Hrefs. apply NoDup_seq.
Qed.

Lemma view_nodes_partitioned_witness :
  ∃ T,
    trees DemoRun.compiled !! 1 = Some (mkTree T)
    ∧ flat_map (nodes_of DemoRun.compiled) (tdata T)
      = seq (length (viewNodes initial))
          (length (viewNodes DemoRun.compiled) - length (viewNodes initial))
    ∧ (∀ r, r ∈ tdata T → nodes_of DemoRun.compiled r ≠ [])
    ∧ ∀ r1 r2 a,
        r1 ∈ tdata T → r2 ∈ tdata T →
        a ∈ nodes_of DemoRun.compiled r1 → a ∈ nodes_of DemoRun.compiled r2 →
        r1 = r2.
Proof.
  apply (view_nodes_partitioned Demo.compiler 3 (Some 0) 1 initial 1
           DemoRun.compiled).
  vm_compute. reflexivity.
Defined.

(** ** The View and a Compiler that exists already *)

(** X7. When [Compiler.getInstance] was called with a Binding Builder
    before the View is constructed, the View's compiler is that earlier
    instance: it has the Binding Builder, and the parser, the factory and
    the registry of the earlier call, whatever the View hands over; the
    View takes the entry component from its own registry. *)
Theorem View_adopts_existing_compiler
    (ComponentFactory_getInstance : RootInjector → nat → ComponentFactory)
    (Parser_getInstance : Document → Parser) (document : Document)
    parser componentFactory componentsRegistry bindingBuilder
    rootInjector viewRegistry s :
  Compiler_instance s = None →
  View_instance s = None →
  ∃ compiler s1 view s2,
    Compiler_getInstance parser componentFactory componentsRegistry
      (Some bindingBuilder) s = Ret compiler s1
    ∧ View_getInstance ComponentFactory_getInstance Parser_getInstance document
        rootInjector viewRegistry s1 = Ret view s2
    ∧ _compiler view = compiler
    ∧ _bindingBuilder (_compiler view) = Some bindingBuilder
    ∧ _parser (_compiler view) = parser
    ∧ _componentFactory (_compiler view) = componentFactory
    ∧ _componentsRegistry (_compiler view) = componentsRegistry
    ∧ view_componentsRegistry view = viewRegistry
    ∧ Compiler_instance s2 = Some compiler
    ∧ View_instance s2 = Some view.
Proof.
  intros Hc Hv. unfold Compiler_getInstance at 1. rewrite Hc.
  eexists _, _. unfold View_getInstance, View_new, Compiler_new, bind, new_oid.
  simpl. rewrite Hv. simpl. eexists _, _. split_and!; reflexivity.
Qed.

Lemma View_adopts_existing_compiler_witness :
  ∃ compiler s1 view s2,
    Compiler_getInstance Demo.parser Demo.factory Demo.registry
      (Some Demo.builder) initial = Ret compiler s1
    ∧ View_getInstance (λ _ _, Demo.factory) (λ _, Demo.parser) 0
        0 Demo.empty_registry s1 = Ret view s2
    ∧ _compiler view = compiler
    ∧ _bindingBuilder (_compiler view) = Some Demo.builder
    ∧ _parser (_compiler view) = Demo.parser
    ∧ _componentFactory (_compiler view) = Demo.factory
    ∧ _componentsRegistry (_compiler view) = Demo.registry
    ∧ view_componentsRegistry view = Demo.empty_registry
    ∧ Compiler_instance s2 = Some compiler
    ∧ View_instance s2 = Some view.
Proof.
  apply (View_adopts_existing_compiler (λ _ _, Demo.factory) (λ _, Demo.parser) 0
           Demo.parser Demo.factory Demo.registry Demo.builder 0
           Demo.empty_registry initial); reflexivity.
Defined.

(** ** The first binding that cannot be built *)

Section FirstFailure.
Variable this : Compiler.
Variable bindingBuilder : BindingBuilder.
Hypothesis Hbuilder : _bindingBuilder this = Some bindingBuilder.

Lemma build_all_first_failure a raws j raw e :
  raws !! j = Some raw →
  build bindingBuilder raw a = inl e →
  (∀ j' raw', j' < j → raws !! j' = Some raw' →
              ∃ b, build bindingBuilder raw' a = inr b) →
  build_all this a raws = inl e.
Proof.
  revert j. induction raws as [|raw0 raws IH]; intros j Hj Hfail Hbefore; [done|].
  simpl. rewrite Hbuilder. destruct j as [|j]; simpl in Hj.
  - injection Hj as ->. by rewrite Hfail.
  - destruct (Hbefore 0 raw0 ltac:(lia) eq_refl) as [b ->].
    rewrite (IH j); [done..|].
    intros j' raw' Hj' Hraw'. apply (Hbefore (S j')); [lia|done].
Qed.

Lemma build_all_builds a raws :
  (∀ raw, raw ∈ raws → ∃ b, build bindingBuilder raw a = inr b) →
  ∃ bs, build_all this a raws = inr bs.
Proof.
  induction raws as [|raw raws IH]; intros Hraws; simpl; [by eexists|].
  rewrite Hbuilder. destruct (Hraws raw) as [b ->]; [set_solver|].
  destruct IH as [bs ->]; [intros; apply Hraws; set_solver|]. by eexists.
Qed.

Lemma expected_nodes_first_failure a ds i d e :
  ds !! i = Some d →
  build_all this (a + i) (TemplateASTNode.bindings d) = inl e →
  (∀ i' d' raw', i' < i → ds !! i' = Some d' →
                 raw' ∈ TemplateASTNode.bindings d' →
                 ∃ b, build bindingBuilder raw' (a + i') = inr b) →
  expected_nodes this a ds = inl e.
Proof.
  revert a i. induction ds as [|d0 ds IH]; intros a i Hi Hfail Hbefore; [done|].
  simpl. destruct i as [|i]; simpl in Hi.
  - injection Hi as ->. rewrite Nat.add_0_r in Hfail. by rewrite Hfail.
  - destruct (build_all_builds a (TemplateASTNode.bindings d0)) as [bs ->].
    { intros raw Hraw. destruct (Hbefore 0 d0 raw ltac:(lia) eq_refl Hraw) as [b Hb].
      rewrite Nat.add_0_r in Hb. eauto. }
    rewrite (IH (S a) i); [done|done| |].
    + by replace (S a + i) with (a + S i) by lia.
    + intros i' d' raw' Hi' Hd' Hraw'.
      replace (S a + i') with (a + S i') by lia.
      apply (Hbefore (S i') d'); [lia|done..].
Qed.
End FirstFailure.

(** X8. [_getViewNodes] builds the bindings in document order (the AST
    nodes in pre-order, the bindings of a node in their order), each for
    the View Node of its AST node, and stops at the first one that the
    Binding Builder fails on: it throws that error, returns no tree, and
    leaves the objects that existed before as they were. *)
Theorem getViewNodes_fails_at_first_bad_binding this bindingBuilder ast s
    i d j raw e :
  _bindingBuilder this = Some bindingBuilder →
  tdata ast !! i = Some d →
  TemplateASTNode.bindings d !! j = Some raw →
  build bindingBuilder raw (length (viewNodes s) + i) = inl e →
  (∀ i' d' raw', i' < i → tdata ast !! i' = Some d' →
                 raw' ∈ TemplateASTNode.bindings d' →
                 ∃ b, build bindingBuilder raw' (length (viewNodes s) + i') = inr b) →
  (∀ j' raw', j' < j → TemplateASTNode.bindings d !! j' = Some raw' →
              ∃ b, build bindingBuilder raw' (length (viewNodes s) + i) = inr b) →
  ∃ s', _getViewNodes this ast None None s = Throw e s' ∧ untouched s s'.
Proof.
  intros Hbuilder Hd Hraw Hfail Hnodes_before Hbefore.
  pose proof (getViewNodes_top this ast s) as Htop.
  rewrite (expected_nodes_first_failure this bindingBuilder Hbuilder _ _ i d e) in Htop;
    [|done| |done].
  - destruct Htop as [s' Htop]. exists s'. split; [done|].
    pose proof (getViewNodes_keeps this s ast None None s
                  (conj (frame_refl _ _ _ _) eq_refl) ltac:(done)) as Hkeeps.
    rewrite Htop in Hkeeps. destruct Hkeeps as [Hkeeps _].
    by apply frame_untouched.
  - by eapply build_all_first_failure.
Qed.

Lemma getViewNodes_fails_at_first_bad_binding_witness :
  ∃ s', _getViewNodes DemoBindings.compiler DemoBindings.ast None None initial
        = Throw DependencyResolutionError s'
        ∧ untouched initial s'.
Proof.
  apply (getViewNodes_fails_at_first_bad_binding DemoBindings.compiler
           DemoBindings.builder DemoBindings.ast initial
           1 (TemplateASTNode.mk 2 None ["b"; "bad"; "worse"]%string None)
           1 "bad"%string DependencyResolutionError).
  - reflexivity.
  - reflexivity.
  - reflexivity.
  - reflexivity.
  - intros i' d' raw' Hi' Hd' Hraw'. destruct i' as [|i']; [|lia].
    injection Hd' as <-. simpl in Hraw'. apply list_elem_of_singleton in Hraw' as ->.
    eexists. reflexivity.
  - intros j' raw' Hj' Hraw'. destruct j' as [|j']; [|lia].
    injection Hraw' as <-. eexists. reflexivity.
Defined.

(** ** A bootstrap whose compilation fails *)

(** X4. When the compilation of the entry component throws, [bootstrap]
    throws the same error, which a collaborator of the compiler failed
    with; the View holds the tree it held before, and no View Node, View
    Reference or tree that existed has changed. *)
Theorem bootstrap_propagates_compile_failure fuel view appHost component s e s' :
  getEntryComponent (view_componentsRegistry view) = Some component →
  compile (_compiler view) fuel (Some component) appHost s = Throw e s' →
  bootstrap fuel view appHost s = Throw e s'
  ∧ untouched s s'
  ∧ fails (_compiler view) (Some component) appHost e.
Proof.
  intros Hentry Hrun. split_and!.
  - unfold bootstrap. rewrite Hentry. cbn [assertEntryComponentRegistered].
    erewrite bind_Ret by reflexivity. by erewrite bind_Throw by exact Hrun.
  - apply frame_untouched.
    eapply frame_weaken;
      [by eapply (compileViewRef_throws (_compiler view) fuel); [exact Hrun|]|done..].
  - by eapply (compileViewRef_throws (_compiler view) fuel); [exact Hrun|].
Qed.

Lemma bootstrap_propagates_compile_failure_witness :
  bootstrap 3 DemoBroken.view 1 DemoRun.bootstrapped
  = Throw TypeError
      (outcome_state (compile Demo.compiler 3 (Some 2) 1 DemoRun.bootstrapped))
  ∧ untouched DemoRun.bootstrapped
      (outcome_state (compile Demo.compiler 3 (Some 2) 1 DemoRun.bootstrapped))
  ∧ fails Demo.compiler (Some 2) 1 TypeError.
Proof.
  apply (bootstrap_propagates_compile_failure 3 DemoBroken.view 1 2
           DemoRun.bootstrapped TypeError).
  - reflexivity.
  - vm_compute. reflexivity.
Defined.

(** ** Components that nest for ever *)

Section Diverges.
Variable this : Compiler.

Lemma expected_nodes_at a ds nodes i d :
  expected_nodes this a ds = inr nodes →
  ds !! i = Some d →
  ∃ vn, nodes !! i = Some vn
        ∧ ViewNode.componentSelector vn = TemplateASTNode.componentSelector d.
Proof.
  intros Hnodes Hd. apply expected_nodes_length in Hnodes as Hlen.
  destruct (lookup_lt_is_Some_2 nodes i) as [vn Hvn].
  { rewrite Hlen. by eapply lookup_lt_Some. }
  destruct (expected_nodes_lookup this _ _ _ _ _ Hnodes Hvn) as (d' & Hd' & Hsel & _).
  exists vn. split; [done|]. congruence.
Qed.

(** A placeholder of the AST is visited as one. *)
Lemma start_facts_has_placeholder component host viewRefTree parentViewRef
    hostViewNode ast nodes s s4 vr vt T0 d :
  start_facts this component host viewRefTree parentViewRef hostViewNode
    ast nodes s s4 vr vt T0 →
  d ∈ fdata (children (root ast)) →
  truthy (TemplateASTNode.componentSelector d) = true →
  ∃ v vn, v ∈ visitsDF (mkTree (relabel (length (viewNodes s)) (root ast)))
          ∧ viewNodes s4 !! data (node v) = Some vn
          ∧ is_placeholder v vn = true.
Proof.
  intros Hsf Hd Htruthy.
  pose proof (sf_nodes_ast _ _ _ _ _ _ _ _ _ _ _ _ _ Hsf) as Hnodes.
  pose proof (sf_nodes _ _ _ _ _ _ _ _ _ _ _ _ _ Hsf) as Hlookup.
  set (m0 := length (viewNodes s)) in *.
  destruct (root ast) as [d0 cs] eqn:Hroot. cbn [children] in Hd.
  apply list_elem_of_lookup in Hd as [i Hi].
  destruct (expected_nodes_at _ _ _ (S i) d Hnodes) as (vn & Hvn & Hsel).
  { by rewrite tdata_node. }
  assert (i < length (flat_map preorder cs)) as Hlt.
  { apply lookup_lt_Some in Hi. unfold fdata in Hi. by rewrite length_map in Hi. }
  destruct (lookup_lt_is_Some_2 (flat_map preorder (relabel_from (S m0) cs)) i)
    as [n Hn].
  { pose proof (fdata_relabel_from (S m0) cs) as Hdata.
    apply (f_equal length) in Hdata. unfold fdata in Hdata.
    rewrite length_map, length_seq in Hdata. lia. }
  assert (data n = S m0 + i) as Hdata.
  { pose proof (fdata_relabel_from (S m0) cs) as Hall.
    assert (fdata (relabel_from (S m0) cs) !! i = Some (data n)) as Hdn
      by (unfold fdata; by rewrite list_lookup_fmap, Hn).
    rewrite Hall in Hdn. apply lookup_seq in Hdn as [-> _]. done. }
  exists (mkVisited false n), vn. split_and!.
  - rewrite relabel_node. unfold visitsDF. cbn [root children].
    apply elem_of_cons. right. apply list_elem_of_fmap_2.
    by eapply list_elem_of_lookup_2.
  - cbn [node]. rewrite Hdata. specialize (Hlookup (S i) vn Hvn).
    by replace (S m0 + i) with (m0 + S i) by lia.
  - unfold is_placeholder. simpl. by rewrite Hsel.
Qed.

Variable C : option ComponentType → Prop.
Hypothesis HC : nests_forever this C.

Lemma discover_loop_diverges fuel r vt vs s :
  (∀ component host hv s1,
     C component → call_ok s1 (Some vt) (Some r) hv →
     _compileViewRef this fuel component host (Some vt) (Some r) hv s1 = OutOfFuel) →
  (∃ T, trees s !! vt = Some (mkTree T) ∧ r ∈ tdata T
        ∧ ∀ x, x ∈ tdata T → x < length (viewRefs s)) →
  (∀ v, v ∈ vs →
        ∃ vn, viewNodes s !! data (node v) = Some vn
              ∧ (is_placeholder v vn = true →
                 C (getBySelector (_componentsRegistry this)
                      (default ""%string (ViewNode.componentSelector vn))))) →
  (∃ v vn, v ∈ vs ∧ viewNodes s !! data (node v) = Some vn
           ∧ is_placeholder v vn = true) →
  forEach (discover this fuel vt r) vs s = OutOfFuel.
Proof.
  intros IH (T & HT & HrT & HT_lt) Hvs Hex.
  induction vs as [|v0 vs IHvs].
  { destruct Hex as (v & _ & []%elem_of_nil & _). }
  destruct (Hvs v0 ltac:(set_solver)) as (vn0 & Hvn0 & HC0).
  cbn [forEach]. unfold bind at 1. unfold discover at 1.
  erewrite bind_Ret by by apply deref_Some.
  fold (is_placeholder v0 vn0). destruct (is_placeholder v0 vn0) eqn:Hph.
  - unfold bind at 1. rewrite IH; [done|by apply HC0|]. split.
    + by exists T, r.
    + intros ? [= <-]. by eapply lookup_lt_Some.
  - simpl. apply IHvs.
    + intros v Hv. apply Hvs. set_solver.
    + destruct Hex as (v & vn & [->|Hv]%elem_of_cons & Hvn & Hphv); [|by eauto].
      congruence.
Qed.

Lemma compileViewRef_diverges fuel :
  ∀ component host viewRefTree parentViewRef hostViewNode s,
    C component →
    call_ok s viewRefTree parentViewRef hostViewNode →
    _compileViewRef this fuel component host viewRefTree parentViewRef hostViewNode s
    = OutOfFuel.
Proof.
  induction fuel as [|fuel IH];
    intros component host viewRefTree parentViewRef hostViewNode s Hc Hok; [done|].
  destruct (HC component host Hc)
    as (cref & ast & Hcreate & Hparse & Hbuilds & (d & Hd & Htruthy) & Hclosed).
  destruct (expected_nodes_inr this (length (viewNodes s)) (tdata (root ast)) Hbuilds)
    as [nodes Hnodes].
  destruct (compileViewRef_enter this fuel component host viewRefTree parentViewRef
              hostViewNode s cref ast nodes Hok Hcreate Hparse Hnodes)
    as (s4 & vr & vt & T0 & Hsf & _ & ->).
  destruct (start_facts_tree this _ _ _ _ _ _ _ _ _ _ _ _ Hsf) as [HrT0 HT0_le].
  unfold bind at 1.
  rewrite (discover_loop_diverges fuel (length (viewRefs s)) vt); [done| | | |].
  - intros. by apply IH.
  - exists T0. split_and!; [by eapply sf_T0|done|].
    intros x ?%HT0_le. rewrite (sf_refs _ _ _ _ _ _ _ _ _ _ _ _ _ Hsf), length_app.
    simpl. lia.
  - intros v Hv.
    destruct (start_facts_visits this _ _ _ _ _ _ _ _ _ _ _ _ _ Hsf Hv)
      as (_ & vn & Hvn & _ & Hsel).
    exists vn. split; [done|]. intros Hph. destruct (Hsel Hph) as (d' & Hd' & Heq).
    rewrite <- Heq. apply Hclosed; [done|]. rewrite Heq.
    unfold is_placeholder in Hph. by apply andb_true_iff in Hph as [_ ?].
  - by eapply start_facts_has_placeholder.
Qed.
End Diverges.

(** X6. A component whose template nests it again, directly or through
    other components, is never compiled: when every placeholder of the
    templates involved selects such a component and no collaborator fails
    on them, the compilation neither returns nor throws, whatever the
    fuel; the recursion goes on until the resources of the runtime are
    used up. *)
Theorem self_nesting_never_returns this C fuel component host s :
  nests_forever this C →
  C component →
  compile this fuel component host s = OutOfFuel.
Proof.
  intros HC Hc. by apply (compileViewRef_diverges this C HC).
Qed.

Lemma self_nesting_never_returns_witness :
  compile DemoLoop.compiler 50 (Some 7) 1 initial = OutOfFuel.
Proof.
  apply (self_nesting_never_returns DemoLoop.compiler (λ c, c = Some 7)).
  - intros c host ->. eexists _, _. split_and!; try reflexivity.
    + intros d raw Hd Hraw. vm_compute in Hd. set_unfold in Hd.
      destruct Hd as [->|[->|[->|[]]]]; by apply elem_of_nil in Hraw.
    + exists (TemplateASTNode.mk 41 (Some "loop"%string) [] None).
      split; [|reflexivity]. vm_compute. set_solver.
    + intros d Hd Htruthy. vm_compute in Hd. set_unfold in Hd.
      destruct Hd as [->|[->|[]]]; [done|reflexivity].
  - reflexivity.
Defined.

(** ** The tree of View References follows the nesting of components *)

Section Nesting.
Variable this : Compiler.

Lemma compiled_as_node s c host rh r cs :
  compiled_as this s c host rh (mkTreeNode r cs)
  ↔ ∃ vr ast NT,
      viewRefs s !! r = Some vr
      ∧ ViewRef.compiled vr = true
      ∧ ViewRef.renderHost vr = rh
      ∧ create (_componentFactory this) c host = inr (ViewRef.componentRef vr)
      ∧ parse (_parser this) (ComponentRef.template (ViewRef.componentRef vr)) host
        = inr ast
      ∧ trees s !! ViewRef.nodesTree vr = Some (mkTree NT)
      ∧ mirrors this s (root ast) NT
      ∧ Forall2 (child_as this s) cs (placeholders_of s (visitsDF (mkTree NT))).
Proof.
  cbn [compiled_as]. apply exist_proper; intros vr. apply exist_proper; intros ast.
  apply exist_proper; intros NT. do 7 apply and_iff_compat_l.
  generalize (placeholders_of s (visitsDF (mkTree NT))).
  induction cs as [|sub cs IH]; intros [|vn ps]; simpl.
  - split; [constructor|done].
  - split; [done|]. intros H. inversion H.
  - split; [done|]. intros H. inversion H.
  - rewrite IH. split.
    + intros [? ?]. by constructor.
    + intros H. inversion H. done.
Qed.

Lemma mirrors_ext s s' ast n :
  (∀ a, a ∈ tdata n →
        ∃ vn vn', viewNodes s !! a = Some vn ∧ viewNodes s' !! a = Some vn'
                  ∧ same_but_viewRef vn vn') →
  mirrors this s ast n → mirrors this s' ast n.
Proof.
  revert n. induction ast as [d cs IH] using TreeNode_ind. intros [a ns] Hsame.
  rewrite !mirrors_node. intros [(vn & Hvn & Helem & Hsel & Hbs) Hcs]. split.
  - destruct (Hsame a) as (vn0 & vn' & Hvn0 & Hvn' & He & Hs & Hb).
    { rewrite tdata_node. set_solver. }
    assert (vn0 = vn) as -> by congruence.
    exists vn'. rewrite He, Hs, Hb. done.
  - assert (∀ a', a' ∈ fdata ns →
                  ∃ vn vn', viewNodes s !! a' = Some vn ∧ viewNodes s' !! a' = Some vn'
                            ∧ same_but_viewRef vn vn') as Hns.
    { intros a' Ha'. apply Hsame. rewrite tdata_node. set_solver. }
    clear Hsame. revert ns Hcs Hns.
    induction IH as [|c cs Hc _ IHcs]; intros ns Hcs Hns.
    + inversion Hcs. constructor.
    + inversion Hcs as [|? n' ? ns' Hn' Hns' ]; subst.
      rewrite fdata_cons in Hns. constructor.
      * apply Hc; [|done]. intros a' Ha'. apply Hns. set_solver.
      * apply IHcs; [done|]. intros a' Ha'. apply Hns. set_solver.
Qed.

Lemma placeholders_of_ext s s' vs :
  (∀ v, v ∈ vs → viewNodes s' !! data (node v) = viewNodes s !! data (node v)) →
  placeholders_of s' vs = placeholders_of s vs.
Proof.
  intros Hvs. unfold placeholders_of.
  induction vs as [|v vs IH]; [done|]. cbn [omap list_omap].
  rewrite Hvs by set_solver. rewrite IH; [done|].
  intros v' Hv'. apply Hvs. set_solver.
Qed.

Lemma placeholders_of_app s vs1 vs2 :
  placeholders_of s (vs1 ++ vs2) = placeholders_of s vs1 ++ placeholders_of s vs2.
Proof. apply omap_app. Qed.

(** The compilation of a component stays one over a step that leaves its
    View References, their View Nodes and their View Node trees. *)
Lemma compiled_as_frame P Q vt s s' lo_n lo_t n :
  frame P Q vt s s' →
  (∀ a, P a → a < lo_n) →
  (∀ t, vt = Some t → t < lo_t) →
  (∀ r, r ∈ tdata n → compiled_ok this s lo_n lo_t r ∧ ¬ Q r) →
  ∀ c host rh, compiled_as this s c host rh n → compiled_as this s' c host rh n.
Proof.
  intros Hframe HP Hvt. induction n as [r cs IH] using TreeNode_ind.
  intros Hn c host rh. rewrite !compiled_as_node.
  intros (vr & ast & NT & Hvr & Hflag & Hrh & Hcreate & Hparse & HNT & Hmirrors & Hcs).
  destruct (Hn r) as [(vr0 & T & Hvr0 & _ & Hlo & HT & _ & Hge & Hvis) HQ].
  { rewrite tdata_node. set_solver. }
  assert (vr0 = vr) as -> by congruence.
  assert (T = NT) as -> by congruence.
  assert (∀ a, a ∈ tdata NT →
               ∃ vn, viewNodes s !! a = Some vn ∧ viewNodes s' !! a = Some vn)
    as Hsame.
  { intros a Ha. change (tdata NT) with (tdata (root (mkTree NT))) in Ha.
    rewrite <- visitsDF_data in Ha.
    apply list_elem_of_fmap in Ha as (v & -> & Hv).
    rewrite Forall_forall in Hvis. destruct (Hvis v Hv) as (vn & Hvn & _).
    exists vn. split; [done|].
    rewrite (frame_nodes _ _ _ _ _ Hframe); [done|by eapply lookup_lt_Some|].
    intros Ha'%HP. apply elem_of_visitsDF_data in Hv. apply Hge in Hv.
    simpl in *. lia. }
  exists vr, ast, NT. split_and!; try done.
  - rewrite (frame_refs _ _ _ _ _ Hframe); [done|by eapply lookup_lt_Some|done].
  - rewrite (frame_trees _ _ _ _ _ Hframe); [done|by eapply lookup_lt_Some|].
    intros Heq%Hvt. lia.
  - eapply mirrors_ext; [|exact Hmirrors]. intros a Ha.
    destruct (Hsame a Ha) as (vn & ? & ?). by exists vn, vn.
  - rewrite (placeholders_of_ext s s').
    2: { intros v Hv%elem_of_visitsDF_data.
         destruct (Hsame _ Hv) as (vn & ? & ?). simpl in *. congruence. }
    assert (∀ r', r' ∈ fdata cs → compiled_ok this s lo_n lo_t r' ∧ ¬ Q r') as Hcs_ok.
    { intros r' Hr'. apply Hn. rewrite tdata_node. set_solver. }
    clear -IH Hcs Hcs_ok.
    induction Hcs as [|sub vn cs ps [Href Hsub] _ IHcs]; [constructor|].
    apply Forall_cons in IH as [IHsub IH]. rewrite fdata_cons in Hcs_ok.
    constructor.
    + split; [done|]. apply IHsub; [|done]. intros r' Hr'. apply Hcs_ok. set_solver.
    + apply IHcs; [done|]. intros r' Hr'. apply Hcs_ok. set_solver.
Qed.
End Nesting.

Arguments compiled_as : simpl never.

Lemma graft_None_inv {A} `{EqDecision A} (p : A) sub n :
  graft p sub n = None → p ∉ tdata n.
Proof.
  intros Hg Hp. destruct (graft_is_Some p sub n Hp) as [? ?]. congruence.
Qed.

(** What was added by [graft] can be read off the result. *)
Lemma graft_inj {A} `{EqDecision A} (p : A) sub sub' n n' :
  graft p sub n = Some n' → graft p sub' n = Some n' → sub = sub'.
Proof.
  revert n'. induction n as [d cs IH] using TreeNode_ind. intros n'.
  rewrite !graft_node. case_decide as Hd.
  { intros [= <-] [= Heq]. by apply app_inj_tail in Heq as [_ ->]. }
  destruct (graft_first p sub cs) as [l|] eqn:Hl; [|done].
  destruct (graft_first p sub' cs) as [l'|] eqn:Hl'; [|done].
  intros [= <-] [= ->]. clear Hd. revert l Hl Hl'.
  induction IH as [|c cs Hc _ IHcs]; intros l; [done|]. simpl.
  destruct (graft p sub c) as [c1|] eqn:Hg.
  - destruct (graft p sub' c) as [c2|] eqn:Hg'.
    + intros [= <-] [= ->]. by eapply Hc.
    + apply graft_None_inv in Hg'. by rewrite graft_None in Hg.
  - destruct (graft p sub' c) as [c2|] eqn:Hg'.
    + apply graft_None_inv in Hg. by rewrite graft_None in Hg'.
    + destruct (graft_first p sub cs) as [l1|] eqn:Hl1; [|done].
      destruct (graft_first p sub' cs) as [l2|] eqn:Hl2; [|done].
      intros [= <-] [= ->]. by eapply IHcs.
Qed.

Section LoopNesting.
Variable this : Compiler.
Variable fuel : nat.
Hypothesis IH : compileViewRef_nesting_spec this fuel.
Variables (r vt : addr) (m1 t1 : nat) (T0 : TreeNode addr) (s0 : State).
Hypothesis Hvt : vt < t1.

(** The traversal adds one child for every placeholder it visits, in the
    order of the visits, and leaves the View Nodes it visits as they
    were, but for [viewRef]. *)
Lemma discover_loop_nesting vs :
  ∀ s cs s_end,
    loop_inv this r vt m1 t1 T0 s0 s cs →
    NoDup (map (data ∘ node) vs) →
    (∀ v, v ∈ vs →
          data (node v) < m1
          ∧ ∃ vn, viewNodes s !! data (node v) = Some vn
                  ∧ ViewNode.viewRef vn = None) →
    forEach (discover this fuel vt r) vs s = Ret tt s_end →
    ∃ cs2,
      (∀ T, trees s !! vt = Some (mkTree T) →
            ∃ T', graft_many r cs2 T = Some T'
                  ∧ trees s_end !! vt = Some (mkTree T'))
      ∧ Forall2 (child_as this s_end) cs2 (placeholders_of s_end vs)
      ∧ (∀ v, v ∈ vs →
              ∃ vn vn', viewNodes s !! data (node v) = Some vn
                        ∧ viewNodes s_end !! data (node v) = Some vn'
                        ∧ same_but_viewRef vn vn')
      ∧ (∀ r', r' ∈ fdata cs2 →
               length (viewRefs s) ≤ r' < length (viewRefs s_end)).
Proof.
  induction vs as [|v vs IHvs]; intros s cs s_end Hinv Hnd Hvs Hrun.
  { injection Hrun as <-. exists []. split_and!.
    - intros T HT. by exists T.
    - constructor.
    - by intros v ?%elem_of_nil.
    - by intros r' ?%elem_of_nil. }
  apply forEach_cons_inv in Hrun as (s1 & Hv & Hrun).
  apply NoDup_cons in Hnd as [Hv_notin Hnd].
  destruct (Hvs v ltac:(set_solver)) as (Hv_lt & vn & Hvn & Hvn_ref).
  destruct (discover_loop this fuel (compileViewRef_correct this fuel)
              r vt m1 t1 T0 s0 Hvt [v] s cs s1 Hinv)
    as (cs' & Hinv1 & _ & Hframe1).
  { apply NoDup_singleton. }
  { intros v' ->%list_elem_of_singleton. eauto. }
  { cbn [forEach]. by erewrite bind_Ret by exact Hv. }
  assert (∀ v', v' ∈ vs →
                viewNodes s1 !! data (node v') = viewNodes s !! data (node v'))
    as Hsame.
  { intros v' Hv'. destruct (Hvs v' ltac:(set_solver)) as (_ & vn' & Hvn' & _).
    apply (frame_nodes _ _ _ _ _ Hframe1); [by eapply lookup_lt_Some|].
    simpl. intros Hin%list_elem_of_singleton. apply Hv_notin.
    replace ((data ∘ node) v) with ((data ∘ node) v') by (simpl; congruence).
    by apply (list_elem_of_fmap_2 (data ∘ node)). }
  assert (∀ v', v' ∈ vs →
                data (node v') < m1
                ∧ ∃ vn', viewNodes s1 !! data (node v') = Some vn'
                         ∧ ViewNode.viewRef vn' = None) as Hvs1.
  { intros v' Hv'. destruct (Hvs v' ltac:(set_solver)) as (? & vn' & Hvn' & ?).
    split; [done|]. exists vn'. by rewrite Hsame. }
  destruct (discover_loop this fuel (compileViewRef_correct this fuel)
              r vt m1 t1 T0 s0 Hvt vs s1 (cs ++ cs') s_end Hinv1 Hnd Hvs1 Hrun)
    as (cs'' & Hinv_end & _ & Hframe_end).
  destruct (IHvs s1 (cs ++ cs') s_end Hinv1 Hnd Hvs1 Hrun)
    as (cs2 & Htree & Hchildren & Hnodes & Hrange).
  pose proof (frame_refs_len _ _ _ _ _ Hframe1) as Hlen_refs1.
  pose proof (frame_refs_len _ _ _ _ _ Hframe_end) as Hlen_refs_end.
  assert (viewNodes s_end !! data (node v) = viewNodes s1 !! data (node v))
    as Hv_end.
  { apply (frame_nodes _ _ _ _ _ Hframe_end); [|done].
    pose proof (frame_nodes_len _ _ _ _ _ Hframe1).
    apply lookup_lt_Some in Hvn. lia. }
  unfold discover in Hv. erewrite bind_Ret in Hv by by apply deref_Some.
  fold (is_placeholder v vn) in Hv.
  destruct (is_placeholder v vn) eqn:Hph.
  - (* a placeholder: its child is the next one *)
    apply bind_Ret_inv in Hv as (t & s1' & Hcall & [= ->]).
    destruct (inv_tree _ _ _ _ _ _ _ _ _ Hinv) as (T & HT & _ & HrT & HT_lt).
    assert (∀ vt', Some vt = Some vt' →
                   ∃ T, trees s !! vt' = Some (mkTree T)
                        ∧ ∀ x, x ∈ tdata T → x < length (viewRefs s)) as Hpre_tree
      by (intros vt' [= <-]; eauto).
    assert (∀ hv, Some v = Some hv → data (node hv) < length (viewNodes s))
      as Hpre_hv by (intros ? [= <-]; by eapply lookup_lt_Some).
    destruct (compileViewRef_correct this fuel _ _ _ _ _ _ _ _ Hcall Hpre_tree Hpre_hv)
      as [sub Hpost].
    pose proof (IH _ _ _ _ _ _ _ _ sub Hcall Hpre_tree Hpre_hv Hpost) as Hsub.
    destruct (post_tree _ _ _ _ _ _ _ _ _ _ Hpost)
      as (-> & p & T_ & T1 & [= <-] & HT_ & Hg & HT1).
    assert (T_ = T) as -> by congruence.
    destruct (post_host _ _ _ _ _ _ _ _ _ _ Hpost v eq_refl) as (vn0 & Hvn0 & Hvn1).
    assert (vn0 = vn) as -> by congruence.
    pose proof (post_root _ _ _ _ _ _ _ _ _ _ Hpost) as Hroot.
    pose proof (post_refs _ _ _ _ _ _ _ _ _ _ Hpost) as Hrefs.
    destruct (Htree T1 HT1) as (T' & HT' & Hend).
    exists (sub :: cs2). split_and!.
    + intros T2 HT2. assert (T2 = T) as -> by congruence.
      exists T'. simpl. by rewrite Hg.
    + change (v :: vs) with ([v] ++ vs). rewrite placeholders_of_app.
      assert (placeholders_of s_end [v]
              = [ViewNode.with_viewRef (Some (length (viewRefs s))) vn]) as ->.
      { unfold placeholders_of. cbn [omap list_omap]. rewrite Hv_end, Hvn1. simpl.
        unfold is_placeholder in *. simpl. by rewrite Hph. }
      simpl. constructor; [|done]. split; [simpl; by rewrite Hroot|]. simpl.
      eapply (compiled_as_frame this _ _ _ s1 s_end (length (viewNodes s))
                (length (trees s))); [exact Hframe_end| | | |exact Hsub].
      * intros a (v' & -> & Hv')%list_elem_of_fmap.
        destruct (Hvs v' ltac:(set_solver)) as (? & _).
        pose proof (inv_nodes_len _ _ _ _ _ _ _ _ _ Hinv). simpl. lia.
      * intros ? [= <-]. pose proof (inv_trees_len _ _ _ _ _ _ _ _ _ Hinv). lia.
      * intros r' Hr'. split; [|tauto].
        apply (post_compiled _ _ _ _ _ _ _ _ _ _ Hpost).
        rewrite Hrefs in Hr'. apply elem_of_seq in Hr'. lia.
    + intros v' [->|Hv']%elem_of_cons.
      * eexists _, _. split_and!; [exact Hvn|by rewrite Hv_end, Hvn1|done].
      * destruct (Hnodes v' Hv') as (vn1 & vn' & Hvn1' & ? & ?).
        exists vn1, vn'. rewrite <- Hsame by done. done.
    + intros r'. rewrite fdata_cons. intros [Hr'|Hr']%elem_of_app.
      * rewrite Hrefs in Hr'. apply elem_of_seq in Hr'. lia.
      * apply Hrange in Hr'. lia.
  - (* not a placeholder: no child *)
    injection Hv as <-. exists cs2. split_and!.
    + done.
    + change (v :: vs) with ([v] ++ vs). rewrite placeholders_of_app.
      assert (placeholders_of s_end [v] = []) as ->; [|done].
      unfold placeholders_of. cbn [omap list_omap]. rewrite Hv_end, Hvn. simpl.
      by rewrite Hph.
    + intros v' [->|Hv']%elem_of_cons; [|by apply Hnodes].
      exists vn, vn. rewrite Hv_end. done.
    + done.
Qed.
End LoopNesting.

Section NestingStep.
Variable this : Compiler.

Lemma graft_many_fresh_root {A} `{EqDecision A} (p a : A) subs (n n1 : TreeNode A) :
  a ∉ tdata n →
  graft p (mkTreeNode a []) n = Some n1 →
  graft_many a subs n1 = graft p (mkTreeNode a subs) n.
Proof. intros Ha Hg. by rewrite (graft_many_graft p a [] subs n n1). Qed.

Lemma compileViewRef_nesting_step fuel :
  compileViewRef_nesting_spec this fuel → compileViewRef_nesting_spec this (S fuel).
Proof.
  intros IH component host viewRefTree parentViewRef hostViewNode s t s' sub
    Hrun Hpre_tree Hpre_hv Hpost.
  cbn [_compileViewRef] in Hrun.
  apply bind_Ret_inv in Hrun as (cref & ? & [Hcreate ->]%call_Ret_inv & Hrun).
  apply bind_Ret_inv in Hrun as (ast & ? & [Hparse ->]%call_Ret_inv & Hrun).
  apply bind_Ret_inv in Hrun
    as (nt & s1 & (nodes & Hnodes & -> & ->)%getViewNodes_top_Ret_inv & Hrun).
  apply bind_Ret_inv in Hrun as (r & s2 & [= <- <-] & Hrun).
  apply bind_Ret_inv in Hrun as (vt & s3 & Htree & Hrun).
  apply bind_Ret_inv in Hrun as (u & s4 & Hhost & Hrun).
  apply bind_Ret_inv in Hrun as (vr & ? & [-> Hvr]%deref_Ret_inv & Hrun).
  apply bind_Ret_inv in Hrun as ([] & s5 & Htrav & Hrun).
  apply bind_Ret_inv in Hrun as ([] & s6 & Hset & [= <- <-]).
  destruct (traversal_start this _ _ _ _ _ _ _ _ _ _ _ _ _
              Hpre_tree Hpre_hv Hcreate Hnodes Htree Hhost) as (vr0 & T0 & Hsf).
  destruct (start_facts_tree this _ _ _ _ _ _ _ _ _ _ _ _ Hsf) as [HrT0 HT0_le].
  pose proof Hsf as [Hcreate0 _ Hframe04 Hrefs4 Hnt Hrh Hvt_ne HNT4 Hlen4 Hnodes4 Hhv
                       HT0 Htree0 Htrace4].
  simpl in Hvr.
  assert (vr = vr0) as ->.
  { rewrite Hrefs4, list_lookup_middle in Hvr by done. congruence. }
  assert (cref = ViewRef.componentRef vr0) as -> by congruence.
  apply expected_nodes_length in Hnodes as Hlen_nodes.
  rewrite length_tdata in Hlen_nodes.
  unfold traverseDF in Htrav. rewrite Hnt in Htrav.
  apply bind_Ret_inv in Htrav as (tree & ? & [-> Htree4]%deref_Ret_inv & Htrav).
  rewrite HNT4 in Htree4. injection Htree4 as <-.
  set (m0 := length (viewNodes s)) in *.
  set (r := length (viewRefs s)) in *.
  set (NT := relabel m0 (root ast)) in *.
  change (forEach (discover this fuel vt r) (visitsDF (mkTree NT)) s4 = Ret tt s5)
    in Htrav.
  unfold set_compiled, update_ViewRef in Hset.
  apply bind_Ret_inv in Hset as ([] & ? & Hset & [= <-]).
  apply bind_Ret_inv in Hset as (? & ? & [-> _]%deref_Ret_inv & [= <-]).
  set (s6 := log (EvSetCompiled r true)
               (set_viewRefs (alter (ViewRef.with_compiled true) r) s5)) in *.
  assert (vt < length (trees s4)) as Hvt by by eapply lookup_lt_Some.
  assert (length (viewRefs s4) = S r) as Hlen_refs4
    by (rewrite Hrefs4, length_app; simpl; lia).
  assert (loop_inv this r vt (m0 + length nodes) (length (trees s4)) T0 s4 s4 [])
    as Hinv.
  { constructor; try done; try lia.
    - exists T0. split_and!; try done. intros x ?%HT0_le. lia.
    - by rewrite Hlen_refs4, Nat.sub_diag.
    - simpl. by rewrite app_nil_r. }
  assert (NoDup (map (data ∘ node) (visitsDF (mkTree NT)))) as Hnd.
  { rewrite visitsDF_data. simpl. unfold NT. rewrite tdata_relabel. apply NoDup_seq. }
  assert (∀ v, v ∈ visitsDF (mkTree NT) →
               data (node v) < m0 + length nodes
               ∧ ∃ vn, viewNodes s4 !! data (node v) = Some vn
                       ∧ ViewNode.viewRef vn = None) as Hvs.
  { intros v Hv.
    destruct (start_facts_visits this _ _ _ _ _ _ _ _ _ _ _ _ _ Hsf Hv)
      as (? & vn & ? & ? & _). eauto. }
  destruct (discover_loop this fuel (compileViewRef_correct this fuel)
              r vt (m0 + length nodes) (length (trees s4)) T0 s4 Hvt _ s4 [] s5
              Hinv Hnd Hvs Htrav) as (cs_old & Hinv5 & _ & Hframe5).
  destruct (discover_loop_nesting this fuel IH
              r vt (m0 + length nodes) (length (trees s4)) T0 s4 Hvt _ s4 [] s5
              Hinv Hnd Hvs Htrav) as (cs & Hcs_tree & Hchildren & Hsame & Hrange).
  destruct (Hcs_tree T0 HT0) as (T5 & HT5 & Htrees5).
  (* the subtree is the View Reference with these children *)
  assert (sub = mkTreeNode r cs) as ->.
  { pose proof (post_tree _ _ _ _ _ _ _ _ _ _ Hpost) as Hpost_tree.
    destruct viewRefTree as [t0|].
    - destruct Hpost_tree as (_ & p & T & T' & -> & HT & Hg & HT').
      destruct Htree0 as (-> & p' & T_ & [= <-] & HT_ & Hg0 & HT_lt).
      assert (T_ = T) as -> by congruence.
      assert (T' = T5) as -> by (simpl in HT'; congruence).
      eapply graft_inj; [exact Hg|].
      rewrite <- HT5. symmetry. apply graft_many_fresh_root; [|done].
      intros ?%HT_lt. unfold r in *. lia.
    - destruct Hpost_tree as (_ & _ & Hsub).
      destruct Htree0 as (_ & _ & ->).
      rewrite graft_many_root in HT5. simpl in HT5, Hsub. congruence. }
  assert (frame (λ _, False) (λ x, x = r) None s5 s6) as Hframe6.
  { eapply frame_trans; [apply frame_set_viewRefs_alter|].
    eapply frame_weaken; [apply frame_log|done..]. }
  assert (viewRefs s5 !! r = Some vr0) as Hvr5.
  { rewrite (frame_refs _ _ _ _ _ Hframe5); [|lia|tauto].
    rewrite Hrefs4. by apply list_lookup_middle. }
  apply compiled_as_node.
  exists (ViewRef.with_compiled true vr0), ast, NT. split_and!.
  - simpl. by rewrite list_lookup_alter_eq, Hvr5.
  - done.
  - exact Hrh.
  - done.
  - done.
  - simpl. rewrite Hnt. rewrite (frame_trees _ _ _ _ _ Hframe5); [done| |congruence].
    by eapply lookup_lt_Some.
  - eapply (mirrors_ext this s4).
    + intros a Ha. change (tdata NT) with (tdata (root (mkTree NT))) in Ha.
      rewrite <- visitsDF_data in Ha. apply list_elem_of_fmap in Ha as (v & -> & Hv).
      by apply Hsame.
    + eapply mirrors_relabel; [exact Hnodes|exact Hnodes4].
  - rewrite (placeholders_of_ext s5 s6) by done.
    assert (∀ r', r' ∈ fdata cs →
                  compiled_ok this s5 (m0 + length nodes) (length (trees s4)) r'
                  ∧ r' ≠ r) as Hcs_ok.
    { intros r' Hr'%Hrange. split; [|lia].
      apply (inv_compiled _ _ _ _ _ _ _ _ _ Hinv5). lia. }
    clear -Hchildren Hcs_ok Hframe6.
    induction Hchildren as [|sub vn cs ps [Href Hsub] _ IHcs]; [constructor|].
    rewrite fdata_cons in Hcs_ok. constructor.
    + split; [done|].
      eapply (compiled_as_frame this _ _ _ s5 s6); [exact Hframe6| | | |exact Hsub].
      * done.
      * done.
      * intros r' Hr'. apply Hcs_ok. set_solver.
    + apply IHcs. intros r' Hr'. apply Hcs_ok. set_solver.
Qed.

(** Every call of [_compileViewRef] that returns meets
    [compileViewRef_nesting_spec]. *)
Lemma compileViewRef_nesting fuel : compileViewRef_nesting_spec this fuel.
Proof.
  induction fuel as [|fuel IH]; [|by apply compileViewRef_nesting_step].
  intros ? ? ? ? ? ? ? ? ? Hrun. done.
Qed.

Lemma compiled_as_below s n :
  ∀ c host rh m,
    compiled_as this s c host rh n → m ∈ flat_map preorder (children n) →
    ∃ c' host', compiled_as this s c' host' None m.
Proof.
  induction n as [r cs IH] using TreeNode_ind. intros c host rh m Hn.
  cbn [children]. intros Hm.
  apply compiled_as_node in Hn as (vr & ast & NT & _ & _ & _ & _ & _ & _ & _ & Hcs).
  induction Hcs as [|sub vn cs ps [_ Hsub] _ IHcs]; [by apply elem_of_nil in Hm|].
  apply Forall_cons in IH as [IHsub IH]. simpl in Hm.
  apply elem_of_app in Hm as [Hm|Hm]; [|by apply IHcs].
  destruct sub as [r' cs']. cbn [preorder] in Hm.
  apply elem_of_cons in Hm as [->|Hm]; [by eauto|].
  by eapply IHsub.
Qed.
End NestingStep.

(** X11. The tree that a compilation returns is the nesting of the
    components: its root is the View Reference of the component, made by
    the factory on the host, marked compiled and with the host as its
    render host; the View Node tree of every View Reference mirrors the
    AST that the parser made of its component's template; and the
    children of a View Reference are, one for one and in document order,
    the View References held by the placeholders of its View Node tree,
    each the compilation of the component the registry returns for the
    selector of its placeholder, on the element of the placeholder, marked
    compiled and without a render host. *)
Theorem compile_follows_nesting this fuel component host s t s' :
  compile this fuel component host s = Ret t s' →
  ∃ T, trees s' !! t = Some (mkTree T)
       ∧ compiled_as this s' component host (Some host) T.
Proof.
  intros Hrun. destruct (compile_Ret_inv _ _ _ _ _ _ _ Hrun) as [sub Hpost].
  destruct (post_tree _ _ _ _ _ _ _ _ _ _ Hpost) as (_ & _ & Ht).
  exists sub. split; [done|].
  exact (compileViewRef_nesting this fuel component host None None None s t s' sub
           Hrun ltac:(done) ltac:(done) Hpost).
Qed.

(** X12. After a compilation that returns, for every View Reference of
    the returned tree: its View Node tree mirrors the AST that the parser
    made of the template of its component, and its children in the tree
    are the View References that the placeholders of its View Node tree
    hold, in document order. *)
Theorem children_follow_placeholders this fuel component host s t s' :
  compile this fuel component host s = Ret t s' →
  ∃ T,
    trees s' !! t = Some (mkTree T)
    ∧ ∀ m, m ∈ preorder T →
        ∃ vr NT c h ast,
          viewRefs s' !! data m = Some vr
          ∧ trees s' !! ViewRef.nodesTree vr = Some (mkTree NT)
          ∧ create (_componentFactory this) c h = inr (ViewRef.componentRef vr)
          ∧ parse (_parser this) (ComponentRef.template (ViewRef.componentRef vr)) h
            = inr ast
          ∧ mirrors this s' (root ast) NT
          ∧ ViewNode.viewRef <$> placeholders_of s' (visitsDF (mkTree NT))
            = Some <$> (data <$> children m).
Proof.
  intros Hrun. destruct (compile_Ret_inv _ _ _ _ _ _ _ Hrun) as [sub Hpost].
  destruct (post_tree _ _ _ _ _ _ _ _ _ _ Hpost) as (_ & _ & Ht).
  exists sub. split; [done|]. intros m Hm.
  assert (compiled_as this s' component host (Some host) sub) as Hsub
    by exact (compileViewRef_nesting this fuel component host None None None s t s'
                sub Hrun ltac:(done) ltac:(done) Hpost).
  assert (∃ c h rh, compiled_as this s' c h rh m) as (c & h & rh & Hc).
  { destruct sub as [r0 cs0]. cbn [preorder] in Hm.
    apply elem_of_cons in Hm as [->|Hm]; [by eauto|].
    destruct (compiled_as_below this s' _ _ _ _ m Hsub Hm) as (c & h & Hc). eauto. }
  destruct m as [r cs]. apply compiled_as_node in Hc
    as (vr & ast & NT & Hvr & _ & _ & Hcreate & Hparse & HNT & Hmirrors & Hcs).
  exists vr, NT, c, h, ast. split_and!; try done. cbn [children].
  clear -Hcs. induction Hcs as [|sub vn cs ps [Href _] _ IHcs]; [done|].
  rewrite !fmap_cons. by rewrite Href, IHcs.
Qed.

(** X13. After a compilation that returns, the root View Reference of the
    returned tree has the host of the compilation as its render host, and
    no other View Reference of the tree has a render host. *)
Theorem render_host_at_root_only this fuel component host s t s' :
  compile this fuel component host s = Ret t s' →
  ∃ T,
    trees s' !! t = Some (mkTree T)
    ∧ (∃ vr, viewRefs s' !! data T = Some vr
             ∧ ViewRef.renderHost vr = Some host)
    ∧ ∀ m, m ∈ flat_map preorder (children T) →
        ∃ vr, viewRefs s' !! data m = Some vr ∧ ViewRef.renderHost vr = None.
Proof.
  intros Hrun. destruct (compile_Ret_inv _ _ _ _ _ _ _ Hrun) as [sub Hpost].
  destruct (post_tree _ _ _ _ _ _ _ _ _ _ Hpost) as (_ & _ & Ht).
  assert (compiled_as this s' component host (Some host) sub) as Hsub
    by exact (compileViewRef_nesting this fuel component host None None None s t s'
                sub Hrun ltac:(done) ltac:(done) Hpost).
  exists sub. split_and!; [done| |].
  - destruct sub as [r cs].
    apply compiled_as_node in Hsub as (vr & _ & _ & Hvr & _ & Hrh & _). eauto.
  - intros m Hm. destruct (compiled_as_below this s' _ _ _ _ m Hsub Hm) as (c & h & Hc).
    destruct m as [r cs].
    apply compiled_as_node in Hc as (vr & _ & _ & Hvr & _ & Hrh & _). eauto.
Qed.

Lemma compile_follows_nesting_witness :
  ∃ T, trees DemoRun.compiled !! 1 = Some (mkTree T)
       ∧ compiled_as Demo.compiler DemoRun.compiled (Some 0) 1 (Some 1) T.
Proof.
  apply (compile_follows_nesting Demo.compiler 3 (Some 0) 1 initial 1
           DemoRun.compiled).
  vm_compute. reflexivity.
Defined.

Lemma children_follow_placeholders_witness :
  ∃ T,
    trees DemoRun.compiled !! 1 = Some (mkTree T)
    ∧ ∀ m, m ∈ preorder T →
        ∃ vr NT c h ast,
          viewRefs DemoRun.compiled !! data m = Some vr
          ∧ trees DemoRun.compiled !! ViewRef.nodesTree vr = Some (mkTree NT)
          ∧ create (_componentFactory Demo.compiler) c h
            = inr (ViewRef.componentRef vr)
          ∧ parse (_parser Demo.compiler)
              (ComponentRef.template (ViewRef.componentRef vr)) h
            = inr ast
          ∧ mirrors Demo.compiler DemoRun.compiled (root ast) NT
          ∧ ViewNode.viewRef
              <$> placeholders_of DemoRun.compiled (visitsDF (mkTree NT))
            = Some <$> (data <$> children m).
Proof.
  apply (children_follow_placeholders Demo.compiler 3 (Some 0) 1 initial 1
           DemoRun.compiled).
  vm_compute. reflexivity.
Defined.

Example demo_placeholders :
  ViewNode.viewRef
    <$> placeholders_of DemoRun.compiled
          (visitsDF (mkTree (relabel 0 (Demo.app_ast 1))))
  = [Some 1].
Proof. vm_compute. reflexivity. Qed.

Lemma render_host_at_root_only_witness :
  ∃ T,
    trees DemoRun.compiled !! 1 = Some (mkTree T)
    ∧ (∃ vr, viewRefs DemoRun.compiled !! data T = Some vr
             ∧ ViewRef.renderHost vr = Some 1)
    ∧ ∀ m, m ∈ flat_map preorder (children T) →
        ∃ vr, viewRefs DemoRun.compiled !! data m = Some vr
              ∧ ViewRef.renderHost vr = None.
Proof.
  apply (render_host_at_root_only Demo.compiler 3 (Some 0) 1 initial 1
           DemoRun.compiled).
  vm_compute. reflexivity.
Defined.

(** ** The order of the [init] calls *)

Section BreadthFirst.
Context {A : Type}.

Lemma zip_levels_lookup (l1 l2 : list (list (TreeNode A))) d :
  zip_levels l1 l2 !! d
  = match l1 !! d, l2 !! d with
    | Some x, Some y => Some (x ++ y)
    | Some x, None => Some x
    | None, Some y => Some y
    | None, None => None
    end.
Proof.
  revert l2 d. induction l1 as [|x l1 IH]; intros [|y l2] d; simpl.
  - done.
  - by destruct (_ !! d).
  - by destruct (_ !! d).
  - destruct d as [|d]; simpl; [done|]. apply IH.
Qed.

(** The nodes at depth [d] below the siblings [cs]. *)
Lemma forest_level (cs : list (TreeNode A)) d m :
  (∃ lvl, fold_right (λ c acc, zip_levels (levels c) acc) [] cs !! d = Some lvl
          ∧ m ∈ lvl)
  ↔ ∃ c lvl, c ∈ cs ∧ levels c !! d = Some lvl ∧ m ∈ lvl.
Proof.
  induction cs as [|c cs IH]; simpl.
  - split; [by intros (? & ? & _)|by intros (? & ? & ?%elem_of_nil & _)].
  - rewrite zip_levels_lookup. split.
    + intros (lvl & Hlvl & Hm).
      destruct (levels c !! d) as [x|] eqn:Hx;
        destruct (fold_right _ _ cs !! d) as [y|] eqn:Hy; simplify_eq.
      * apply elem_of_app in Hm as [Hm|Hm].
        -- exists c, x. split_and!; [set_solver|done..].
        -- destruct (proj1 IH) as (c' & lvl' & ? & ? & ?); [by eauto|].
           exists c', lvl'. split_and!; [set_solver|done..].
      * exists c, lvl. split_and!; [set_solver|done..].
      * destruct (proj1 IH) as (c' & lvl' & ? & ? & ?); [by eauto|].
        exists c', lvl'. split_and!; [set_solver|done..].
    + intros (c' & lvl' & [->|Hc']%elem_of_cons & Hlvl' & Hm).
      * rewrite Hlvl'. destruct (fold_right _ _ cs !! d); eexists; split; eauto.
        set_solver.
      * destruct (proj2 IH) as (y & Hy & Hmy); [by eauto|]. rewrite Hy.
        destruct (levels c !! d); eexists; split; eauto. set_solver.
Qed.

Lemma levels_node (x : A) cs :
  levels (mkTreeNode x cs)
  = [mkTreeNode x cs] :: fold_right (λ c acc, zip_levels (levels c) acc) [] cs.
Proof. reflexivity. Qed.

(** Every node is on a level. *)
Lemma preorder_level (n m : TreeNode A) :
  m ∈ preorder n → ∃ d lvl, levels n !! d = Some lvl ∧ m ∈ lvl.
Proof.
  induction n as [x cs IH] using TreeNode_ind. cbn [preorder].
  intros [->|Hm]%elem_of_cons.
  { exists 0, [mkTreeNode x cs]. split; [done|set_solver]. }
  assert (∃ c, c ∈ cs ∧ m ∈ preorder c) as (c & Hc & Hmc).
  { clear IH. induction cs as [|c cs IHcs]; [by apply elem_of_nil in Hm|].
    simpl in Hm. apply elem_of_app in Hm as [Hm|Hm].
    - exists c. split; [set_solver|done].
    - destruct (IHcs Hm) as (c' & ? & ?). exists c'. split; [set_solver|done]. }
  rewrite Forall_forall in IH. destruct (IH c Hc Hmc) as (d & lvl & Hlvl & Hml).
  destruct (proj2 (forest_level cs d m)) as (lvl' & Hlvl' & Hml'); [by eauto|].
  exists (S d), lvl'. by rewrite levels_node.
Qed.

(** The children of a node are on the next level. *)
Lemma children_level (n m c : TreeNode A) d lvl :
  levels n !! d = Some lvl → m ∈ lvl → c ∈ children m →
  ∃ lvl', levels n !! S d = Some lvl' ∧ c ∈ lvl'.
Proof.
  revert d lvl. induction n as [x cs IH] using TreeNode_ind. intros d lvl.
  rewrite levels_node. destruct d as [|d]; simpl.
  - intros [= <-] ->%list_elem_of_singleton Hc. cbn [children] in Hc.
    apply (forest_level cs 0 c). exists c. destruct c as [y ds].
    exists [mkTreeNode y ds]. split_and!; [done|done|set_solver].
  - intros Hlvl Hm Hc.
    destruct (proj1 (forest_level cs d m)) as (c0 & lvl0 & Hc0 & Hlvl0 & Hm0);
      [by eauto|].
    rewrite Forall_forall in IH.
    destruct (IH c0 Hc0 d lvl0 Hlvl0 Hm0 Hc) as (lvl' & Hlvl' & Hcl).
    apply (forest_level cs (S d) c). by eauto.
Qed.

Lemma elem_of_concat_2 {B} (x : B) (ls : list (list B)) l :
  l ∈ ls → x ∈ l → x ∈ concat ls.
Proof.
  intros Hl Hx. apply list_elem_of_In, in_concat. exists l.
  split; by apply list_elem_of_In.
Qed.

(** Breadth-first, a node comes before its children. *)
Lemma levels_parent_first (n m c : TreeNode A) :
  m ∈ preorder n → c ∈ children m →
  ∃ l1 l2 l3, concat (levels n) = l1 ++ m :: l2 ++ c :: l3.
Proof.
  intros Hm Hc. destruct (preorder_level n m Hm) as (d & lvl & Hlvl & Hml).
  destruct (children_level n m c d lvl Hlvl Hml Hc) as (lvl' & Hlvl' & Hcl).
  rewrite <- (take_drop (S d) (levels n)), concat_app.
  assert (m ∈ concat (take (S d) (levels n))) as Hm1.
  { apply (elem_of_concat_2 _ _ lvl); [|done].
    apply (list_elem_of_lookup_2 _ d). rewrite lookup_take_lt by lia. done. }
  assert (c ∈ concat (drop (S d) (levels n))) as Hc2.
  { apply (elem_of_concat_2 _ _ lvl'); [|done].
    apply (list_elem_of_lookup_2 _ 0). rewrite lookup_drop, Nat.add_0_r. done. }
  apply list_elem_of_split in Hm1 as (l1 & l2 & ->).
  apply list_elem_of_split in Hc2 as (l2' & l3 & ->).
  exists l1, (l2 ++ l2'), l3. by rewrite <- !app_assoc.
Qed.
End BreadthFirst.

(** X14. In a bootstrap whose compilation returns, the first lifecycle
    call is the [init] of the root View Reference, and the [init] of a
    View Reference comes before the [init] of each of its children in the
    tree. *)
Theorem bootstrap_inits_parents_first fuel view appHost component s t s1 :
  getEntryComponent (view_componentsRegistry view) = Some component →
  compile (_compiler view) fuel (Some component) appHost s = Ret t s1 →
  ∃ T s',
    bootstrap fuel view appHost s = Ret tt s'
    ∧ trees s' !! t = Some (mkTree T)
    ∧ (∃ L, trace s' = trace s1 ++ EvInit (data T) :: L)
    ∧ ∀ m c, m ∈ preorder T → c ∈ children m →
        ∃ L1 L2 L3,
          trace s' = L1 ++ EvInit (data m) :: L2 ++ EvInit (data c) :: L3.
Proof.
  intros Hentry Hrun. destruct (compile_Ret_inv _ _ _ _ _ _ _ Hrun) as [sub Hpost].
  destruct (post_tree _ _ _ _ _ _ _ _ _ _ Hpost) as (_ & _ & Ht).
  eexists sub, _. split; [by eapply bootstrap_after_compile|].
  split_and!.
  - done.
  - simpl. destruct sub as [r cs]. rewrite levels_node. simpl.
    rewrite <- app_assoc. simpl. by eexists.
  - intros m c Hm Hc.
    destruct (levels_parent_first sub m c Hm Hc) as (l1 & l2 & l3 & Heq).
    exists (trace s1 ++ map EvInit (map data l1)), (map EvInit (map data l2)),
      (map EvInit (map data l3) ++ [EvUpdate (data sub)]).
    cbn [trace log log_all outcome_state set_viewRefTree modify]. rewrite Heq.
    rewrite !map_app, !map_cons, !map_app, !map_cons.
    rewrite <- !app_assoc. cbn [app]. rewrite <- !app_assoc. reflexivity.
Qed.

Lemma bootstrap_inits_parents_first_witness :
  ∃ T s',
    bootstrap 3 Demo.view 1 initial = Ret tt s'
    ∧ trees s' !! 1 = Some (mkTree T)
    ∧ (∃ L, trace s' = trace DemoRun.compiled ++ EvInit (data T) :: L)
    ∧ ∀ m c, m ∈ preorder T → c ∈ children m →
        ∃ L1 L2 L3,
          trace s' = L1 ++ EvInit (data m) :: L2 ++ EvInit (data c) :: L3.
Proof.
  apply (bootstrap_inits_parents_first 3 Demo.view 1 0 initial 1 DemoRun.compiled).
  - reflexivity.
  - vm_compute. reflexivity.
Defined.

(** ** Setting the [compiled] flag *)

Lemma forEach_Throw_inv {A} (f : A → M unit) vs s e s' :
  forEach f vs s = Throw e s' →
  ∃ vs1 v vs2 s1,
    vs = vs1 ++ v :: vs2 ∧ forEach f vs1 s = Ret tt s1 ∧ f v s1 = Throw e s'.
Proof.
  revert s. induction vs as [|v vs IH]; intros s Hrun; [done|].
  cbn [forEach] in Hrun.
  apply bind_Throw_inv in Hrun as [Hv|([] & s1 & Hv & Hrun)].
  - by exists [], v, vs, s.
  - destruct (IH s1 Hrun) as (vs1 & v' & vs2 & s2 & -> & Hvs1 & Hv').
    exists (v :: vs1), v', vs2, s2. split_and!; [done| |done].
    cbn [forEach]. by erewrite bind_Ret by exact Hv.
Qed.

Lemma tdata_preorder_subseteq {A} (n m : TreeNode A) :
  m ∈ preorder n → tdata m ⊆ tdata n.
Proof. intros Hm x Hx. by eapply tdata_subtree. Qed.

Lemma elem_of_fdata {A} (cs : list (TreeNode A)) x :
  x ∈ fdata cs ↔ ∃ c, c ∈ cs ∧ x ∈ tdata c.
Proof.
  induction cs as [|c cs IH].
  - rewrite fdata_nil. set_solver.
  - rewrite fdata_cons, elem_of_app, IH. set_solver.
Qed.

Lemma elem_of_flat_map_preorder {A} (cs : list (TreeNode A)) m :
  m ∈ flat_map preorder cs ↔ ∃ c, c ∈ cs ∧ m ∈ preorder c.
Proof.
  induction cs as [|c cs IH]; simpl.
  - set_solver.
  - rewrite elem_of_app, IH. set_solver.
Qed.

Lemma NoDup_tdata_subtree {A} (n m : TreeNode A) :
  NoDup (tdata n) → m ∈ preorder n → NoDup (tdata m).
Proof.
  induction n as [d ds IH] using TreeNode_ind. cbn [preorder].
  intros Hnd [->|Hm]%elem_of_cons; [done|].
  rewrite tdata_node in Hnd. apply NoDup_cons in Hnd as [_ Hnd].
  induction IH as [|c ds Hc _ IHds]; [set_solver|]. simpl in Hm.
  rewrite fdata_cons in Hnd. apply NoDup_app in Hnd as (? & _ & ?).
  apply elem_of_app in Hm as [Hm|Hm]; auto.
Qed.

(** The trace of a subtree is a segment of the trace of the forest, and
    no other event marks a View Reference of the subtree as compiled. *)
Lemma flat_map_pass_trace_at nodes (cs : list (TreeNode addr)) :
  NoDup (fdata cs) →
  ∀ m, m ∈ flat_map preorder cs →
    NoDup (tdata m)
    ∧ tdata m ⊆ fdata cs
    ∧ ∃ L1 L2, flat_map (pass_trace nodes) cs = L1 ++ pass_trace nodes m ++ L2
               ∧ ∀ r, r ∈ tdata m →
                   (EvSetCompiled r true ∉ L1) ∧ (EvSetCompiled r true ∉ L2).
Proof.
  induction cs as [|c cs IH]; intros Hnd m Hm; [by apply elem_of_nil in Hm|].
  rewrite fdata_cons in Hnd. apply NoDup_app in Hnd as (Hnd_c & Hdisj & Hnd_cs).
  simpl in Hm. apply elem_of_app in Hm as [Hm|Hm].
  - split; [by eapply NoDup_tdata_subtree|].
    pose proof (tdata_preorder_subseteq _ _ Hm) as Hsub.
    split; [rewrite fdata_cons; set_solver|].
    destruct (pass_trace_at nodes c Hnd_c m Hm) as (L1 & L2 & Heq & Hout).
    exists L1, (L2 ++ flat_map (pass_trace nodes) cs). simpl.
    rewrite Heq, <- !app_assoc. split; [done|]. intros r Hr.
    destruct (Hout r Hr) as [? ?]. split; [done|].
    rewrite elem_of_app, flat_map_pass_trace_events.
    intros [?|Hin%event_of_SetCompiled]; [done|]. eapply Hdisj; [|exact Hin].
    by apply Hsub.
  - destruct (IH Hnd_cs m Hm) as (Hnd_m & Hsub & L1 & L2 & Heq & Hout).
    split; [done|]. split; [rewrite fdata_cons; set_solver|].
    exists (pass_trace nodes c ++ L1), L2. simpl.
    rewrite Heq, <- !app_assoc. split; [done|]. intros r Hr.
    destruct (Hout r Hr) as [? ?]. split; [|done].
    rewrite elem_of_app, pass_trace_events.
    intros [Hin%event_of_SetCompiled|?]; [|done]. eapply Hdisj; [exact Hin|].
    by apply Hsub.
Qed.

(** What a trace segment that is the compilation of [m] says of the flag
    of the root of [m]. *)
Lemma pass_trace_marked_once nodes (m : TreeNode addr) L L1 L2 (C : addr → Prop) :
  NoDup (tdata m) →
  L = L1 ++ pass_trace nodes m ++ L2 →
  (EvSetCompiled (data m) true ∉ L1) → (EvSetCompiled (data m) true ∉ L2) →
  (∀ c, C c → c ∈ fdata (children m)) →
  marked_once L (data m) (nodes (data m)) C.
Proof.
  destruct m as [r cs]. cbn [data children pass_trace].
  rewrite tdata_node. intros [Hr_cs _]%NoDup_cons -> HL1 HL2 HC.
  exists (L1 ++ map EvNewViewNode (nodes r)
          ++ EvNewViewRef r :: flat_map (pass_trace nodes) cs), L2.
  split_and!.
  - rewrite <- !app_assoc. simpl. by rewrite <- !app_assoc.
  - rewrite !elem_of_app, elem_of_cons, list_elem_of_fmap,
      flat_map_pass_trace_events.
    intros [?|[(? & ? & ?)|[?|Hin%event_of_SetCompiled]]]; done.
  - done.
  - set_solver.
  - intros a Ha. rewrite !elem_of_app, list_elem_of_fmap. set_solver.
  - intros d Hd%HC.
    split; rewrite !elem_of_app, elem_of_cons, flat_map_pass_trace_events;
      right; right; right; exists d; split; auto.
Qed.

Section Below.
Variable this : Compiler.

(** In the compilation [m] of a component, the View References that the
    View Nodes of a View Reference of [m] hold are in [m], below its
    root. *)
Lemma holds_in_subtree s m :
  ∀ c0 h rh,
    compiled_as this s c0 h rh m →
    (∀ x, x ∈ tdata m → ∃ lo_n lo_t, compiled_ok this s lo_n lo_t x) →
    ∀ x c, x ∈ tdata m → holds s x c → c ∈ fdata (children m).
Proof.
  induction m as [r cs IH] using TreeNode_ind. intros c0 h rh Hm Hok x c Hx Hh.
  cbn [children].
  apply compiled_as_node in Hm
    as (vr & ast & NT & Hvr & _ & _ & _ & _ & HNT & _ & Hcs).
  rewrite tdata_node in Hx. apply elem_of_cons in Hx as [->|Hx].
  - destruct Hh as (vr' & NT' & a & vn & Hvr' & HNT' & Ha & Hvn & Hc).
    assert (vr' = vr) as -> by congruence.
    assert (NT' = NT) as -> by congruence.
    destruct (Hok r) as (lo_n & lo_t & vr0 & T & Hvr0 & _ & _ & HT & _ & _ & Hvis).
    { rewrite tdata_node. set_solver. }
    assert (vr0 = vr) as -> by congruence.
    assert (T = NT) as -> by congruence.
    change (tdata NT) with (tdata (root (mkTree NT))) in Ha.
    rewrite <- visitsDF_data in Ha.
    apply list_elem_of_fmap in Ha as (v & -> & Hv).
    rewrite Forall_forall in Hvis. destruct (Hvis v Hv) as (vn0 & Hvn0 & Hv_ok).
    simpl in Hvn. assert (vn0 = vn) as -> by congruence.
    destruct (is_placeholder v vn) eqn:Hph; [|congruence].
    assert (vn ∈ placeholders_of s (visitsDF (mkTree NT))) as Hin.
    { apply list_elem_of_omap. exists v. split; [done|].
      rewrite Hvn0. simpl. by rewrite Hph. }
    clear -Hcs Hin Hc. induction Hcs as [|sub vn' cs ps [Href _] _ IHcs].
    + by apply elem_of_nil in Hin.
    + rewrite fdata_cons. apply elem_of_cons in Hin as [<-|Hin].
      * assert (c = data sub) as -> by congruence.
        apply elem_of_app. left. destruct sub. rewrite tdata_node. set_solver.
      * apply elem_of_app. right. by apply IHcs.
  - assert (∀ x, x ∈ fdata cs → ∃ lo_n lo_t, compiled_ok this s lo_n lo_t x)
      as Hok_cs.
    { intros y Hy. apply Hok. rewrite tdata_node. set_solver. }
    clear Hok Hvr HNT. generalize dependent (placeholders_of s (visitsDF (mkTree NT))).
    intros ps Hcs. revert ps Hcs.
    induction IH as [|sub cs Hsub _ IHcs]; intros ps Hcs.
    { rewrite fdata_nil in Hx. by apply elem_of_nil in Hx. }
    inversion Hcs as [|? vn' ? ps' [_ Hsub_as] Hcs']; subst.
    rewrite fdata_cons in Hx, Hok_cs. rewrite fdata_cons.
    apply elem_of_app in Hx as [Hx|Hx].
    + apply elem_of_app. left.
      assert (c ∈ fdata (children sub)) as Hc.
      { eapply Hsub; [exact Hsub_as| |exact Hx|exact Hh].
        intros y Hy. apply Hok_cs. set_solver. }
      destruct sub. rewrite tdata_node. set_solver.
    + apply elem_of_app. right. eapply IHcs; [done| |exact Hcs'].
      intros y Hy. apply Hok_cs. set_solver.
Qed.

Lemma below_in_subtree s m c0 h rh :
  compiled_as this s c0 h rh m →
  (∀ x, x ∈ tdata m → ∃ lo_n lo_t, compiled_ok this s lo_n lo_t x) →
  ∀ x c, below s x c → x ∈ tdata m → c ∈ fdata (children m).
Proof.
  intros Hm Hok x c Hb. induction Hb as [x c Hh|x c d Hh _ IH]; intros Hx.
  - by eapply holds_in_subtree.
  - apply IH. assert (c ∈ fdata (children m)) by by eapply holds_in_subtree.
    destruct m. rewrite tdata_node. set_solver.
Qed.
End Below.

Lemma graft_many_inj_root {A} `{EqDecision A} (a : A) cs1 cs2 n :
  graft_many a cs1 (mkTreeNode a []) = Some n →
  graft_many a cs2 (mkTreeNode a []) = Some n →
  cs1 = cs2.
Proof. rewrite !graft_many_root. simpl. congruence. Qed.

Lemma graft_many_inj_fresh {A} `{EqDecision A} (p a : A) cs1 cs2 (n0 n1 n : TreeNode A) :
  a ∉ tdata n0 →
  graft p (mkTreeNode a []) n0 = Some n1 →
  graft_many a cs1 n1 = Some n →
  graft_many a cs2 n1 = Some n →
  cs1 = cs2.
Proof.
  intros Ha Hg. rewrite !(graft_many_fresh_root p a _ n0 n1) by done.
  intros H1 H2. pose proof (graft_inj _ _ _ _ _ H1 H2) as Heq. congruence.
Qed.

Section Aborts.
Variable this : Compiler.

Lemma aborted_nothing s s' L :
  viewRefs s' = viewRefs s →
  Forall (λ ev, ∃ a, ev = EvNewViewNode a) L →
  aborted this s s' L.
Proof.
  intros Hrefs HL. rewrite Forall_forall in HL. split_and!.
  - intros r b [a ?]%HL. done.
  - intros r [a ?]%HL. done.
  - intros r vr Hr Hvr. rewrite Hrefs in Hvr. apply lookup_lt_Some in Hvr. lia.
Qed.

(** The children that a traversal has compiled when it comes to the
    visit that throws. *)
Lemma discover_loop_done fuel component host viewRefTree parentViewRef hostViewNode
    ast nodes s s4 vr vt T0 vs1 sk :
  start_facts this component host viewRefTree parentViewRef hostViewNode
    ast nodes s s4 vr vt T0 →
  NoDup (map (data ∘ node) vs1) →
  vs1 ⊆ visitsDF (mkTree (relabel (length (viewNodes s)) (root ast))) →
  forEach (discover this fuel vt (length (viewRefs s))) vs1 s4 = Ret tt sk →
  ∃ cs,
    loop_inv this (length (viewRefs s)) vt (length (viewNodes s) + length nodes)
      (length (trees s4)) T0 s4 sk cs
    ∧ Forall (λ sub, ∃ c h, compiled_as this sk c h None sub) cs
    ∧ frame (λ a, a ∈ map (data ∘ node) vs1) (λ _, False) (Some vt) s4 sk.
Proof.
  intros Hsf Hnd Hsub Hrun.
  destruct (start_facts_tree this _ _ _ _ _ _ _ _ _ _ _ _ Hsf) as [HrT0 HT0_le].
  pose proof Hsf as [_ _ Hframe04 Hrefs4 Hnt Hrh Hvt_ne HNT4 Hlen4 _ Hhv HT0
                       Htree0 Htrace4].
  assert (vt < length (trees s4)) as Hvt by by eapply lookup_lt_Some.
  assert (length (viewRefs s4) = S (length (viewRefs s))) as Hlen_refs4
    by (rewrite Hrefs4, length_app; simpl; lia).
  assert (loop_inv this (length (viewRefs s)) vt
            (length (viewNodes s) + length nodes) (length (trees s4)) T0 s4 s4 [])
    as Hinv.
  { constructor; try done; try lia.
    - exists T0. split_and!; try done. intros x ?%HT0_le. lia.
    - by rewrite Hlen_refs4, Nat.sub_diag.
    - simpl. by rewrite app_nil_r. }
  assert (∀ v, v ∈ vs1 →
               data (node v) < length (viewNodes s) + length nodes
               ∧ ∃ vn, viewNodes s4 !! data (node v) = Some vn
                       ∧ ViewNode.viewRef vn = None) as Hvs.
  { intros v Hv%Hsub.
    destruct (start_facts_visits this _ _ _ _ _ _ _ _ _ _ _ _ _ Hsf Hv)
      as (? & vn & ? & ? & _). eauto. }
  destruct (discover_loop this fuel (compileViewRef_correct this fuel)
              (length (viewRefs s)) vt (length (viewNodes s) + length nodes)
              (length (trees s4)) T0 s4 Hvt _ s4 [] sk Hinv Hnd Hvs Hrun)
    as (cs & Hinvk & _ & Hframek).
  destruct (discover_loop_nesting this fuel (compileViewRef_nesting this fuel)
              (length (viewRefs s)) vt (length (viewNodes s) + length nodes)
              (length (trees s4)) T0 s4 Hvt _ s4 [] sk Hinv Hnd Hvs Hrun)
    as (cs2 & Htree2 & Hchildren & _ & _).
  simpl in Hinvk.
  destruct (Htree2 T0 HT0) as (T2 & HT2 & Htrees2).
  destruct (inv_tree _ _ _ _ _ _ _ _ _ Hinvk) as (T & HT & Hgm & _ & _).
  assert (T2 = T) as -> by congruence.
  assert (cs2 = cs) as ->.
  { destruct viewRefTree as [t0|].
    - destruct Htree0 as (-> & p & T_ & -> & HT_ & Hg0 & HT_lt).
      eapply (graft_many_inj_fresh p (length (viewRefs s)) _ _ T_ T0 T);
        [|done..].
      intros ?%HT_lt. lia.
    - destruct Htree0 as (_ & _ & ->). by eapply graft_many_inj_root. }
  exists cs. split_and!; [done| |done].
  clear -Hchildren. induction Hchildren as [|sub vn cs ps [_ Hsub] _ IHcs].
  - constructor.
  - constructor; [eauto|done].
Qed.

(** A call of [_compileViewRef] that throws meets
    [compileViewRef_abort_spec]. *)
Lemma compileViewRef_aborts fuel : compileViewRef_abort_spec this fuel.
Proof.
  induction fuel as [|fuel IH];
    intros component host viewRefTree parentViewRef hostViewNode s e s' Hrun Hok;
    [done|].
  pose proof (compileViewRef_throws this (S fuel) _ _ _ _ _ _ _ _ Hrun Hok)
    as (_ & _ & Hroot_flag & _).
  destruct (create (_componentFactory this) component host) as [e1|cref] eqn:Hcreate.
  { cbn [_compileViewRef] in Hrun.
    erewrite bind_Throw in Hrun by (rewrite Hcreate; reflexivity).
    injection Hrun as <- <-. exists []. rewrite app_nil_r. split; [done|].
    by apply aborted_nothing. }
  destruct (parse (_parser this) (ComponentRef.template cref) host)
    as [e1|ast] eqn:Hparse.
  { cbn [_compileViewRef] in Hrun.
    erewrite bind_Ret in Hrun by (rewrite Hcreate; reflexivity).
    erewrite bind_Throw in Hrun by (rewrite Hparse; reflexivity).
    injection Hrun as <- <-. exists []. rewrite app_nil_r. split; [done|].
    by apply aborted_nothing. }
  destruct (expected_nodes this (length (viewNodes s)) (tdata (root ast)))
    as [e1|nodes] eqn:Hnodes.
  { cbn [_compileViewRef] in Hrun.
    erewrite bind_Ret in Hrun by (rewrite Hcreate; reflexivity).
    erewrite bind_Ret in Hrun by (rewrite Hparse; reflexivity).
    pose proof (getViewNodes_top this (root ast) s) as Htop.
    rewrite Hnodes in Htop. destruct Htop as [s1 Htop].
    pose proof (getViewNodes_keeps this s (root ast) None None s
                  (conj (frame_refl _ _ _ _) eq_refl) ltac:(done)) as Hkeeps.
    rewrite Htop in Hkeeps. destruct Hkeeps as [_ Hrefs].
    pose proof (emits_getViewNodes (λ ev, ∃ a, ev = EvNewViewNode a)
                  (λ a, ex_intro _ a eq_refl) this (root ast) None None s) as Hemits.
    rewrite Htop in Hemits. destruct Hemits as (L & HL & HP).
    erewrite bind_Throw in Hrun by exact Htop. injection Hrun as <- <-.
    exists L. split; [done|]. by apply aborted_nothing. }
  destruct (compileViewRef_enter this fuel component host viewRefTree parentViewRef
              hostViewNode s cref ast nodes Hok Hcreate Hparse Hnodes)
    as (s4 & vr & vt & T0 & Hsf & Hvr_flag & Heq).
  rewrite Heq in Hrun. clear Heq.
  pose proof Hsf as [_ _ Hframe04 Hrefs4 Hnt Hrh Hvt_ne HNT4 Hlen4 _ Hhv HT0
                       Htree0 Htrace4].
  assert (vt < length (trees s4)) as Hvt by by eapply lookup_lt_Some.
  assert (NoDup (map (data ∘ node)
                   (visitsDF (mkTree (relabel (length (viewNodes s)) (root ast))))))
    as Hnd.
  { rewrite visitsDF_data. simpl. rewrite tdata_relabel. apply NoDup_seq. }
  set (r0 := length (viewRefs s)) in *.
  set (m1 := length (viewNodes s) + length nodes) in *.
  apply bind_Throw_inv in Hrun as [Hloop|([] & s5 & Hloop & Hrun)].
  - (* the traversal throws: at the visit [v], from the state [sk] *)
    apply forEach_Throw_inv in Hloop as (vs1 & v & vs2 & sk & Hvs & Hvs1 & Hv).
    rewrite Hvs, map_app, map_cons in Hnd.
    apply NoDup_app in Hnd as (Hnd1 & Hv_notin & _).
    assert (v ∈ visitsDF (mkTree (relabel (length (viewNodes s)) (root ast))))
      as Hv_in by (rewrite Hvs; set_solver).
    destruct (discover_loop_done fuel _ _ _ _ _ _ _ _ _ _ _ _ vs1 sk Hsf Hnd1)
      as (cs & Hinvk & Hcs & Hframek); [rewrite Hvs; set_solver|done|].
    destruct (start_facts_visits this _ _ _ _ _ _ _ _ _ _ _ _ _ Hsf Hv_in)
      as (Hv_lt & vn & Hvn4 & _ & _).
    assert (viewNodes sk !! data (node v) = Some vn) as Hvn.
    { rewrite (frame_nodes _ _ _ _ _ Hframek); [done|by eapply lookup_lt_Some|].
      intros Hin. eapply Hv_notin; [exact Hin|]. set_solver. }
    unfold discover in Hv. erewrite bind_Ret in Hv by by apply deref_Some.
    fold (is_placeholder v vn) in Hv.
    destruct (is_placeholder v vn) eqn:Hph; [|done].
    apply bind_Throw_inv in Hv as [Hcall|(? & ? & _ & ?)]; [|done].
    assert (call_ok sk (Some vt) (Some r0) (Some v)) as Hok_k.
    { split.
      - destruct (inv_tree _ _ _ _ _ _ _ _ _ Hinvk) as (T & HT & _ & HrT & HT_lt).
        by exists T, r0.
      - intros ? [= <-]. by eapply lookup_lt_Some. }
    destruct (IH _ _ _ _ _ _ _ _ Hcall Hok_k) as (Lc & HLc & Ha & Hb & Hc).
    destruct (compileViewRef_throws this fuel _ _ _ _ _ _ _ _ Hcall Hok_k)
      as (_ & Hframe' & _ & _).
    pose proof (inv_refs _ _ _ _ _ _ _ _ _ Hinvk) as Hrefs_cs.
    pose proof (inv_refs_len _ _ _ _ _ _ _ _ _ Hinvk) as Hlen_k.
    pose proof (frame_refs_len _ _ _ _ _ Hframe') as Hlen'.
    assert (∀ x, x ∈ fdata cs → r0 < x < length (viewRefs sk)) as Hrange.
    { intros x Hx. rewrite Hrefs_cs in Hx. apply elem_of_seq in Hx. lia. }
    assert (∀ x, x ∈ fdata cs → compiled_ok this sk m1 (length (trees s4)) x)
      as Hcs_ok.
    { intros x Hx%Hrange. by apply (inv_compiled _ _ _ _ _ _ _ _ _ Hinvk). }
    assert (NoDup (fdata cs)) as Hnd_cs by (rewrite Hrefs_cs; apply NoDup_seq).
    assert (flat_map (pass_trace (nodes_of sk)) cs
            = flat_map (pass_trace (nodes_of s')) cs) as Hext.
    { apply flat_map_pass_trace_ext. intros x Hx. symmetry.
      eapply nodes_of_frame; [exact Hframe'|by apply Hcs_ok|tauto|].
      by intros ? [= <-]. }
    set (Lstart := map EvNewViewNode (seq (length (viewNodes s)) (length nodes))
                   ++ [EvNewViewRef r0]) in *.
    assert (∀ x b, EvSetCompiled x b ∉ Lstart) as Hstart.
    { intros x b. unfold Lstart.
      rewrite elem_of_app, list_elem_of_fmap, list_elem_of_singleton.
      intros [(? & ? & ?)|?]; done. }
    exists (Lstart ++ flat_map (pass_trace (nodes_of s')) cs ++ Lc). split.
    { rewrite HLc, (inv_trace _ _ _ _ _ _ _ _ _ Hinvk), Htrace4, Hext.
      by rewrite <- !app_assoc. }
    split_and!.
    + intros x b. rewrite !elem_of_app, flat_map_pass_trace_events.
      intros [Hx|[(x' & Hx' & Hev)|Hx]].
      * by apply Hstart in Hx.
      * apply Hrange in Hx'.
        destruct Hev as [?|[[= -> ->]|(? & ? & ?)]]; [done| |done].
        split; [done|lia].
      * apply Ha in Hx as [-> ?]. split; [done|lia].
    + intros x. rewrite !elem_of_app.
      intros [Hx|[Hx|Hx]].
      * by apply Hstart in Hx.
      * (* a View Reference of a child that was compiled *)
        apply flat_map_pass_trace_events, event_of_SetCompiled in Hx.
        apply list_elem_of_fmap in Hx as (m & -> & Hm).
        destruct (flat_map_pass_trace_at (nodes_of s') cs Hnd_cs m Hm)
          as (Hnd_m & Hm_sub & L1 & L2 & Heq & Hout).
        assert (∃ c h, compiled_as this sk c h None m) as (c & h & Hm_as).
        { apply elem_of_flat_map_preorder in Hm as (sub & Hsub & Hm).
          rewrite Forall_forall in Hcs. destruct (Hcs sub Hsub) as (c & h & Hsub_as).
          destruct sub as [r' cs']. cbn [preorder] in Hm.
          apply elem_of_cons in Hm as [->|Hm]; [by eauto|].
          by eapply compiled_as_below. }
        exists m, c, h, (Lstart ++ L1), (L2 ++ Lc). split_and!.
        -- done.
        -- eapply (compiled_as_frame this _ _ _ sk s' m1 (length (trees s4)));
             [exact Hframe'| | | |exact Hm_as].
           ++ simpl. intros a [= <-]. done.
           ++ by intros ? [= <-].
           ++ intros x Hx%Hm_sub. split; [by apply Hcs_ok|tauto].
        -- done.
        -- rewrite Heq, <- !app_assoc. done.
        -- intros x Hx. destruct (Hout x Hx) as [HL1 HL2].
           apply Hm_sub, Hrange in Hx. split; [lia|]. split.
           ++ rewrite elem_of_app. intros [?%Hstart|?]; done.
           ++ rewrite elem_of_app. intros [?|[_ ?]%Ha]; [done|lia].
      * (* a View Reference below the child that failed *)
        destruct (Hb x Hx) as (m & c & h & L1 & L2 & Hdata & Hm_as & Hnd_m & Heq & Hout).
        exists m, c, h, (Lstart ++ flat_map (pass_trace (nodes_of s')) cs ++ L1), L2.
        split_and!; [done..| |].
        -- rewrite Heq, <- !app_assoc. done.
        -- intros y Hy. destruct (Hout y Hy) as (Hlt & HL1 & HL2).
           split; [lia|]. split; [|done].
           rewrite !elem_of_app, flat_map_pass_trace_events.
           intros [?%Hstart|[?%event_of_SetCompiled%Hrange|?]]; [done|lia|done].
    + intros x vx Hx Hvx Hflag. rewrite !elem_of_app.
      destruct (decide (x = r0)) as [->|Hne].
      { rewrite (Hroot_flag vx Hvx) in Hflag. done. }
      right. destruct (decide (x < length (viewRefs sk))) as [Hlt|Hge].
      * left. apply flat_map_pass_trace_events. exists x. split; [|by right; left].
        rewrite Hrefs_cs. apply elem_of_seq. lia.
      * right. eapply Hc; [|exact Hvx|exact Hflag]. lia.
  - (* the traversal returns: the rest does *)
    exfalso.
    destruct (discover_loop_done fuel _ _ _ _ _ _ _ _ _ _ _ _ _ s5 Hsf Hnd)
      as (cs & _ & _ & Hframe); [done..|].
    pose proof (frame_refs_len _ _ _ _ _ Hframe) as Hlen5.
    destruct (lookup_lt_is_Some_2 (viewRefs s5) r0) as [vr5 Hvr5].
    { rewrite Hrefs4, length_app in Hlen5. simpl in Hlen5. unfold r0. lia. }
    unfold set_compiled, update_ViewRef in Hrun.
    erewrite bind_Ret in Hrun; [done|].
    erewrite bind_Ret; [reflexivity|].
    erewrite bind_Ret; [reflexivity|]. by apply deref_Some.
Qed.
End Aborts.

Section FlagFacts.
Variable this : Compiler.

Lemma elem_of_tdata {A} (n : TreeNode A) x :
  x ∈ tdata n ↔ ∃ m, m ∈ preorder n ∧ data m = x.
Proof. unfold tdata. rewrite list_elem_of_fmap. naive_solver. Qed.

Lemma compiled_as_at s c h rh n m :
  compiled_as this s c h rh n → m ∈ preorder n →
  ∃ c' h' rh', compiled_as this s c' h' rh' m.
Proof.
  intros Hn Hm. destruct n as [r cs]. cbn [preorder] in Hm.
  apply elem_of_cons in Hm as [->|Hm]; [by eauto|].
  destruct (compiled_as_below this s _ _ _ _ m Hn Hm) as (c' & h' & ?). eauto.
Qed.

Lemma compiled_as_flag s c h rh m :
  compiled_as this s c h rh m →
  ∃ vr, viewRefs s !! data m = Some vr ∧ ViewRef.compiled vr = true.
Proof.
  destruct m as [r cs]. intros (vr & _ & _ & ? & ? & _)%compiled_as_node. eauto.
Qed.

(** The flag of the root of a compilation [m] whose trace is a segment
    of [L]. *)
Lemma compiled_as_marked_once s c h rh m L L1 L2 :
  compiled_as this s c h rh m →
  (∀ x vx, x ∈ tdata m → viewRefs s !! x = Some vx → ViewRef.compiled vx = true →
           ∃ lo_n lo_t, compiled_ok this s lo_n lo_t x) →
  NoDup (tdata m) →
  L = L1 ++ pass_trace (nodes_of s) m ++ L2 →
  (EvSetCompiled (data m) true ∉ L1) → (EvSetCompiled (data m) true ∉ L2) →
  marked_once L (data m) (nodes_of s (data m)) (below s (data m)).
Proof.
  intros Hm Hok Hnd HL HL1 HL2.
  eapply pass_trace_marked_once; [done..|].
  intros c' Hc'. eapply (below_in_subtree this s m); [exact Hm| |exact Hc'|].
  - intros x Hx. pose proof Hx as (m' & Hm' & <-)%elem_of_tdata.
    destruct (compiled_as_at _ _ _ _ _ _ Hm Hm') as (? & ? & ? & Hm'_as).
    destruct (compiled_as_flag _ _ _ _ _ Hm'_as) as (vx & ? & ?). eauto.
  - destruct m. rewrite tdata_node. set_solver.
Qed.
End FlagFacts.

(** C4. In a compilation that returns, the View References created are
    those of the returned tree; all of them end up compiled; the flag is
    never written [false]; and for every one of them, [r], the trace of the
    compilation holds exactly one write of [true], which comes after the
    creation of the View Nodes of [r], after that of [r], and after the
    creation and the marking of every View Reference below [r], in the
    returned tree as well as through the View Nodes that hold View
    References.  In a compilation that throws, the only writes to a flag
    are of [true], to View References created after the one of the
    component that was to be compiled, which stays unmarked; a created View
    Reference that is marked compiled in the end has had its flag set
    exactly once, in the same order; one that is not has never had it
    set. *)
Theorem compiled_flag_set_once this fuel component host s :
  (∀ t s',
     compile this fuel component host s = Ret t s' →
     (∃ T L,
        trees s' !! t = Some (mkTree T)
        ∧ tdata T = seq (length (viewRefs s)) (length (viewRefs s') - length (viewRefs s))
        ∧ trace s' = trace s ++ L
        ∧ (∀ r, EvSetCompiled r false ∉ L)
        ∧ ∀ m, m ∈ preorder T →
            (∃ vr, viewRefs s' !! data m = Some vr ∧ ViewRef.compiled vr = true)
            ∧ ∃ L1 L2,
                L = L1 ++ EvSetCompiled (data m) true :: L2
                ∧ (EvSetCompiled (data m) true ∉ L1)
                ∧ (EvSetCompiled (data m) true ∉ L2)
                ∧ EvNewViewRef (data m) ∈ L1
                ∧ (∀ a, a ∈ nodes_of s' (data m) → EvNewViewNode a ∈ L1)
                ∧ ∀ d, d ∈ fdata (children m) →
                    EvNewViewRef d ∈ L1 ∧ EvSetCompiled d true ∈ L1)
     ∧ every_flag_set_once s s')
  ∧ (∀ e s',
       compile this fuel component host s = Throw e s' →
       ∃ L,
         trace s' = trace s ++ L
         ∧ (∀ r b, EvSetCompiled r b ∈ L →
                   b = true ∧ length (viewRefs s) < r < length (viewRefs s'))
         ∧ (∀ vr, viewRefs s' !! length (viewRefs s) = Some vr →
                  ViewRef.compiled vr = false)
         ∧ ∀ r vr,
             length (viewRefs s) ≤ r →
             viewRefs s' !! r = Some vr →
             if ViewRef.compiled vr
             then marked_once L r (nodes_of s' r) (below s' r)
             else EvSetCompiled r true ∉ L).
Proof.
  split.
  - intros t s' Hrun. pose proof Hrun as [sub Hpost]%compile_Ret_inv.
    destruct (post_tree _ _ _ _ _ _ _ _ _ _ Hpost) as (_ & _ & Ht).
    pose proof (post_refs _ _ _ _ _ _ _ _ _ _ Hpost) as Hrefs.
    pose proof (post_trace _ _ _ _ _ _ _ _ _ _ Hpost) as Htrace.
    assert (NoDup (tdata sub)) as Hnd by (rewrite Hrefs; apply NoDup_seq).
    assert (∀ r, EvSetCompiled r false ∉ pass_trace (nodes_of s') sub) as Hfalse.
    { intros r (r' & _ & [?|[?|(? & ? & ?)]])%pass_trace_events; done. }
    split.
    + exists sub, (pass_trace (nodes_of s') sub). split_and!; [done..|].
      intros m Hm. split.
      * assert (data m ∈ tdata sub) as Hr by by apply list_elem_of_fmap_2.
        pose proof (compile_post_in_tree _ _ _ _ _ _ _ _ _ _ _ Hpost Hr) as Hrange.
        destruct (post_compiled _ _ _ _ _ _ _ _ _ _ Hpost _ Hrange)
          as (vr & ? & ? & ? & _). eauto.
      * destruct (pass_trace_at (nodes_of s') sub Hnd m Hm) as (L1 & L2 & HL & Hout).
        destruct (Hout (data m)) as [HL1 HL2].
        { destruct m. rewrite tdata_node. set_solver. }
        by eapply (pass_trace_marked_once (nodes_of s') m _ L1 L2
                     (λ d, d ∈ fdata (children m)));
          [by eapply NoDup_tdata_subtree|..].
    + exists (pass_trace (nodes_of s') sub). split_and!; [done..|].
      intros r Hr.
      assert (r ∈ tdata sub) as (m & Hm & <-)%elem_of_tdata.
      { rewrite Hrefs. apply elem_of_seq. lia. }
      assert (compiled_as this s' component host (Some host) sub) as Hsub
        by exact (compileViewRef_nesting this fuel component host None None None
                    s t s' sub Hrun ltac:(done) ltac:(done) Hpost).
      destruct (compiled_as_at this _ _ _ _ _ _ Hsub Hm) as (c & h & rh & Hm_as).
      destruct (pass_trace_at (nodes_of s') sub Hnd m Hm) as (L1 & L2 & HL & Hout).
      destruct (Hout (data m)) as [HL1 HL2].
      { destruct m. rewrite tdata_node. set_solver. }
      eapply (compiled_as_marked_once this _ _ _ _ _ _ L1 L2 Hm_as);
        [|by eapply NoDup_tdata_subtree|done..].
      intros x vx Hx _ _. eexists _, _.
      apply (post_compiled _ _ _ _ _ _ _ _ _ _ Hpost).
      eapply compile_post_in_tree; [exact Hpost|]. by eapply tdata_subtree.
  - intros e s' Hrun. unfold compile in Hrun.
    destruct (compileViewRef_aborts this fuel _ _ _ _ _ _ _ _ Hrun ltac:(done))
      as (L & HL & Ha & Hb & Hc).
    destruct (compileViewRef_throws this fuel _ _ _ _ _ _ _ _ Hrun ltac:(done))
      as (_ & _ & Hroot & Hflags).
    exists L. split_and!; [done..|].
    intros r vr Hr Hvr. destruct (ViewRef.compiled vr) eqn:Hflag.
    + destruct (Hb r (Hc r vr Hr Hvr Hflag))
        as (m & c & h & L1 & L2 & <- & Hm_as & Hnd_m & Heq & Hout).
      destruct (Hout (data m)) as (_ & HL1 & HL2).
      { destruct m. rewrite tdata_node. set_solver. }
      eapply (compiled_as_marked_once this _ _ _ _ _ _ L1 L2 Hm_as); [|done..].
      intros x vx Hx Hvx Hvx_flag. destruct (Hout x Hx) as (Hlt & _).
      destruct (Hflags x vx ltac:(lia) Hvx Hvx_flag) as [Hok _]. eauto.
    + intros Hin.
      destruct (Hb r Hin) as (m & c & h & L1 & L2 & <- & Hm_as & _).
      destruct (compiled_as_flag this _ _ _ _ _ Hm_as) as (vr' & ? & ?). congruence.
Qed.

Lemma compiled_flag_set_once_witness :
  ((∃ T L,
      trees DemoRun.compiled !! 1 = Some (mkTree T)
      ∧ tdata T = seq (length (viewRefs initial))
                    (length (viewRefs DemoRun.compiled) - length (viewRefs initial))
      ∧ trace DemoRun.compiled = trace initial ++ L
      ∧ (∀ r, EvSetCompiled r false ∉ L)
      ∧ ∀ m, m ∈ preorder T →
          (∃ vr, viewRefs DemoRun.compiled !! data m = Some vr
                 ∧ ViewRef.compiled vr = true)
          ∧ ∃ L1 L2,
              L = L1 ++ EvSetCompiled (data m) true :: L2
              ∧ (EvSetCompiled (data m) true ∉ L1)
              ∧ (EvSetCompiled (data m) true ∉ L2)
              ∧ EvNewViewRef (data m) ∈ L1
              ∧ (∀ a, a ∈ nodes_of DemoRun.compiled (data m) → EvNewViewNode a ∈ L1)
              ∧ ∀ d, d ∈ fdata (children m) →
                  EvNewViewRef d ∈ L1 ∧ EvSetCompiled d true ∈ L1)
   ∧ every_flag_set_once initial DemoRun.compiled)
  ∧ ∃ L,
      trace DemoPartial.failed = trace initial ++ L
      ∧ (∀ r b, EvSetCompiled r b ∈ L →
                b = true
                ∧ length (viewRefs initial) < r < length (viewRefs DemoPartial.failed))
      ∧ (∀ vr, viewRefs DemoPartial.failed !! length (viewRefs initial) = Some vr →
               ViewRef.compiled vr = false)
      ∧ ∀ r vr,
          length (viewRefs initial) ≤ r →
          viewRefs DemoPartial.failed !! r = Some vr →
          if ViewRef.compiled vr
          then marked_once L r (nodes_of DemoPartial.failed r)
                 (below DemoPartial.failed r)
          else EvSetCompiled r true ∉ L.
Proof.
  split.
  - apply (proj1 (compiled_flag_set_once Demo.compiler 3 (Some 0) 1 initial)
             1 DemoRun.compiled).
    vm_compute. reflexivity.
  - apply (proj2 (compiled_flag_set_once DemoPartial.compiler 3 (Some 3) 1 initial)
             TypeError DemoPartial.failed).
    vm_compute. reflexivity.
Defined.

(** C4 as stated fails of a compilation that throws: compiling [partial]
    creates its View Reference, at [0], then compiles [child] and fails
    on the placeholder for [missing]; the flag of the View Reference at
    [0] is never set. *)
Lemma compiled_once_counterexample :
  compile DemoPartial.compiler 3 (Some 3) 1 initial
  = Throw TypeError DemoPartial.failed
  ∧ length (viewRefs initial) ≤ 0 < length (viewRefs DemoPartial.failed)
  ∧ (∃ vr, viewRefs DemoPartial.failed !! 0 = Some vr ∧ ViewRef.compiled vr = false)
  ∧ (EvSetCompiled 0 true ∉ trace DemoPartial.failed)
  ∧ ¬ every_flag_set_once initial DemoPartial.failed.
Proof.
  assert (EvSetCompiled 0 true ∉ trace DemoPartial.failed) as Hnot.
  { intros Hin%list_elem_of_In. vm_compute in Hin. intuition discriminate. }
  split; [vm_compute; reflexivity|].
  split; [vm_compute; lia|].
  split; [eexists; split; vm_compute; reflexivity|].
  split; [done|].
  intros (L & HL & _ & Hall).
  destruct (Hall 0) as (L1 & L2 & -> & _); [vm_compute; lia|].
  apply Hnot. rewrite HL. set_solver.
Qed.
